(** * s3-client: a shallow embedding of the chunked transfer engine

    The development follows the Go sources of the repository:
    - [internal/cmd/download/run.go]   (chunk planner, worker pool, progress bar)
    - [internal/cmd/upload/run.go]     (CLI multipart upload)
    - [internal/shared/s3ops/*.go]     (library multipart upload, existence probes,
                                        whole-object download, listing and deletion)
    - package [s3uri]                  (parser of [s3://bucket/key] addresses)
    - [internal/shared/s3client/client.go] (client factory and its cache)

    Go's [int64] and [int32] are integers of [Z] with the wrap-around of
    every arithmetic operation written out; byte slices are [list byte];
    the storage service, the local disk and the scheduler are explicit
    parameters of the functions that consult them. *)

From Stdlib Require Import ZArith Lia Ascii String DecimalString Floats.
From Stdlib.Strings Require Import Byte.
From stdpp Require Import base tactics option list numbers strings gmap.

Local Open Scope Z_scope.

(** ** Errors and results *)

(** A Go [error] value.  [EEOF] is the sentinel [io.EOF]; [EService] stands
    for an error produced by a collaborator (SDK, operating system); the
    other constructors are the [fmt.Errorf] call sites of the repository
    that the development reaches. *)
Inductive error : Type :=
  | EEOF
  | EService (msg : string)
  | EWrap (prefix : string) (cause : error)
  | EChunkRange (index start end_ : Z) (cause : error)
  | EChunkWrite (index : Z) (cause : error)
  | EReadAt (offset : Z) (cause : error)
  | EUploadPart (partNumber : Z) (cause : error).

(** The pair (value, error) a Go call returns. *)
Inductive result (A : Type) : Type :=
  | Ok (a : A)
  | Err (e : error).
Arguments Ok {A} a.
Arguments Err {A} e.

(** How a call of one of the transfer functions ends: it returns its
    [error] (nil is [None]), it panics, or the fuel given to its loop runs
    out while the loop is still running. *)
Inductive outcome : Type :=
  | Returned (err : option error)
  | Panicked
  | OutOfFuel.

(** ** Machine integers *)

Definition min_int64 : Z := - 2 ^ 63.
Definition max_int64 : Z := 2 ^ 63 - 1.

(** Two's complement reduction of an integer to 64 bits, signed. *)
Definition wrap64 (z : Z) : Z := (z + 2 ^ 63) mod 2 ^ 64 - 2 ^ 63.

(** The conversion [int32(x)]. *)
Definition wrap32 (z : Z) : Z := (z + 2 ^ 31) mod 2 ^ 32 - 2 ^ 31.

Definition add64 (a b : Z) : Z := wrap64 (a + b).
Definition sub64 (a b : Z) : Z := wrap64 (a - b).
Definition mul64 (a b : Z) : Z := wrap64 (a * b).

Definition in_int64 (z : Z) : Prop := min_int64 <= z <= max_int64.

(** ** The client factory ([s3client.Factory]) *)

Module S3client.

(** [config.Options]. *)
Record Options := { Region : string; Profile : string; Endpoint : string }.

(** The two fields of [s3.Options] that the repository's [ClientOption]s set. *)
Record s3Options := { UseAccelerate : bool; UsePathStyle : bool }.

Definition defaultS3Options : s3Options :=
  {| UseAccelerate := false; UsePathStyle := false |}.

Definition ClientOption : Type := s3Options -> s3Options.

Definition WithAccelerate (enabled : bool) : ClientOption :=
  fun o => {| UseAccelerate := enabled; UsePathStyle := UsePathStyle o |}.

Definition WithPathStyle (enabled : bool) : ClientOption :=
  fun o => {| UseAccelerate := UseAccelerate o; UsePathStyle := enabled |}.

(** An [*s3.Client]: the loaded configuration it was built from and the
    service options in force. *)
Record Client := { clientConfig : string; clientOptions : s3Options }.

(** [s3.NewFromConfig(cfg, optFns...)]: the option functions run in order
    on the default options. *)
Definition NewFromConfig (awsCfg : string) (optFns : list ClientOption) : Client :=
  {| clientConfig := awsCfg;
     clientOptions := foldl (fun o f => f o) defaultS3Options optFns |}.

(** The factory: its map from cache key to client. *)
Record Factory := { clients : gmap string Client }.

Definition NewFactory : Factory := {| clients := ∅ |}.

Definition cacheKey (opts : Options) : string :=
  (Profile opts ++ "|" ++ Region opts ++ "|" ++ Endpoint opts)%string.

Definition ClearCache (f : Factory) : Factory := {| clients := ∅ |}.

Section Factory.
(** [config.Load]: the AWS configuration for the options, or an error. *)
Variable Load : Options -> result string.

Definition GetClient (f : Factory) (opts : Options)
  : Factory * result Client :=
  let key := cacheKey opts in
  match clients f !! key with
  | Some client => (f, Ok client)
  | None =>
      match Load opts with
      | Err e => (f, Err (EWrap "failed to load AWS config" e))
      | Ok awsCfg =>
          let client := NewFromConfig awsCfg [] in
          ({| clients := <[key := client]> (clients f) |}, Ok client)
      end
  end.

Definition GetClientWithOptions (f : Factory) (opts : Options)
    (clientOpts : list ClientOption) : Factory * result Client :=
  let key := (cacheKey opts ++ "|custom")%string in
  match clients f !! key with
  | Some client => (f, Ok client)
  | None =>
      match Load opts with
      | Err e => (f, Err (EWrap "failed to load AWS config" e))
      | Ok awsCfg =>
          let client := NewFromConfig awsCfg clientOpts in
          ({| clients := <[key := client]> (clients f) |}, Ok client)
      end
  end.
End Factory.

End S3client.

(** ** The progress bar's percentage ([progressBar.render]) *)

Module Progress.

(** [float64(x)] for an [int64] x: the nearest double.  The magnitude of
    every [int64] but the least fits in 63 bits; the least is -2^63. *)
Definition float64_of_int64 (z : Z) : float :=
  if z =? min_int64 then PrimFloat.opp 0x1p63%float
  else if z <? 0 then PrimFloat.opp (PrimFloat.of_uint63 (Uint63.of_Z (- z)))
  else PrimFloat.of_uint63 (Uint63.of_Z z).

Definition f1024 : float := 1024%float.
Definition f100 : float := 100%float.
Definition f0 : float := 0%float.

(** Lines 105-110 of [render]: megabytes done over megabytes in total,
    times 100, cut at 100. *)
Definition render_pct (bytes totalBytes : Z) : float :=
  let totalMB := (float64_of_int64 totalBytes / f1024 / f1024)%float in
  let doneMB := (float64_of_int64 bytes / f1024 / f1024)%float in
  let pct := (doneMB / totalMB * f100)%float in
  if PrimFloat.ltb f100 pct then f100 else pct.

(** [0 <= pct <= 100] on floats; false for a NaN. *)
Definition pct_in_range (pct : float) : bool :=
  PrimFloat.leb f0 pct && PrimFloat.leb pct f100.

End Progress.


(** ** Multipart upload sessions *)

(** [types.CompletedPart]. *)
Record completedPart := { ETag : string; PartNumber : Z }.

(** The storage service as the upload functions see it: what each call
    answers. *)
Record service := {
  createMultipartUpload : result string;
  uploadPart : Z -> list byte -> result string;
  completeMultipartUpload : list completedPart -> option error;
  abortMultipartUpload : option error }.

(** The local source file: whether it opens, whether [Stat] works, its
    bytes, and the read that the operating system fails, if any, by the
    offset at which it starts. *)
Record localFile := {
  openErr : option error;
  statErr : option error;
  contents : list byte;
  readFault : Z -> option error }.

Definition fileSize (file : localFile) : Z := Z.of_nat (length (contents file)).

(** What an upload does, in order: each call of the service or read of the
    file, with what it answered. *)
Inductive event : Type :=
  | EvCreate (r : result string)
  | EvRead (offset len : Z) (err : option error)
  | EvUploadPart (partNumber : Z) (body : list byte) (r : result string)
  | EvComplete (parts : list completedPart) (err : option error)
  | EvAbort (err : option error).

(** [buf := make([]byte, len)] followed by [file.ReadAt(buf, offset)]: the
    buffer holds the bytes the file has from [offset] on, the rest of it is
    left at zero, and the error is [io.EOF] when the file ends before the
    buffer is full.  A read the operating system fails leaves the buffer
    as allocated. *)
Definition fileReadAt (file : localFile) (len offset : Z) : list byte * option error :=
  match readFault file offset with
  | Some e => (replicate (Z.to_nat len) x00, Some e)
  | None =>
      let got := take (Z.to_nat len) (drop (Z.to_nat offset) (contents file)) in
      (got ++ replicate (Z.to_nat len - length got) x00,
       if Z.of_nat (length got) <? len then Some EEOF else None)
  end.

(** [buf := make([]byte, len)] followed by [file.Read(buf)] with the file
    position at [pos]: the buffer, the number of bytes read, and the error.
    A read into an empty buffer returns (0, nil); a read at the end of the
    file returns (0, io.EOF); a read that stops short at the end of the
    file is no error. *)
Definition fileRead (file : localFile) (len pos : Z)
  : list byte * Z * option error :=
  if len =? 0 then ([], 0, None) else
  match readFault file pos with
  | Some e => (replicate (Z.to_nat len) x00, 0, Some e)
  | None =>
      let got := take (Z.to_nat len) (drop (Z.to_nat pos) (contents file)) in
      match got with
      | [] => (replicate (Z.to_nat len) x00, 0, Some EEOF)
      | _ => (got ++ replicate (Z.to_nat len - length got) x00,
              Z.of_nat (length got), None)
      end
  end.

Module Upload.

(** [err != nil && err != io.EOF]. *)
Definition readFailed (err : option error) : option error :=
  match err with
  | Some EEOF => None
  | Some e => Some e
  | None => None
  end.

(** The part loop of [uploadMultipart] (cmd/upload/run.go, lines 212-256),
    with the call of [CompleteMultipartUpload] that follows it. *)
Fixpoint partLoop (fuel : nat) (svc : service) (file : localFile)
    (totalSize partSizeBytes offset partNumber : Z)
    (completedParts : list completedPart) (tr : list event)
  : list event * outcome :=
  match fuel with
  | O => (tr, OutOfFuel)
  | S fuel' =>
      if offset <? totalSize then
        let remaining := sub64 totalSize offset in
        let chunkSize := if remaining <? partSizeBytes then remaining else partSizeBytes in
        let (buf, rerr) := fileReadAt file chunkSize offset in
        let tr := tr ++ [EvRead offset chunkSize rerr] in
        match readFailed rerr with
        | Some e =>
            (tr ++ [EvAbort (abortMultipartUpload svc)],
             Returned (Some (EReadAt offset e)))
        | None =>
            let r := uploadPart svc (wrap32 partNumber) buf in
            let tr := tr ++ [EvUploadPart (wrap32 partNumber) buf r] in
            match r with
            | Err e =>
                (tr ++ [EvAbort (abortMultipartUpload svc)],
                 Returned (Some (EUploadPart partNumber e)))
            | Ok etag =>
                partLoop fuel' svc file totalSize partSizeBytes
                  (add64 offset chunkSize) (add64 partNumber 1)
                  (completedParts ++ [{| ETag := etag; PartNumber := wrap32 partNumber |}])
                  tr
            end
        end
      else
        let err := completeMultipartUpload svc completedParts in
        (tr ++ [EvComplete completedParts err],
         Returned (match err with
                   | Some e => Some (EWrap "failed to complete multipart upload" e)
                   | None => None
                   end))
  end.

Definition uploadMultipart (fuel : nat) (svc : service) (file : localFile)
    (partSize : Z) : list event * outcome :=
  match openErr file with
  | Some e => ([], Returned (Some (EWrap "failed to open file" e)))
  | None =>
  match statErr file with
  | Some e => ([], Returned (Some (EWrap "failed to stat file" e)))
  | None =>
      let totalSize := fileSize file in
      let partSizeBytes := if partSize <=? 0 then 10 * 1024 * 1024 else partSize in
      let r := createMultipartUpload svc in
      match r with
      | Err e =>
          ([EvCreate r], Returned (Some (EWrap "failed to start multipart upload" e)))
      | Ok _ =>
          partLoop fuel svc file totalSize partSizeBytes 0 1 [] [EvCreate r]
      end
  end
  end.

End Upload.

Module S3ops.

(** The part loop of [s3ops.UploadMultipart] (lines 239-287) and the
    completion call after it.  [file.Read(buf)] reads at the position
    [pos] of the open file and moves it by the number of bytes read;
    [make([]byte, chunkSize)] panics for a negative length; every error of
    the read, [io.EOF] included, ends the upload. *)
Fixpoint partLoop (fuel : nat) (svc : service) (file : localFile)
    (totalSize partSize offset partNumber pos : Z)
    (completedParts : list completedPart) (tr : list event)
  : list event * outcome :=
  match fuel with
  | O => (tr, OutOfFuel)
  | S fuel' =>
      if offset <? totalSize then
        let remaining := sub64 totalSize offset in
        let chunkSize := if remaining <? partSize then remaining else partSize in
        if chunkSize <? 0 then (tr, Panicked) else
        let '(buf, n, rerr) := fileRead file chunkSize pos in
        let tr := tr ++ [EvRead pos chunkSize rerr] in
        match rerr with
        | Some e =>
            (tr ++ [EvAbort (abortMultipartUpload svc)],
             Returned (Some (EWrap "failed to read file" e)))
        | None =>
            let r := uploadPart svc (wrap32 partNumber) buf in
            let tr := tr ++ [EvUploadPart (wrap32 partNumber) buf r] in
            match r with
            | Err e =>
                (tr ++ [EvAbort (abortMultipartUpload svc)],
                 Returned (Some (EUploadPart partNumber e)))
            | Ok etag =>
                partLoop fuel' svc file totalSize partSize
                  (add64 offset chunkSize) (add64 partNumber 1) (pos + n)
                  (completedParts ++ [{| ETag := etag; PartNumber := wrap32 partNumber |}])
                  tr
            end
        end
      else
        let err := completeMultipartUpload svc completedParts in
        (tr ++ [EvComplete completedParts err],
         Returned (match err with
                   | Some e => Some (EWrap "failed to complete multipart upload" e)
                   | None => None
                   end))
  end.

Definition UploadMultipart (fuel : nat) (svc : service) (file : localFile)
    (partSize : Z) : list event * outcome :=
  match openErr file with
  | Some e => ([], Returned (Some (EWrap "failed to open file" e)))
  | None =>
  match statErr file with
  | Some e => ([], Returned (Some (EWrap "failed to stat file" e)))
  | None =>
      let r := createMultipartUpload svc in
      match r with
      | Err e =>
          ([EvCreate r], Returned (Some (EWrap "failed to start multipart upload" e)))
      | Ok _ =>
          partLoop fuel svc file (fileSize file) partSize 0 1 0 [] [EvCreate r]
      end
  end
  end.

(** *** Ranged reads and object metadata *)

(** What the SDK's [GetObject] answers: the body, as [io.ReadAll] finds it
    (its bytes, or the error of the read). *)
Record getObjectOutput := { body : result (list byte) }.

(** [DownloadRange]: a [GetObject] for "bytes=start-end", then the whole
    body as it comes. *)
Definition DownloadRange (getObject : Z -> Z -> result getObjectOutput)
    (start end_ : Z) : result (list byte) :=
  match getObject start end_ with
  | Err e => Err (EWrap "failed to get object range" e)
  | Ok resp =>
      match body resp with
      | Err e => Err (EWrap "failed to read object" e)
      | Ok data => Ok data
      end
  end.

(** What the SDK's [HeadObject] and [HeadBucket] answer. *)
Record headOutput := { contentLength : option Z }.

(** The field of [ObjectMetadata] the download reads;
    [aws.ToInt64] turns a nil pointer into 0. *)
Record ObjectMetadata := { Size : Z }.

Definition HeadObjectMeta (headObject : result headOutput) : result ObjectMetadata :=
  match headObject with
  | Err e => Err (EWrap "failed to head object" e)
  | Ok resp => Ok {| Size := default 0 (contentLength resp) |}
  end.

(** *** Existence probes ([ObjectExists], [BucketExists]) *)

Section Probes.
Variable HeadObject : string -> string -> result headOutput.
Variable HeadBucket : string -> result unit.

Definition ObjectExists (bucket key : string) : bool * option error :=
  match HeadObject bucket key with
  | Err _ => (false, None)
  | Ok _ => (true, None)
  end.

Definition BucketExists (bucket : string) : bool * option error :=
  match HeadBucket bucket with
  | Err _ => (false, None)
  | Ok _ => (true, None)
  end.
End Probes.

End S3ops.

(** ** The chunk planner and the worker pool ([download.downloader]) *)

Module Download.

(** [type chunk struct { index int; start, end int64 }]: the byte range
    [start .. end_], both ends included. *)
Record chunk := { index : Z; start : Z; end_ : Z }.

(** The planning loop of [download] (lines 298-305):
    [for i := int64(0); i < totalSize; i += d.chunkSize].  One unit of fuel
    is spent per test of the loop condition; [None] means the fuel ran out
    with the loop still running. *)
Fixpoint planLoop (fuel : nat) (totalSize chunkSize i : Z) (chunks : list chunk)
  : option (list chunk) :=
  match fuel with
  | O => None
  | S fuel' =>
      if i <? totalSize then
        let e := sub64 (add64 i chunkSize) 1 in
        let e := if e >=? totalSize then sub64 totalSize 1 else e in
        planLoop fuel' totalSize chunkSize (add64 i chunkSize)
          (chunks ++ [{| index := Z.of_nat (length chunks); start := i; end_ := e |}])
      else Some chunks
  end.

Definition planChunks (fuel : nat) (totalSize chunkSize : Z) : option (list chunk) :=
  planLoop fuel totalSize chunkSize 0 [].


(** *** The destination file *)

(** The bytes of a file after [data] is put at [off >= 0]; a gap between
    the end of the file and [off] reads as zeros; no byte, no change. *)
Definition pwrite (f data : list byte) (off : nat) : list byte :=
  match data with
  | [] => f
  | _ => take off f ++ replicate (off - length f) x00 ++ data
           ++ drop (off + length data) f
  end.

(** The world around a download: the answer to [HeadObject], whether the
    output file can be created and resized, the answer to each ranged
    [GetObject], and how many bytes of a write the disk takes. *)
Record world := {
  headObject : result S3ops.headOutput;
  openFile : option error;
  truncateErr : option error;
  getObject : Z -> Z -> result S3ops.getObjectOutput;
  diskWrite : Z -> list byte -> nat }.

(** [f.Truncate(size)]. *)
Definition Truncate (w : world) (size : Z) : option error :=
  if size <? 0 then Some (EService "invalid argument") else truncateErr w.

(** [f.WriteAt(data, off)]: the file afterwards and the error.  A negative
    offset is refused; a write the disk takes only part of leaves that part
    in the file and is an error. *)
Definition WriteAt (w : world) (f data : list byte) (off : Z)
  : list byte * option error :=
  if off <? 0 then (f, Some (EService "negative offset")) else
  let n := Nat.min (diskWrite w off data) (length data) in
  (pwrite f (take n data) (Z.to_nat off),
   if (n <? length data)%nat then Some (EService "short write") else None).

(** *** The worker pool *)

Definition stateWaiting : Z := 0.
Definition stateDownloading : Z := 1.
Definition stateDone : Z := 2.
Definition stateFailed : Z := 3.

(** The fields of [downloader] that the transfer depends on. *)
Record downloader := { chunkSize : Z; concurrency : Z }.

(** The downloader [Run] builds from its flags [-chunk-size] (in MiB) and
    [-concurrency]. *)
Definition Run_downloader (chunkMB concurrency : Z) : downloader :=
  {| chunkSize := mul64 (mul64 chunkMB 1024) 1024; concurrency := concurrency |}.

(** Where a worker goroutine stands: about to receive from [chunkCh], with
    a chunk in hand, returned because the channel was drained, or returned
    after a failure. *)
Inductive worker : Type :=
  | Idle
  | Fetching (c : chunk)
  | Exited
  | Failed.

(** The state the goroutines share: the channel of chunks, the workers,
    the bytes of the output file, the progress bar's states and counter,
    the channel of errors in the order they were sent, and whether a
    goroutine has panicked, which ends the program. *)
Record pool := {
  chunkCh : list chunk;
  workers : list worker;
  file : list byte;
  chunkStates : list Z;
  downloaded : Z;
  errCh : list error;
  panicked : bool }.

(** [pb.setState(chunkIdx, state)], that is
    [atomic.StoreInt32(&p.chunkStates[chunkIdx], state)]; [None] is the
    panic of an index out of range. *)
Definition setState (states : list Z) (chunkIdx state : Z) : option (list Z) :=
  if (0 <=? chunkIdx) && (chunkIdx <? Z.of_nat (length states))
  then Some (<[Z.to_nat chunkIdx := state]> states)
  else None.

(** The pool once a goroutine has panicked in [setState], with the
    channel of chunks, the file and the counter of bytes as they are by
    then. *)
Definition crash (s : pool) (ch : list chunk) (f : list byte) (bytes : Z) : pool :=
  {| chunkCh := ch; workers := workers s; file := f;
     chunkStates := chunkStates s; downloaded := bytes;
     errCh := errCh s; panicked := true |}.

(** One move of worker [k] (lines 342-363): either it receives the next
    chunk and marks it as downloading (or returns, the channel being
    drained), or it carries out the ranged read and the write of the chunk
    it holds and records the outcome.  [None]: the worker has returned,
    there is no such worker, or the program has ended in a panic. *)
Definition step (w : world) (k : nat) (s : pool) : option pool :=
  if panicked s then None else
  match workers s !! k with
  | Some Idle =>
      match chunkCh s with
      | c :: rest =>
          match setState (chunkStates s) (index c) stateDownloading with
          | None => Some (crash s rest (file s) (downloaded s))
          | Some states =>
              Some {| chunkCh := rest;
                      workers := <[k := Fetching c]> (workers s);
                      file := file s;
                      chunkStates := states;
                      downloaded := downloaded s;
                      errCh := errCh s;
                      panicked := false |}
          end
      | [] =>
          Some {| chunkCh := [];
                  workers := <[k := Exited]> (workers s);
                  file := file s;
                  chunkStates := chunkStates s;
                  downloaded := downloaded s;
                  errCh := errCh s;
                  panicked := false |}
      end
  | Some (Fetching c) =>
      match S3ops.DownloadRange (getObject w) (start c) (end_ c) with
      | Err e =>
          match setState (chunkStates s) (index c) stateFailed with
          | None => Some (crash s (chunkCh s) (file s) (downloaded s))
          | Some states =>
              Some {| chunkCh := chunkCh s;
                      workers := <[k := Failed]> (workers s);
                      file := file s;
                      chunkStates := states;
                      downloaded := downloaded s;
                      errCh := errCh s ++ [EChunkRange (index c) (start c) (end_ c) e];
                      panicked := false |}
          end
      | Ok data =>
          let (f', werr) := WriteAt w (file s) data (start c) in
          match werr with
          | Some e =>
              match setState (chunkStates s) (index c) stateFailed with
              | None => Some (crash s (chunkCh s) f' (downloaded s))
              | Some states =>
                  Some {| chunkCh := chunkCh s;
                          workers := <[k := Failed]> (workers s);
                          file := f';
                          chunkStates := states;
                          downloaded := downloaded s;
                          errCh := errCh s ++ [EChunkWrite (index c) e];
                          panicked := false |}
              end
          | None =>
              match setState (chunkStates s) (index c) stateDone with
              | None =>
                  Some (crash s (chunkCh s) f'
                          (add64 (downloaded s) (Z.of_nat (length data))))
              | Some states =>
                  Some {| chunkCh := chunkCh s;
                          workers := <[k := Idle]> (workers s);
                          file := f';
                          chunkStates := states;
                          downloaded := add64 (downloaded s) (Z.of_nat (length data));
                          errCh := errCh s;
                          panicked := false |}
              end
          end
      end
  | _ => None
  end.

(** A schedule names the worker that moves next; a worker that has
    returned does not move, and nothing moves after a panic. *)
Definition run (w : world) (sched : list nat) (s : pool) : pool :=
  foldl (fun s k => default s (step w k s)) s sched.

Definition stopped (wk : worker) : bool :=
  match wk with Exited | Failed => true | _ => false end.

(** [wg.Wait()] has returned. *)
Definition finished (s : pool) : bool := forallb stopped (workers s).

(** The pool when the workers are started: every chunk queued, the file
    at its full length and zero, every chunk waiting. *)
Definition initPool (chunks : list chunk) (n : nat) (totalSize : Z) : pool :=
  {| chunkCh := chunks;
     workers := replicate n Idle;
     file := replicate (Z.to_nat totalSize) x00;
     chunkStates := replicate (length chunks) stateWaiting;
     downloaded := 0;
     errCh := [];
     panicked := false |}.

(** [download]: head, create, resize, plan, start the workers, wait, and
    return the first error sent, if any.  [fuel] bounds the planning loop
    and [sched] is the interleaving of the workers; a schedule that ends
    with a worker still running leaves the call waiting ([OutOfFuel]); a
    panic of a worker ends the program.  The pool is given back for
    inspection once the workers were started. *)
Definition download (fuel : nat) (sched : list nat) (w : world) (d : downloader)
  : outcome * option pool :=
  match S3ops.HeadObjectMeta (headObject w) with
  | Err e => (Returned (Some (EWrap "HeadObject failed" e)), None)
  | Ok meta =>
      let totalSize := S3ops.Size meta in
      match openFile w with
      | Some e => (Returned (Some (EWrap "failed to create output file" e)), None)
      | None =>
          match Truncate w totalSize with
          | Some e => (Returned (Some (EWrap "failed to pre-allocate file" e)), None)
          | None =>
              match planChunks fuel totalSize (chunkSize d) with
              | None => (OutOfFuel, None)
              | Some chunks =>
                  if concurrency d <? 0 then (Panicked, None) else
                  let s := run w sched
                             (initPool chunks (Z.to_nat (concurrency d)) totalSize) in
                  if panicked s then (Panicked, Some s) else
                  if finished s then (Returned (head (errCh s)), Some s)
                  else (OutOfFuel, Some s)
              end
          end
      end
  end.

End Download.

(** *** Reading a pool *)

(** The position of a chunk in the progress bar's array. *)
Definition idx (c : Download.chunk) : nat := Z.to_nat (Download.index c).

(** The chunk a worker holds, if any. *)
Definition held (wk : Download.worker) : list Download.chunk :=
  match wk with Download.Fetching c => [c] | _ => [] end.

(** The chunks the workers hold. *)
Definition inflight (ws : list Download.worker) : list Download.chunk :=
  omap (fun wk => match wk with Download.Fetching c => Some c | _ => None end) ws.

Definition isFailed (wk : Download.worker) : bool :=
  match wk with Download.Failed => true | _ => false end.

(** The number of moves the workers of a pool can still make, at most. *)
Definition moveCost (wk : Download.worker) : nat :=
  match wk with
  | Download.Fetching _ => 2%nat
  | Download.Idle => 1%nat
  | _ => 0%nat
  end.

Definition movesLeft (s : Download.pool) : nat :=
  (3 * length (Download.chunkCh s) + list_sum (moveCost <$> Download.workers s))%nat.

(** The storage service answers no ranged read with more bytes than the
    range has. *)
Definition conforming (w : Download.world) : Prop :=
  forall s e data,
    S3ops.DownloadRange (Download.getObject w) s e = Ok data ->
    Z.of_nat (length data) <= e - s + 1.

(** A chunk whose ranged read and whose write go through. *)
Definition succeeds (w : Download.world) (c : Download.chunk) : Prop :=
  exists data,
    S3ops.DownloadRange (Download.getObject w) (Download.start c) (Download.end_ c)
    = Ok data /\
    0 <= Download.start c /\
    (length data <= Download.diskWrite w (Download.start c) data)%nat.

(** The bytes a ranged read of chunk [c] brings, none when it fails. *)
Definition chunkData (w : Download.world) (c : Download.chunk) : list byte :=
  match S3ops.DownloadRange (Download.getObject w) (Download.start c) (Download.end_ c) with
  | Ok data => data
  | Err _ => []
  end.

(** The file after a worker has dealt with chunk [c]. *)
Definition writeChunk (w : Download.world) (f : list byte) (c : Download.chunk)
  : list byte :=
  match S3ops.DownloadRange (Download.getObject w) (Download.start c) (Download.end_ c) with
  | Ok data => fst (Download.WriteAt w f data (Download.start c))
  | Err _ => f
  end.

(** What every list of chunks the planning loop builds satisfies, whatever
    the sizes: a chunk's index is its position, it ends below the total
    size, and it ends before the next one starts unless that start has
    wrapped around below zero. *)
Definition planShape (totalSize : Z) (l : list Download.chunk) : Prop :=
  (forall (j : nat) c, l !! j = Some c ->
     Download.index c = Z.of_nat j /\ Download.end_ c <= totalSize - 1) /\
  (forall (j : nat) c c', l !! j = Some c -> l !! S j = Some c' ->
     0 <= Download.start c' -> Download.end_ c < Download.start c').

(** The number of workers that returned after a failure. *)
Definition failedCount (ws : list Download.worker) : nat :=
  length (filter (fun wk => isFailed wk = true) ws).

(** A list of chunks in which the index of a chunk is its position. *)
Definition wellIndexed (chunks : list Download.chunk) : Prop :=
  forall (j : nat) c, chunks !! j = Some c -> Download.index c = Z.of_nat j.

(** The bookkeeping of the pool.  The chunks are, in some order, those
    still queued, those held by a worker, those [done] (in the order in
    which their writes were made) and those [failed]; no goroutine has
    panicked; the progress bar
    shows each of them in the matching state; every failure sent one
    error and stopped one worker; a worker returns without a failure only
    once the channel is drained; and as long as nothing has failed the
    file is the zero file with the chunks done written to it in turn. *)
Definition poolInv (w : Download.world) (totalSize : Z)
    (chunks : list Download.chunk) (s : Download.pool) : Prop :=
  exists done failed : list Download.chunk,
    Download.panicked s = false /\
    Download.chunkCh s ++ inflight (Download.workers s) ++ done ++ failed ≡ₚ chunks /\
    length (Download.chunkStates s) = length chunks /\
    Forall (fun c => Download.chunkStates s !! idx c = Some Download.stateWaiting)
      (Download.chunkCh s) /\
    Forall (fun c => Download.chunkStates s !! idx c = Some Download.stateDownloading)
      (inflight (Download.workers s)) /\
    Forall (fun c => Download.chunkStates s !! idx c = Some Download.stateDone) done /\
    Forall (fun c => Download.chunkStates s !! idx c = Some Download.stateFailed) failed /\
    length failed = length (Download.errCh s) /\
    failedCount (Download.workers s) = length (Download.errCh s) /\
    (forall k, Download.workers s !! k = Some Download.Exited -> Download.chunkCh s = []) /\
    (Download.errCh s = [] ->
     Download.file s = foldl (writeChunk w) (replicate (Z.to_nat totalSize) x00) done /\
     Forall (succeeds w) done).

(** *** Two small worlds used in examples

    An object of five bytes, served by a service that honours the range of
    a request (and refuses a range that is not one), and by one that
    ignores the range and sends the whole object. *)
Definition exampleObject : list byte := [x41; x42; x43; x44; x45].

Definition rangeWorld : Download.world :=
  {| Download.headObject := Ok {| S3ops.contentLength := Some 5 |};
     Download.openFile := None;
     Download.truncateErr := None;
     Download.getObject := fun s e =>
       if (s <? 0) || (e <? s) then Err (EService "InvalidRange") else
       Ok {| S3ops.body :=
               Ok (take (Z.to_nat (e - s + 1)) (drop (Z.to_nat s) exampleObject)) |};
     Download.diskWrite := fun _ data => length data |}.

Definition wholeObjectWorld : Download.world :=
  {| Download.headObject := Ok {| S3ops.contentLength := Some 5 |};
     Download.openFile := None;
     Download.truncateErr := None;
     Download.getObject := fun _ _ => Ok {| S3ops.body := Ok exampleObject |};
     Download.diskWrite := fun _ data => length data |}.

(** The service of [rangeWorld], except that the read of the range that
    starts at byte 2 fails. *)
Definition faultyWorld : Download.world :=
  {| Download.headObject := Ok {| S3ops.contentLength := Some 5 |};
     Download.openFile := None;
     Download.truncateErr := None;
     Download.getObject := fun s e =>
       if (s <? 0) || (e <? s) then Err (EService "InvalidRange") else
       if s =? 2 then Err (EService "connection reset") else
       Ok {| S3ops.body :=
               Ok (take (Z.to_nat (e - s + 1)) (drop (Z.to_nat s) exampleObject)) |};
     Download.diskWrite := fun _ data => length data |}.

(** *** Reading a trace *)

(** The [UploadPart] calls of a trace: part number and body, in order. *)
Definition uploads (tr : list event) : list (Z * list byte) :=
  omap (fun ev => match ev with
                  | EvUploadPart pn body _ => Some (pn, body)
                  | _ => None
                  end) tr.

(** The part lists the [CompleteMultipartUpload] calls of a trace received. *)
Definition completions (tr : list event) : list (list completedPart) :=
  omap (fun ev => match ev with
                  | EvComplete parts _ => Some parts
                  | _ => None
                  end) tr.

Definition isAbort (ev : event) : bool :=
  match ev with EvAbort _ => true | _ => false end.

Definition isComplete (ev : event) : bool :=
  match ev with EvComplete _ _ => true | _ => false end.

(** The number of [AbortMultipartUpload] calls of a trace. *)
Definition aborts (tr : list event) : nat := length (filter (fun ev => isAbort ev = true) tr).

(** A part upload that failed. *)
Definition partFailed (ev : event) : bool :=
  match ev with EvUploadPart _ _ (Err _) => true | _ => false end.

(** A read that made the command's upload give up (an error other than
    [io.EOF]), and one that made the library's upload give up (any error). *)
Definition readFailedCmd (ev : event) : bool :=
  match ev with
  | EvRead _ _ (Some EEOF) => false
  | EvRead _ _ (Some _) => true
  | _ => false
  end.

Definition readFailedLib (ev : event) : bool :=
  match ev with EvRead _ _ (Some _) => true | _ => false end.

(** An event after which the command's upload (the library's upload) gives
    up: a failed part upload or a failed read. *)
Definition failedCmd (ev : event) : bool := partFailed ev || readFailedCmd ev.
Definition failedLib (ev : event) : bool := partFailed ev || readFailedLib ev.

(** The service with another answer to [AbortMultipartUpload]. *)
Definition withAbort (a : option error) (svc : service) : service :=
  {| createMultipartUpload := createMultipartUpload svc;
     uploadPart := uploadPart svc;
     completeMultipartUpload := completeMultipartUpload svc;
     abortMultipartUpload := a |}.

(** A trace in which the session is still open and nothing has failed. *)
Definition quiet (failed : event -> bool) (tr : list event) : Prop :=
  Forall (fun ev => failed ev = false /\ isAbort ev = false /\ isComplete ev = false) tr.

(** What a run that gave up looks like: one abort, sent last, no
    completion, and the error of the part upload or of the read. *)
Definition gaveUp (svc : service) (wrapRead : Z -> error -> error)
    (readFails : event -> bool) (T : list event) (out : outcome) : Prop :=
  aborts T = 1%nat /\ completions T = [] /\
  last T = Some (EvAbort (abortMultipartUpload svc)) /\
  ((exists partNumber body e,
       EvUploadPart (wrap32 partNumber) body (Err e) ∈ T /\
       uploadPart svc (wrap32 partNumber) body = Err e /\
       out = Returned (Some (EUploadPart partNumber e))) \/
   (exists offset len e,
       EvRead offset len (Some e) ∈ T /\
       readFails (EvRead offset len (Some e)) = true /\
       out = Returned (Some (wrapRead offset e)))).

(** *** Sessions that went through *)

(** No part upload failed and no read returned an error. *)
Definition allSucceeded (T : list event) : Prop :=
  Forall (fun ev => failedLib ev = false) T.

(** The parts listed are those of the uploads, in order: same part number,
    and the tag the service answered for that upload. *)
Definition partsMatch (svc : service) (ups : list (Z * list byte))
    (parts : list completedPart) : Prop :=
  Forall2 (fun up part => PartNumber part = up.1 /\
                          uploadPart svc up.1 up.2 = Ok (ETag part)) ups parts.

(** What holds whenever the part loop is about to test its condition. *)
Definition sessionInv (svc : service) (file : localFile) (ps off pn : Z)
    (parts : list completedPart) (tr : list event) : Prop :=
  completions tr = [] /\ aborts tr = 0%nat /\
  partsMatch svc (uploads tr) parts /\
  (uploads tr).*1 = wrap32 <$> seqZ 1 (Z.of_nat (length (uploads tr))) /\
  pn = wrap64 (1 + Z.of_nat (length (uploads tr))) /\
  0 <= off <= fileSize file /\
  concat ((uploads tr).*2) = take (Z.to_nat off) (contents file) /\
  Forall (fun up => Z.of_nat (length up.2) <= ps) (uploads tr).

(** A trace of a session that was completed: one completion call, the
    last call of the trace, carrying the parts of the uploads in order; no
    abort; part numbers 1, 2, ... as int32; bodies that put end to end are
    the file, none longer than the part size. *)
Definition completedSession (svc : service) (file : localFile) (ps : Z)
    (T : list event) : Prop :=
  exists parts err,
    last T = Some (EvComplete parts err) /\
    err = completeMultipartUpload svc parts /\
    completions T = [parts] /\ aborts T = 0%nat /\
    partsMatch svc (uploads T) parts /\
    (uploads T).*1 = wrap32 <$> seqZ 1 (Z.of_nat (length (uploads T))) /\
    concat ((uploads T).*2) = contents file /\
    Forall (fun up => Z.of_nat (length up.2) <= ps) (uploads T).

(** *** A small session used in examples

    A three-byte file sent in parts of one byte to a service that refuses
    part 2 and whose abort call fails as well. *)
Definition exampleFile : localFile :=
  {| openErr := None; statErr := None;
     contents := [x61; x62; x63];
     readFault := fun _ => None |}.

Definition refusingService : service :=
  {| createMultipartUpload := Ok "upload-id"%string;
     uploadPart := fun pn _ =>
       if pn =? 2 then Err (EService "part refused") else Ok "etag"%string;
     completeMultipartUpload := fun _ => None;
     abortMultipartUpload := Some (EService "abort failed") |}.

(** A service that accepts every part and tags it with its first byte. *)
Definition acceptingService : service :=
  {| createMultipartUpload := Ok "upload-id"%string;
     uploadPart := fun _ body => Ok (string_of_list_byte (take 1 body));
     completeMultipartUpload := fun _ => None;
     abortMultipartUpload := None |}.

(** A readable file of [n] zero bytes. *)
Definition zeroFile (n : Z) : localFile :=
  {| openErr := None; statErr := None;
     contents := replicate (Z.to_nat n) x00;
     readFault := fun _ => None |}.

(** The quotient rounded up, for a positive divisor. *)
Definition ceil_div (a b : Z) : Z := (a + b - 1) / b.

(** The piece the partition of [0, totalSize) into runs of [chunkSize]
    bytes has at position [j]. *)
Definition nice_chunk (totalSize chunkSize : Z) (j : nat) : Download.chunk :=
  {| Download.index := Z.of_nat j;
     Download.start := Z.of_nat j * chunkSize;
     Download.end_ := Z.min ((Z.of_nat j + 1) * chunkSize) totalSize - 1 |}.

(** ** Strings ([strings]) *)

Module Strings.

(** The slices [s[:n]] and [s[n:]] of a string, for [n <= len(s)]. *)
Definition sliceTo (s : string) (n : nat) : string := String.substring 0 n s.
Definition sliceFrom (s : string) (n : nat) : string :=
  String.substring n (String.length s - n) s.

(** [strings.HasPrefix]:
    [len(s) >= len(prefix) && s[:len(prefix)] == prefix]. *)
Definition HasPrefix (s prefix : string) : bool :=
  (String.length prefix <=? String.length s)%nat
  && String.eqb (sliceTo s (String.length prefix)) prefix.

(** [strings.HasSuffix]:
    [len(s) >= len(suffix) && s[len(s)-len(suffix):] == suffix]. *)
Definition HasSuffix (s suffix : string) : bool :=
  (String.length suffix <=? String.length s)%nat
  && String.eqb (sliceFrom s (String.length s - String.length suffix)) suffix.

(** [strings.TrimPrefix]. *)
Definition TrimPrefix (s prefix : string) : string :=
  if HasPrefix s prefix then sliceFrom s (String.length prefix) else s.

(** [strings.IndexByte]: the position of the first [c] in [s], or -1. *)
Fixpoint IndexByte (s : string) (c : ascii) : Z :=
  match s with
  | EmptyString => -1
  | String a s' =>
      if Ascii.eqb a c then 0
      else let i := IndexByte s' c in if i =? -1 then -1 else i + 1
  end.

(** [strings.Split(s, sep)] for a separator of one byte: the fields
    between the separators, one more than there are separators. *)
Fixpoint Split (s : string) (sep : ascii) : list string :=
  match s with
  | EmptyString => [EmptyString]
  | String a s' =>
      if Ascii.eqb a sep then EmptyString :: Split s' sep
      else match Split s' sep with
           | field :: fields => String a field :: fields
           | [] => [String a EmptyString]
           end
  end.

(** [strings.SplitN(s, sep, 2)] for a separator of one byte: the string
    cut at the first separator, or the string alone when it has none. *)
Definition SplitN2 (s : string) (sep : ascii) : list string :=
  let m := IndexByte s sep in
  if m =? -1 then [s]
  else [sliceTo s (Z.to_nat m); sliceFrom s (Z.to_nat (m + 1))].

End Strings.

(** The byte [c] occurs in [s]. *)
Definition hasByte (c : ascii) (s : string) : Prop := In c (list_ascii_of_string s).

(** ** S3 URIs ([s3uri.Parse]) *)

Module S3uri.

(** The four [fmt.Errorf] call sites of [Parse], each with the URI it
    quotes: no [s3://] at the start, no [/] after the bucket name, an
    empty bucket name, an empty key. *)
Inductive parseError : Type :=
  | ErrScheme (uri : string)
  | ErrNoKey (uri : string)
  | ErrEmptyBucket (uri : string)
  | ErrEmptyKey (uri : string).

(** [Parse]: bucket, key and error, the first two empty when there is an
    error. *)
Definition Parse (uri : string) : string * string * option parseError :=
  if negb (Strings.HasPrefix uri "s3://") then
    (EmptyString, EmptyString, Some (ErrScheme uri)) else
  let rest := Strings.TrimPrefix uri "s3://" in
  let idx := Strings.IndexByte rest "/" in
  if idx =? -1 then (EmptyString, EmptyString, Some (ErrNoKey uri)) else
  let bucket := Strings.sliceTo rest (Z.to_nat idx) in
  let key := Strings.sliceFrom rest (Z.to_nat (idx + 1)) in
  if String.eqb bucket "" then (EmptyString, EmptyString, Some (ErrEmptyBucket uri)) else
  if String.eqb key "" then (EmptyString, EmptyString, Some (ErrEmptyKey uri)) else
  (bucket, key, None).

End S3uri.

(** ** Object metadata from the command line ([parseMetadata]) *)

Module UploadRun.

(** [parseMetadata] (cmd/upload/run.go, lines 350-363): the fields of [s]
    between commas, each cut at its first [=]; a field without [=] is
    passed over, and a key met again takes the later value. *)
Definition parseMetadata (s : string) : gmap string string :=
  if String.eqb s "" then ∅ else
  foldl (fun (meta : gmap string string) pair =>
           match Strings.SplitN2 pair "=" with
           | [k; v] => <[k := v]> meta
           | _ => meta
           end) ∅ (Strings.Split s ",").

End UploadRun.

(** The strings of [l] with [sep] between them. *)
Fixpoint joinWith (sep : ascii) (l : list string) : string :=
  match l with
  | [] => EmptyString
  | [s] => s
  | s :: l' => (s ++ String sep (joinWith sep l'))%string
  end.

(** The text [KEY=VALUE,KEY=VALUE,...] of a list of pairs. *)
Definition encodeMetadata (l : list (string * string)) : string :=
  joinWith "," ((fun kv => (kv.1 ++ String "=" kv.2)%string) <$> l).

(** ** Durations ([time.Duration], [formatDuration]) *)

Module Duration.

(** A [time.Duration] is an [int64] count of nanoseconds. *)
Definition Second : Z := 1000000000.
Definition Minute : Z := 60 * Second.
Definition Hour : Z := 60 * Minute.

(** [lessThanHalf(x, y)]: [uint64(x)+uint64(x) < uint64(y)]. *)
Definition lessThanHalf (x y : Z) : bool :=
  (x mod 2 ^ 64 + x mod 2 ^ 64) mod 2 ^ 64 <? y mod 2 ^ 64.

(** [d.Round(m)]: the multiple of [m] nearest to [d], halves away from
    zero; the largest or the least duration when that multiple does not
    fit; [d] itself for [m <= 0]. *)
Definition Round (d m : Z) : Z :=
  if m <=? 0 then d else
  let r := Z.rem d m in
  if d <? 0 then
    let r := wrap64 (- r) in
    if lessThanHalf r m then add64 d r
    else let d1 := add64 (sub64 d m) r in
         if d1 <? d then d1 else min_int64
  else
    if lessThanHalf r m then sub64 d r
    else let d1 := sub64 (add64 d m) r in
         if d1 >? d then d1 else max_int64.

End Duration.

Module Fmt.

(** The verb [%d] for an integer. *)
Definition d (z : Z) : string := NilZero.string_of_int (Z.to_int z).

(** The verb [%02d]: padded with zeros to two characters, the sign
    counted. *)
Definition d02 (z : Z) : string :=
  if (0 <=? z) && (z <? 10) then String "0" (d z) else d z.

End Fmt.

Module DownloadRun.

(** [formatDuration] (cmd/download/run.go, lines 176-190, and
    cmd/upload/run.go, lines 403-417). *)
Definition formatDuration (d : Z) : string :=
  let d := Duration.Round d Duration.Second in
  let h := Z.quot d Duration.Hour in
  let d := sub64 d (mul64 h Duration.Hour) in
  let m := Z.quot d Duration.Minute in
  let d := sub64 d (mul64 m Duration.Minute) in
  let s := Z.quot d Duration.Second in
  if h >? 0 then (Fmt.d h ++ "h" ++ Fmt.d02 m ++ "m" ++ Fmt.d02 s ++ "s")%string
  else if m >? 0 then (Fmt.d m ++ "m" ++ Fmt.d02 s ++ "s")%string
  else (Fmt.d s ++ "s")%string.

End DownloadRun.

(** *** A service that serves an object as it is *)

(** The world in which the object [obj] is there: [HeadObject] gives its
    length, the output file can be created and resized, a ranged read of
    the bytes [s .. e] of the object answers exactly these bytes, and the
    disk takes every write whole. *)
Definition serves (obj : list byte) (w : Download.world) : Prop :=
  Download.headObject w
  = Ok {| S3ops.contentLength := Some (Z.of_nat (length obj)) |} /\
  Download.openFile w = None /\
  Download.truncateErr w = None /\
  (forall s e, 0 <= s <= e -> e < Z.of_nat (length obj) ->
     Download.getObject w s e
     = Ok {| S3ops.body := Ok (take (Z.to_nat (e - s + 1)) (drop (Z.to_nat s) obj)) |}) /\
  (forall off data, (length data <= Download.diskWrite w off data)%nat).

(** *** The byte counter of the progress bar *)

(** What chunk [c] adds to the byte counter once it is marked as done. *)
Definition doneBytes (w : Download.world) (states : list Z) (c : Download.chunk) : Z :=
  if decide (states !! idx c = Some Download.stateDone)
  then Z.of_nat (length (chunkData w c)) else 0.

(** The bytes of the chunks of a plan that are marked as done. *)
Definition bytesDone (w : Download.world) (chunks : list Download.chunk)
    (states : list Z) : Z :=
  foldr (fun c acc => doneBytes w states c + acc) 0 chunks.

(** The number of bytes the ranges of a list of chunks have. *)
Definition planBytes (chunks : list Download.chunk) : Z :=
  foldr (fun c acc => (Download.end_ c - Download.start c + 1) + acc) 0 chunks.

(** *** The counters of the progress bar *)

Module Render.

(** The four counters of [render]. *)
Record counts := { waiting : Z; downloading : Z; done : Z; failed : Z }.

(** Lines 119-131 of [render]: the states are counted, each under its
    own counter; a value that is none of the four states is passed over. *)
Definition countStates (chunkStates : list Z) : counts :=
  foldl (fun n st =>
           if st =? Download.stateWaiting then
             {| waiting := add64 (waiting n) 1; downloading := downloading n;
                done := done n; failed := failed n |}
           else if st =? Download.stateDownloading then
             {| waiting := waiting n; downloading := add64 (downloading n) 1;
                done := done n; failed := failed n |}
           else if st =? Download.stateDone then
             {| waiting := waiting n; downloading := downloading n;
                done := add64 (done n) 1; failed := failed n |}
           else if st =? Download.stateFailed then
             {| waiting := waiting n; downloading := downloading n;
                done := done n; failed := add64 (failed n) 1 |}
           else n)
        {| waiting := 0; downloading := 0; done := 0; failed := 0 |} chunkStates.

End Render.

(** The number of entries of [states] that are [x]. *)
Definition countOf (x : Z) (states : list Z) : Z :=
  Z.of_nat (length (filter (fun st => st = x) states)).

(** A pool with nothing to fetch: no chunk queued or held, nothing written,
    nothing counted, no error. *)
Definition idlePool (s : Download.pool) : Prop :=
  Download.chunkCh s = [] /\
  Forall (fun wk => held wk = []) (Download.workers s) /\
  Download.file s = [] /\ Download.chunkStates s = [] /\
  Download.downloaded s = 0 /\ Download.errCh s = [] /\
  Download.panicked s = false.

(** ** More of the upload library ([s3ops/upload.go]) *)

Module S3opsUpload.

(** The part loop of [UploadMultipartWithReader] (lines 356-405) and the
    completion call after it.  [reader len offset] is what
    [reader.ReadAt(buf, offset)] leaves in a fresh buffer of [len] bytes,
    and its error; [make([]byte, chunkSize)] panics for a negative
    length. *)
Fixpoint partLoop (fuel : nat) (svc : service)
    (reader : Z -> Z -> list byte * option error)
    (size partSize offset partNumber : Z)
    (completedParts : list completedPart) (tr : list event)
  : list event * outcome :=
  match fuel with
  | O => (tr, OutOfFuel)
  | S fuel' =>
      if offset <? size then
        let remaining := sub64 size offset in
        let chunkSize := if remaining <? partSize then remaining else partSize in
        if chunkSize <? 0 then (tr, Panicked) else
        let (buf, rerr) := reader chunkSize offset in
        let tr := tr ++ [EvRead offset chunkSize rerr] in
        match Upload.readFailed rerr with
        | Some e =>
            (tr ++ [EvAbort (abortMultipartUpload svc)],
             Returned (Some (EReadAt offset e)))
        | None =>
            let r := uploadPart svc (wrap32 partNumber) buf in
            let tr := tr ++ [EvUploadPart (wrap32 partNumber) buf r] in
            match r with
            | Err e =>
                (tr ++ [EvAbort (abortMultipartUpload svc)],
                 Returned (Some (EUploadPart partNumber e)))
            | Ok etag =>
                partLoop fuel' svc reader size partSize
                  (add64 offset chunkSize) (add64 partNumber 1)
                  (completedParts ++ [{| ETag := etag; PartNumber := wrap32 partNumber |}])
                  tr
            end
        end
      else
        let err := completeMultipartUpload svc completedParts in
        (tr ++ [EvComplete completedParts err],
         Returned (match err with
                   | Some e => Some (EWrap "failed to complete multipart upload" e)
                   | None => None
                   end))
  end.

Definition UploadMultipartWithReader (fuel : nat) (svc : service)
    (reader : Z -> Z -> list byte * option error) (size partSize : Z)
  : list event * outcome :=
  let r := createMultipartUpload svc in
  match r with
  | Err e =>
      ([EvCreate r], Returned (Some (EWrap "failed to start multipart upload" e)))
  | Ok _ => partLoop fuel svc reader size partSize 0 1 [] [EvCreate r]
  end.

(** The fields of [MultipartUploader] that its methods change or read;
    a nil [uploadID] is [None]. *)
Record MultipartUploader := {
  uploadID : option string;
  completedParts : list completedPart;
  partSize : Z;
  totalBytes : Z;
  uploadedBytes : Z }.

Definition NewMultipartUploader (partSize : Z) : MultipartUploader :=
  {| uploadID := None; completedParts := []; partSize := partSize;
     totalBytes := 0; uploadedBytes := 0 |}.

(** [Start]: the uploader afterwards and the error. *)
Definition Start (svc : service) (m : MultipartUploader)
  : MultipartUploader * option error :=
  match createMultipartUpload svc with
  | Err e => (m, Some (EWrap "failed to start multipart upload" e))
  | Ok id =>
      ({| uploadID := Some id; completedParts := completedParts m;
          partSize := partSize m; totalBytes := totalBytes m;
          uploadedBytes := uploadedBytes m |}, None)
  end.

(** [UploadPart]: the uploader afterwards and the error. *)
Definition UploadPart (svc : service) (m : MultipartUploader) (partNumber : Z)
    (data : list byte) : MultipartUploader * option error :=
  match uploadPart svc (wrap32 partNumber) data with
  | Err e => (m, Some (EUploadPart partNumber e))
  | Ok etag =>
      ({| uploadID := uploadID m;
          completedParts :=
            completedParts m ++ [{| ETag := etag; PartNumber := wrap32 partNumber |}];
          partSize := partSize m; totalBytes := totalBytes m;
          uploadedBytes := add64 (uploadedBytes m) (Z.of_nat (length data)) |}, None)
  end.

(** [Complete]: the part list sent is the one gathered so far. *)
Definition Complete (svc : service) (m : MultipartUploader) : option error :=
  match completeMultipartUpload svc (completedParts m) with
  | Some e => Some (EWrap "failed to complete multipart upload" e)
  | None => None
  end.

Definition Abort (svc : service) (m : MultipartUploader) : option error :=
  abortMultipartUpload svc.

End S3opsUpload.

(** The uploader after the calls [UploadPart(partNumber, data)] of a list,
    made in turn whatever each of them returns. *)
Definition uploadParts (svc : service) (m : S3opsUpload.MultipartUploader)
    (calls : list (Z * list byte)) : S3opsUpload.MultipartUploader :=
  foldl (fun m call => fst (S3opsUpload.UploadPart svc m call.1 call.2)) m calls.

(** The calls of a list that the service accepts, with the tag it gives. *)
Definition accepted (svc : service) (calls : list (Z * list byte))
  : list (Z * list byte * string) :=
  omap (fun call => match uploadPart svc (wrap32 call.1) call.2 with
                    | Ok etag => Some (call, etag)
                    | Err _ => None
                    end) calls.

(** ** Downloading an object in one stream ([s3ops.DownloadObject]) *)

Module S3opsDownload.

Record DownloadProgress := { TotalBytes : Z; DownloadedBytes : Z }.

(** What [GetObject] answers for the whole object: the length it
    announces, and what the successive calls of [resp.Body.Read(buf)]
    return, each as the bytes put into the buffer and the error. *)
Record objectStream := {
  ContentLength : option Z;
  reads : list (list byte * option error) }.

(** The output path: the file there before the call, if any; whether
    [os.Create] fails; and how many bytes of a write at an offset the disk
    takes. *)
Record disk := {
  existing : option (list byte);
  createErr : option error;
  takes : Z -> list byte -> nat }.

(** [f.Write(data)] on the file written so far: the file afterwards and
    the error.  A write the disk takes only part of leaves that part in
    the file and is an error. *)
Definition Write (d : disk) (f data : list byte) : list byte * option error :=
  let n := Nat.min (takes d (Z.of_nat (length f)) data) (length data) in
  (f ++ take n data, if (n <? length data)%nat then Some (EService "short write") else None).

(** The loop of [DownloadObject] (lines 38-58): the file, the calls of
    [progress] and how the loop ends.  The reads are taken from the list;
    the loop is still waiting for the body when the list gives out. *)
Fixpoint copyLoop (d : disk) (total : Z) (reads : list (list byte * option error))
    (f : list byte) (downloaded : Z) (progress : list DownloadProgress)
  : list byte * list DownloadProgress * outcome :=
  match reads with
  | [] => (f, progress, OutOfFuel)
  | (data, err) :: rest =>
      let '(f, werr) :=
        if (0 <? length data)%nat then Write d f data else (f, None) in
      match werr with
      | Some e => (f, progress, Returned (Some (EWrap "failed to write" e)))
      | None =>
          let downloaded :=
            if (0 <? length data)%nat
            then add64 downloaded (Z.of_nat (length data)) else downloaded in
          let progress :=
            if (0 <? length data)%nat
            then progress ++ [{| TotalBytes := total; DownloadedBytes := downloaded |}]
            else progress in
          match err with
          | Some EEOF => (f, progress, Returned None)
          | Some e => (f, progress, Returned (Some (EWrap "failed to read object" e)))
          | None => copyLoop d total rest f downloaded progress
          end
      end
  end.

(** [DownloadObject]: the file at the output path afterwards, the calls of
    [progress], and the outcome. *)
Definition DownloadObject (getObject : result objectStream) (d : disk)
  : option (list byte) * list DownloadProgress * outcome :=
  match getObject with
  | Err e => (existing d, [], Returned (Some (EWrap "failed to get object" e)))
  | Ok resp =>
      match createErr d with
      | Some e => (existing d, [], Returned (Some (EWrap "failed to create file" e)))
      | None =>
          let '(f, progress, out) :=
            copyLoop d (default 0 (ContentLength resp)) (reads resp) [] 0 [] in
          (Some f, progress, out)
      end
  end.

End S3opsDownload.

(** The totals reported while the bodies of a list are received one after
    the other, [acc] bytes being there already. *)
Fixpoint runningTotals (total acc : Z) (bodies : list (list byte))
  : list S3opsDownload.DownloadProgress :=
  match bodies with
  | [] => []
  | b :: bodies' =>
      {| S3opsDownload.TotalBytes := total;
         S3opsDownload.DownloadedBytes := wrap64 (acc + Z.of_nat (length b)) |}
      :: runningTotals total (acc + Z.of_nat (length b)) bodies'
  end.

(** The reads that brought at least one byte. *)
Definition nonEmpty (bodies : list (list byte)) : list (list byte) :=
  filter (fun b => b <> []) bodies.

(** ** Listing and deleting objects ([s3ops/delete.go]) *)

Module Aws.

(** [aws.ToString] and [aws.ToInt64]: a nil pointer is the empty string,
    or 0. *)
Definition ToString (p : option string) : string := default EmptyString p.
Definition ToInt64 (p : option Z) : Z := default 0 p.

End Aws.

Module S3opsList.

(** An entry of a page of [ListObjectsV2]: key and size, nil or not. *)
Record s3Object := { objKey : option string; objSize : option Z }.

(** The fields of [ObjectInfo] that [ListObjectsAll] fills from them. *)
Record ObjectInfo := { Name : string; Key : string; IsDir : bool; Size : Z }.

(** The loop over the pages of [ListObjectsAll] (lines 247-269): the
    entries of the pages in turn, until a page fails. *)
Fixpoint pagesLoop (pages : list (result (list s3Object))) (entries : list ObjectInfo)
  : result (list ObjectInfo) :=
  match pages with
  | [] => Ok entries
  | Err e :: _ => Err (EWrap "failed to list objects" e)
  | Ok page :: pages' =>
      pagesLoop pages'
        (entries ++ ((fun obj => {| Name := Aws.ToString (objKey obj);
                                    Key := Aws.ToString (objKey obj);
                                    IsDir := false;
                                    Size := Aws.ToInt64 (objSize obj) |}) <$> page))
  end.

(** [ListObjectsAll] (lines 234-272); [listObjectsV2 prefix] gives the
    pages the paginator brings for that prefix, each one or an error. *)
Definition ListObjectsAll (listObjectsV2 : string -> list (result (list s3Object)))
    (prefix : string) : result (list ObjectInfo) :=
  let prefix :=
    if negb (Strings.HasSuffix prefix "/") && negb (String.eqb prefix "")
    then (prefix ++ "/")%string else prefix in
  pagesLoop (listObjectsV2 prefix) [].

End S3opsList.

Module S3opsDelete.

Record DeleteResult := { Key : string; Deleted : bool; Error : option error }.

(** An entry of [resp.Errors]. *)
Record deleteError := {
  errKey : option string;
  errCode : option string;
  errMessage : option string }.

(** What the SDK's [DeleteObjects] answers: the keys it reports as
    deleted and the errors it reports. *)
Record deleteOutput := {
  respDeleted : list (option string);
  respErrors : list deleteError }.

(** [for i := range results { if results[i].Key == key { ...; break } }]:
    the first result with that key is changed. *)
Fixpoint markFirst (key : string) (mark : DeleteResult -> DeleteResult)
    (results : list DeleteResult) : list DeleteResult :=
  match results with
  | [] => []
  | r :: rest =>
      if String.eqb (Key r) key then mark r :: rest
      else r :: markFirst key mark rest
  end.

(** [DeleteObjects] (lines 29-78); [deleteObjects keys quiet] is the call
    of the service. *)
Definition DeleteObjects (deleteObjects : list string -> bool -> result deleteOutput)
    (keys : list string) (quiet : bool) : result (list DeleteResult) :=
  if (length keys =? 0)%nat then Ok [] else
  match deleteObjects keys quiet with
  | Err e => Err (EWrap "failed to delete objects" e)
  | Ok resp =>
      let results :=
        (fun key => {| Key := key; Deleted := true; Error := None |}) <$> keys in
      let results :=
        foldl (fun results d =>
                 markFirst (Aws.ToString d)
                   (fun r => {| Key := Key r; Deleted := true; Error := Error r |})
                   results)
          results (respDeleted resp) in
      let results :=
        foldl (fun results e =>
                 markFirst (Aws.ToString (errKey e))
                   (fun r => {| Key := Key r; Deleted := false;
                                Error := Some (EService (Aws.ToString (errCode e) ++ ": "
                                                           ++ Aws.ToString (errMessage e))) |})
                   results)
          results (respErrors resp) in
      Ok results
  end.

(** [hasSuffix] (lines 114-116). *)
Definition hasSuffix (s suffix : string) : bool :=
  (String.length suffix <=? String.length s)%nat
  && String.eqb (Strings.sliceFrom s (String.length s - String.length suffix)) suffix.

(** [DeletePrefix] (lines 80-112): the number of objects counted as
    deleted, and the error. *)
Definition DeletePrefix (listObjectsV2 : string -> list (result (list S3opsList.s3Object)))
    (deleteObjects : list string -> bool -> result deleteOutput)
    (prefix : string) : Z * option error :=
  let prefix :=
    if negb (String.eqb prefix "") && negb (hasSuffix prefix "/")
    then (prefix ++ "/")%string else prefix in
  match S3opsList.ListObjectsAll listObjectsV2 prefix with
  | Err e => (0, Some (EWrap "failed to list objects" e))
  | Ok objects =>
      if (length objects =? 0)%nat then (0, None) else
      let keys := S3opsList.Key <$> objects in
      match DeleteObjects deleteObjects keys true with
      | Err e => (0, Some e)
      | Ok results =>
          (foldl (fun deleted r => if Deleted r then add64 deleted 1 else deleted)
             0 results, None)
      end
  end.

End S3opsDelete.

(** The keys the errors of a response name. *)
Definition errorKeys (resp : S3opsDelete.deleteOutput) : list string :=
  (fun e => Aws.ToString (S3opsDelete.errKey e)) <$> S3opsDelete.respErrors resp.

(** The prefix that is listed for a prefix given: the same with a [/]
    at its end, unless it is empty or has one. *)
Definition withSlash (prefix : string) : string :=
  if String.eqb prefix "" then prefix
  else if S3opsDelete.hasSuffix prefix "/" then prefix
  else (prefix ++ "/")%string.

(** ** Content types ([guessContentTypeFromExt], [getContentType]) *)

Module Filepath.

(** The loop of [filepath.Ext], from the end of the path backwards: [rev]
    is what remains to be looked at, last byte first, and [seen] what
    follows it in the path. *)
Fixpoint scanExt (rev seen : list ascii) : string :=
  match rev with
  | [] => EmptyString
  | c :: rev' =>
      if Ascii.eqb c "/" then EmptyString
      else if Ascii.eqb c "." then string_of_list_ascii (c :: seen)
      else scanExt rev' (c :: seen)
  end.

(** [filepath.Ext] where the path separator is [/]: the last element of the
    path from its last dot on, or nothing. *)
Definition Ext (path : string) : string :=
  scanExt (reverse (list_ascii_of_string path)) [].

End Filepath.

Section ContentTypes.
(** [strings.Map(unicode.ToLower, s)], which [strings.ToLower] falls back
    on for a string that is not all ASCII. *)
Variable unicodeToLower : string -> string.

(** [strings.ToLower]: the letters A-Z of an ASCII string are lowered. *)
Definition ToLower (s : string) : string :=
  if forallb (fun c => (nat_of_ascii c <? 128)%nat) (list_ascii_of_string s) then
    string_of_list_ascii
      ((fun c => if ((65 <=? nat_of_ascii c) && (nat_of_ascii c <=? 90))%nat
                 then ascii_of_nat (nat_of_ascii c + 32) else c)
         <$> list_ascii_of_string s)
  else unicodeToLower s.

(** [guessContentTypeFromExt] (cmd/upload/run.go, lines 365-401). *)
Definition guessContentTypeFromExt (path : string) : string :=
  let ext := ToLower (Filepath.Ext path) in
  if String.eqb ext ".html" || String.eqb ext ".htm" then "text/html"
  else if String.eqb ext ".css" then "text/css"
  else if String.eqb ext ".js" then "application/javascript"
  else if String.eqb ext ".json" then "application/json"
  else if String.eqb ext ".xml" then "application/xml"
  else if String.eqb ext ".txt" then "text/plain"
  else if String.eqb ext ".jpg" || String.eqb ext ".jpeg" then "image/jpeg"
  else if String.eqb ext ".png" then "image/png"
  else if String.eqb ext ".gif" then "image/gif"
  else if String.eqb ext ".pdf" then "application/pdf"
  else if String.eqb ext ".zip" then "application/zip"
  else if String.eqb ext ".tar" then "application/x-tar"
  else if String.eqb ext ".gz" || String.eqb ext ".tgz" then "application/gzip"
  else if String.eqb ext ".svg" then "image/svg+xml"
  else if String.eqb ext ".ico" then "image/x-icon"
  else "application/octet-stream".

(** [getContentType] (s3ops/upload.go, lines 302-334). *)
Definition getContentType (path : string) : string :=
  let ext := ToLower (Filepath.Ext path) in
  if String.eqb ext ".html" || String.eqb ext ".htm" then "text/html"
  else if String.eqb ext ".css" then "text/css"
  else if String.eqb ext ".js" then "application/javascript"
  else if String.eqb ext ".json" then "application/json"
  else if String.eqb ext ".xml" then "application/xml"
  else if String.eqb ext ".txt" then "text/plain"
  else if String.eqb ext ".jpg" || String.eqb ext ".jpeg" then "image/jpeg"
  else if String.eqb ext ".png" then "image/png"
  else if String.eqb ext ".gif" then "image/gif"
  else if String.eqb ext ".pdf" then "application/pdf"
  else if String.eqb ext ".zip" then "application/zip"
  else if String.eqb ext ".tar" then "application/x-tar"
  else if String.eqb ext ".gz" || String.eqb ext ".tgz" then "application/gzip"
  else "application/octet-stream".

End ContentTypes.

(** * Theorems *)

(** C9: [ObjectExists] and [BucketExists] never return an error: whatever
    the underlying head call answers, the error component is nil, and a
    failed head call is reported as (false, nil). *)
Theorem exists_probes_swallow_errors :
  forall (HeadObject : string -> string -> result S3ops.headOutput)
         (HeadBucket : string -> result unit) (bucket key : string),
    snd (S3ops.ObjectExists HeadObject bucket key) = None /\
    snd (S3ops.BucketExists HeadBucket bucket) = None /\
    (forall e, HeadObject bucket key = Err e ->
               S3ops.ObjectExists HeadObject bucket key = (false, None)) /\
    (forall e, HeadBucket bucket = Err e ->
               S3ops.BucketExists HeadBucket bucket = (false, None)).
Proof.
  intros HO HB bucket key. unfold S3ops.ObjectExists, S3ops.BucketExists.
  repeat split.
  - destruct (HO bucket key); reflexivity.
  - destruct (HB bucket); reflexivity.
  - intros e ->. reflexivity.
  - intros e ->. reflexivity.
Qed.

(** ** The client factory *)

Lemma string_append_assoc (a b c : string) :
  ((a ++ b) ++ c)%string = (a ++ (b ++ c))%string.
Proof.
  induction a as [|x a IH]; [reflexivity|].
  change (String x ((a ++ b) ++ c) = String x (a ++ (b ++ c)))%string.
  now rewrite IH.
Qed.

(** C10: [GetClientWithOptions] files the client under the key
    profile|region|endpoint|custom, whatever [ClientOption]s it is given.
    Once a call has returned a client, a second call with the same
    [config.Options] and any other option list returns that very client and
    leaves the cache as it is; when the key was free before the first call,
    the client is the one built from the first call's options. *)
Theorem get_client_with_options_ignores_options :
  forall (Load : S3client.Options -> result string) (f f1 : S3client.Factory)
         (opts : S3client.Options) (clientOpts1 clientOpts2 : list S3client.ClientOption)
         (c1 : S3client.Client),
    S3client.GetClientWithOptions Load f opts clientOpts1 = (f1, Ok c1) ->
    S3client.GetClientWithOptions Load f1 opts clientOpts2 = (f1, Ok c1) /\
    S3client.clients f1 !!
      (S3client.Profile opts ++ "|" ++ S3client.Region opts ++ "|"
         ++ S3client.Endpoint opts ++ "|custom")%string = Some c1 /\
    (S3client.clients f !! (S3client.cacheKey opts ++ "|custom")%string = None ->
     exists awsCfg, Load opts = Ok awsCfg /\
                    c1 = S3client.NewFromConfig awsCfg clientOpts1).
Proof.
  intros Load f f1 opts co1 co2 c1 H.
  assert (Hkey : (S3client.Profile opts ++ "|" ++ S3client.Region opts ++ "|"
                    ++ S3client.Endpoint opts ++ "|custom")%string
                 = (S3client.cacheKey opts ++ "|custom")%string).
  { unfold S3client.cacheKey.
    rewrite !string_append_assoc. reflexivity. }
  rewrite Hkey. clear Hkey.
  unfold S3client.GetClientWithOptions in *.
  destruct (S3client.clients f !! _) as [c|] eqn:Hc.
  - inversion H; subst. rewrite Hc. split; [reflexivity|]. split; [reflexivity|].
    intros; discriminate.
  - destruct (Load opts) as [cfg|e] eqn:HL; [|discriminate].
    inversion H; subst; clear H. simpl.
    rewrite lookup_insert_eq. split; [reflexivity|]. split; [reflexivity|].
    intros _. exists cfg. split; reflexivity.
Qed.

Lemma get_client_with_options_ignores_options_witness :
  let Load := fun _ : S3client.Options => Ok "cfg"%string in
  let opts := {| S3client.Region := "eu"; S3client.Profile := "p";
                 S3client.Endpoint := "" |} in
  let c1 := S3client.NewFromConfig "cfg" [S3client.WithPathStyle true] in
  let f1 := {| S3client.clients := <[ "p|eu||custom"%string := c1 ]> ∅ |} in
  S3client.GetClientWithOptions Load S3client.NewFactory opts
    [S3client.WithPathStyle true] = (f1, Ok c1) /\
  S3client.GetClientWithOptions Load f1 opts [S3client.WithAccelerate true]
    = (f1, Ok c1) /\
  S3client.UsePathStyle (S3client.clientOptions c1) = true /\
  S3client.UseAccelerate (S3client.clientOptions c1) = false.
Proof.
  intros Load opts c1 f1.
  assert (H : S3client.GetClientWithOptions Load S3client.NewFactory opts
                [S3client.WithPathStyle true] = (f1, Ok c1)) by reflexivity.
  split; [exact H|].
  split; [|split; reflexivity].
  exact (proj1 (get_client_with_options_ignores_options Load S3client.NewFactory
                  f1 opts [S3client.WithPathStyle true]
                  [S3client.WithAccelerate true] c1 H)).
Defined.

(** ** Machine arithmetic *)

Lemma wrap64_id (z : Z) : in_int64 z -> wrap64 z = z.
Proof.
  unfold in_int64, min_int64, max_int64, wrap64. intros H.
  rewrite Z.mod_small; lia.
Qed.

Lemma wrap64_range (z : Z) : in_int64 (wrap64 z).
Proof.
  unfold in_int64, min_int64, max_int64, wrap64.
  pose proof (Z.mod_pos_bound (z + 2 ^ 63) (2 ^ 64) ltac:(lia)). lia.
Qed.

Lemma ceil_div_bounds (a b : Z) :
  0 <= a -> 0 < b ->
  0 <= ceil_div a b /\ a <= ceil_div a b * b < a + b.
Proof.
  intros Ha Hb. unfold ceil_div.
  pose proof (Z.div_mod (a + b - 1) b ltac:(lia)) as Hdm.
  pose proof (Z.mod_pos_bound (a + b - 1) b Hb) as Hm.
  assert (0 <= (a + b - 1) / b) by (apply Z.div_pos; lia).
  split; [assumption|]. nia.
Qed.

Lemma ceil_div_zero (b : Z) : 0 < b -> ceil_div 0 b = 0.
Proof. intros Hb. unfold ceil_div. apply Z.div_small. lia. Qed.

(** ** The chunk planner *)

Section PlannerInRange.
Variables totalSize chunkSize : Z.
Hypothesis Htotal : 0 <= totalSize.
Hypothesis Hsize : 0 < chunkSize.
Hypothesis Hrange : ceil_div totalSize chunkSize * chunkSize <= max_int64.

Let n : Z := ceil_div totalSize chunkSize.

Lemma planLoop_exact (m : nat) :
  forall (k : nat) (acc : list Download.chunk) (fuel : nat),
    (k + m = Z.to_nat n)%nat -> length acc = k -> (m < fuel)%nat ->
    Download.planLoop fuel totalSize chunkSize (Z.of_nat k * chunkSize) acc
    = Some (acc ++ (nice_chunk totalSize chunkSize <$> seq k m)).
Proof.
  pose proof (ceil_div_bounds totalSize chunkSize Htotal Hsize) as [Hn0 Hn].
  fold n in Hn0, Hn. assert (Hr : n * chunkSize <= max_int64) by exact Hrange.
  unfold max_int64 in Hr.
  induction m as [|m IH]; intros k acc fuel Hk Hacc Hfuel.
  - destruct fuel as [|fuel]; [lia|]. simpl.
    assert (Z.of_nat k = n) by lia.
    destruct (Z.ltb_spec (Z.of_nat k * chunkSize) totalSize) as [Hlt|Hge]; [nia|].
    now rewrite app_nil_r.
  - destruct fuel as [|fuel]; [lia|]. simpl.
    assert (Hkn : Z.of_nat k + 1 <= n) by lia.
    assert (Hlt : Z.of_nat k * chunkSize < totalSize) by nia.
    destruct (Z.ltb_spec (Z.of_nat k * chunkSize) totalSize) as [_|Hge]; [|lia].
    assert (Hnext : (Z.of_nat k + 1) * chunkSize <= n * chunkSize) by nia.
    unfold add64, sub64.
    rewrite (wrap64_id (Z.of_nat k * chunkSize + chunkSize))
      by (unfold in_int64, min_int64, max_int64; nia).
    rewrite (wrap64_id (Z.of_nat k * chunkSize + chunkSize - 1))
      by (unfold in_int64, min_int64, max_int64; nia).
    rewrite (wrap64_id (totalSize - 1))
      by (unfold in_int64, min_int64, max_int64; nia).
    replace (Z.of_nat k * chunkSize + chunkSize) with (Z.of_nat (S k) * chunkSize) by lia.
    rewrite (IH (S k)); [| lia | rewrite length_app; simpl; lia | lia].
    rewrite <- app_assoc. simpl. do 3 f_equal.
    unfold nice_chunk. rewrite Hacc. f_equal.
    destruct (Z.geb_spec (Z.of_nat (S k) * chunkSize - 1) totalSize) as [Hc|Hc]; lia.
Qed.

Lemma planChunks_exact (fuel : nat) :
  (Z.to_nat n < fuel)%nat ->
  Download.planChunks fuel totalSize chunkSize
  = Some (nice_chunk totalSize chunkSize <$> seq 0 (Z.to_nat n)).
Proof.
  intros Hfuel. unfold Download.planChunks.
  change 0 with (Z.of_nat 0 * chunkSize).
  now rewrite (planLoop_exact (Z.to_nat n) 0%nat [] fuel).
Qed.

End PlannerInRange.

(** C1 (amended): for every totalSize >= 0 and chunkSize > 0 such that
    ceil(totalSize / chunkSize) * chunkSize fits in an int64, the planning
    loop ends and yields pieces whose indexes are their positions, that
    are ordered and pairwise disjoint, whose union is exactly
    [0, totalSize), whose number is ceil(totalSize / chunkSize), whose last
    one has length totalSize - (count - 1) * chunkSize, and none at all
    when totalSize = 0. *)
Theorem planner_partition :
  forall totalSize chunkSize : Z,
    0 <= totalSize -> 0 < chunkSize ->
    ceil_div totalSize chunkSize * chunkSize <= max_int64 ->
    exists chunks : list Download.chunk,
      (forall fuel, (Z.to_nat (ceil_div totalSize chunkSize) < fuel)%nat ->
                    Download.planChunks fuel totalSize chunkSize = Some chunks) /\
      Z.of_nat (length chunks) = ceil_div totalSize chunkSize /\
      (forall (k : nat) c, chunks !! k = Some c ->
         Download.index c = Z.of_nat k /\
         Download.start c = Z.of_nat k * chunkSize /\
         Download.start c <= Download.end_ c) /\
      (forall (j k : nat) c c', chunks !! j = Some c -> chunks !! k = Some c' ->
         (j < k)%nat ->
         Download.index c < Download.index c' /\
         Download.end_ c < Download.start c') /\
      (forall b, 0 <= b < totalSize <->
         exists c, c ∈ chunks /\ Download.start c <= b <= Download.end_ c) /\
      (forall c, last chunks = Some c ->
         Download.end_ c - Download.start c + 1
         = totalSize - (ceil_div totalSize chunkSize - 1) * chunkSize) /\
      (totalSize = 0 -> chunks = []).
Proof.
  intros totalSize chunkSize Htotal Hsize Hrange.
  pose proof (ceil_div_bounds totalSize chunkSize Htotal Hsize) as [Hn0 Hn].
  set (n := ceil_div totalSize chunkSize) in *.
  exists (nice_chunk totalSize chunkSize <$> seq 0 (Z.to_nat n)).
  assert (Hlook : forall (k : nat) c,
             (nice_chunk totalSize chunkSize <$> seq 0 (Z.to_nat n)) !! k = Some c ->
             (Z.of_nat k < n) /\ c = nice_chunk totalSize chunkSize k).
  { intros k c Hk. rewrite list_lookup_fmap in Hk.
    destruct (seq 0 (Z.to_nat n) !! k) as [j|] eqn:Hj; [|discriminate].
    apply lookup_seq in Hj as [-> Hlt]. simpl in Hk. inversion Hk. split; [lia|reflexivity]. }
  split; [|split; [|split; [|split; [|split; [|split]]]]].
  - intros fuel Hfuel. now apply planChunks_exact.
  - rewrite length_fmap, length_seq. lia.
  - intros k c Hk. apply Hlook in Hk as [Hlt ->]. simpl.
    split; [reflexivity|]. split; [reflexivity|]. nia.
  - intros j k c c' Hj Hk Hjk.
    apply Hlook in Hj as [Hj ->]. apply Hlook in Hk as [Hk ->]. simpl.
    split; [lia|]. nia.
  - intros b. split.
    + intros Hb.
      pose proof (Z.div_mod b chunkSize ltac:(lia)) as Hdm.
      pose proof (Z.mod_pos_bound b chunkSize Hsize) as Hm.
      assert (Hq0 : 0 <= b / chunkSize) by (apply Z.div_pos; lia).
      assert (Hqn : b / chunkSize < n) by nia.
      exists (nice_chunk totalSize chunkSize (Z.to_nat (b / chunkSize))).
      split.
      * apply list_elem_of_fmap. exists (Z.to_nat (b / chunkSize)).
        split; [reflexivity|]. apply elem_of_seq. lia.
      * simpl. rewrite Z2Nat.id by lia. nia.
    + intros (c & Hc & Hb).
      apply list_elem_of_lookup in Hc as [k Hk].
      apply Hlook in Hk as [Hk ->]. simpl in Hb. nia.
  - intros c Hc. rewrite last_lookup in Hc.
    apply Hlook in Hc as [Hk ->]. simpl.
    rewrite length_fmap, length_seq in *.
    assert (Z.of_nat (Init.Nat.pred (Z.to_nat n)) = n - 1) by lia. nia.
  - intros ->. unfold n. rewrite ceil_div_zero by assumption. reflexivity.
Qed.

Lemma planner_partition_witness :
  exists chunks : list Download.chunk,
    Download.planChunks 4 25 10 = Some chunks /\
    Z.of_nat (length chunks) = 3 /\
    (forall b, 0 <= b < 25 <->
       exists c, c ∈ chunks /\ Download.start c <= b <= Download.end_ c).
Proof.
  destruct (planner_partition 25 10) as (chunks & Hrun & Hlen & _ & _ & Hcover & _).
  - lia.
  - lia.
  - vm_compute. discriminate.
  - exists chunks. split; [apply Hrun; vm_compute; lia|]. split; [exact Hlen | exact Hcover].
Defined.

(** C1, as stated, fails once the loop's additions leave the int64 range:
    for an object of 2^62 + 2^20 + 1 bytes and a chunk size of
    (2^42 + 1) MiB the loop variable wraps around, and the loop ends with
    five pieces instead of two, the second of which ends below zero. *)
Lemma planner_overflow_counterexample :
  let totalSize := 2 ^ 62 + 2 ^ 20 + 1 in
  let chunkSize := mul64 (mul64 (2 ^ 42 + 1) 1024) 1024 in
  0 <= totalSize <= max_int64 /\ 0 < chunkSize <= max_int64 /\
  ceil_div totalSize chunkSize = 2 /\
  exists chunks,
    Download.planChunks 6 totalSize chunkSize = Some chunks /\
    length chunks = 5%nat /\
    chunks !! 1%nat = Some {| Download.index := 1; Download.start := 2 ^ 62 + 2 ^ 20;
                              Download.end_ := - 2 ^ 63 + 2 ^ 21 - 1 |}.
Proof.
  vm_compute. repeat split; try discriminate.
  eexists. repeat split.
Qed.

(** ** Multipart upload: traces *)

Lemma aborts_app (t1 t2 : list event) : aborts (t1 ++ t2) = (aborts t1 + aborts t2)%nat.
Proof. unfold aborts. now rewrite filter_app, length_app. Qed.

Lemma completions_app (t1 t2 : list event) :
  completions (t1 ++ t2) = completions t1 ++ completions t2.
Proof. unfold completions. apply omap_app. Qed.

Lemma uploads_app (t1 t2 : list event) : uploads (t1 ++ t2) = uploads t1 ++ uploads t2.
Proof. unfold uploads. apply omap_app. Qed.

Lemma quiet_snoc failed tr ev :
  quiet failed tr -> failed ev = false -> isAbort ev = false -> isComplete ev = false ->
  quiet failed (tr ++ [ev]).
Proof.
  intros Hq Hf Ha Hc. apply Forall_app. split; [exact Hq|].
  constructor; [auto | constructor].
Qed.

Lemma quiet_aborts failed tr : quiet failed tr -> aborts tr = 0%nat.
Proof.
  unfold aborts. induction 1 as [|ev tr (_ & Ha & _) _ IH]; [reflexivity|].
  rewrite filter_cons. destruct (decide (isAbort ev = true)); [congruence | exact IH].
Qed.

Lemma quiet_completions failed tr : quiet failed tr -> completions tr = [].
Proof.
  unfold completions. induction 1 as [|ev tr (_ & _ & Hc) _ IH]; [reflexivity|].
  destruct ev; simpl in *; solve [exact IH | congruence].
Qed.

Lemma quiet_not_failed failed tr :
  quiet failed tr -> ~ Exists (fun ev => failed ev = true) tr.
Proof.
  intros Hq Hex. apply Exists_exists in Hex as (ev & Hin & Hf).
  unfold quiet in Hq. rewrite Forall_forall in Hq.
  destruct (Hq ev Hin) as (Hnf & _). congruence.
Qed.

Lemma exists_failed_snoc failed tr ev :
  quiet failed tr -> Exists (fun ev => failed ev = true) (tr ++ [ev]) -> failed ev = true.
Proof.
  intros Hq Hex. apply Exists_app in Hex as [Hex|Hex].
  - now apply quiet_not_failed in Hex.
  - inversion Hex as [? ? H|? ? H]; [exact H | inversion H].
Qed.

Lemma gaveUp_upload svc wrapRead readFails failed tr ev1 pn body e :
  quiet failed tr -> isAbort ev1 = false -> isComplete ev1 = false ->
  uploadPart svc (wrap32 pn) body = Err e ->
  gaveUp svc wrapRead readFails
    (((tr ++ [ev1]) ++ [EvUploadPart (wrap32 pn) body (Err e)])
       ++ [EvAbort (abortMultipartUpload svc)])
    (Returned (Some (EUploadPart pn e))).
Proof.
  intros Hq Ha Hc He. unfold gaveUp.
  rewrite !aborts_app, !completions_app, (quiet_aborts _ _ Hq), (quiet_completions _ _ Hq).
  rewrite last_snoc.
  split; [|split; [|split; [reflexivity|]]].
  - unfold aborts. rewrite !filter_cons, !filter_nil.
    destruct (decide (isAbort ev1 = true)); [congruence|]. reflexivity.
  - destruct ev1; simpl in *; congruence.
  - left. exists pn, body, e. split; [|auto].
    apply elem_of_app. left. apply elem_of_app. right. apply list_elem_of_singleton. reflexivity.
Qed.

Lemma gaveUp_read svc wrapRead readFails failed tr off len e :
  quiet failed tr ->
  readFails (EvRead off len (Some e)) = true ->
  gaveUp svc wrapRead readFails
    ((tr ++ [EvRead off len (Some e)]) ++ [EvAbort (abortMultipartUpload svc)])
    (Returned (Some (wrapRead off e))).
Proof.
  intros Hq Hf. unfold gaveUp.
  rewrite !aborts_app, !completions_app, (quiet_aborts _ _ Hq), (quiet_completions _ _ Hq).
  rewrite last_snoc.
  split; [reflexivity|]. split; [reflexivity|]. split; [reflexivity|].
  right. exists off, len, e. split; [|auto].
  apply elem_of_app. left. apply elem_of_app. right. apply list_elem_of_singleton. reflexivity.
Qed.

Lemma cmd_partLoop_failure (svc : service) (file : localFile) (totalSize ps : Z) :
  forall (fuel : nat) (off pn : Z) (parts : list completedPart) (tr T : list event)
         (out : outcome),
    quiet failedCmd tr ->
    Upload.partLoop fuel svc file totalSize ps off pn parts tr = (T, out) ->
    Exists (fun ev => failedCmd ev = true) T ->
    gaveUp svc EReadAt readFailedCmd T out.
Proof.
  induction fuel as [|fuel IH]; intros off pn parts tr T out Hq Hrun Hex; simpl in Hrun.
  - inversion Hrun; subst. now apply quiet_not_failed in Hex.
  - destruct (off <? totalSize).
    + destruct (fileReadAt file _ off) as [buf rerr] eqn:Hread.
      destruct (Upload.readFailed rerr) as [e|] eqn:Hrf.
      * inversion Hrun; subst; clear Hrun.
        assert (rerr = Some e /\ e <> EEOF) as [-> Hne].
        { destruct rerr as [[]|]; simpl in Hrf; inversion Hrf; split; congruence. }
        eapply gaveUp_read; [exact Hq|]. destruct e; simpl; congruence.
      * assert (Hrq : failedCmd (EvRead off (if sub64 totalSize off <? ps
                                              then sub64 totalSize off else ps) rerr) = false).
        { destruct rerr as [[]|]; simpl in Hrf; try discriminate; reflexivity. }
        destruct (uploadPart svc (wrap32 pn) buf) as [etag|e] eqn:Hup.
        -- eapply IH; [|exact Hrun|exact Hex].
           apply quiet_snoc; [apply quiet_snoc| | |]; auto.
        -- inversion Hrun; subst; clear Hrun.
           eapply gaveUp_upload; eauto.
    + inversion Hrun; subst; clear Hrun.
      apply exists_failed_snoc in Hex; [discriminate | exact Hq].
Qed.

Lemma lib_partLoop_failure (svc : service) (file : localFile) (totalSize ps : Z) :
  forall (fuel : nat) (off pn pos : Z) (parts : list completedPart) (tr T : list event)
         (out : outcome),
    quiet failedLib tr ->
    S3ops.partLoop fuel svc file totalSize ps off pn pos parts tr = (T, out) ->
    Exists (fun ev => failedLib ev = true) T ->
    gaveUp svc (fun _ e => EWrap "failed to read file" e) readFailedLib T out.
Proof.
  induction fuel as [|fuel IH]; intros off pn pos parts tr T out Hq Hrun Hex; simpl in Hrun.
  - inversion Hrun; subst. now apply quiet_not_failed in Hex.
  - destruct (off <? totalSize).
    + destruct (_ <? 0).
      { inversion Hrun; subst. now apply quiet_not_failed in Hex. }
      destruct (fileRead file _ pos) as [[buf n] [e|]] eqn:Hread.
      * inversion Hrun; subst; clear Hrun.
        apply (gaveUp_read svc (fun _ e => EWrap "failed to read file" e)
                 readFailedLib failedLib); [exact Hq | reflexivity].
      * destruct (uploadPart svc (wrap32 pn) buf) as [etag|e] eqn:Hup.
        -- eapply IH; [|exact Hrun|exact Hex].
           apply quiet_snoc; [apply quiet_snoc| | |]; auto.
        -- inversion Hrun; subst; clear Hrun.
           eapply gaveUp_upload; eauto.
    + inversion Hrun; subst; clear Hrun.
      apply exists_failed_snoc in Hex; [discriminate | exact Hq].
Qed.

(** The answer of [AbortMultipartUpload] reaches the trace and nothing else. *)
Lemma cmd_partLoop_abort_irrelevant (a : option error) (svc : service)
    (file : localFile) (totalSize ps : Z) :
  forall (fuel : nat) (off pn : Z) (parts : list completedPart) (tr tr' : list event),
    snd (Upload.partLoop fuel (withAbort a svc) file totalSize ps off pn parts tr)
    = snd (Upload.partLoop fuel svc file totalSize ps off pn parts tr').
Proof.
  induction fuel as [|fuel IH]; intros off pn parts tr tr'; simpl; [reflexivity|].
  destruct (off <? totalSize); [|reflexivity].
  destruct (fileReadAt file _ off) as [buf rerr].
  destruct (Upload.readFailed rerr); [reflexivity|].
  destruct (uploadPart svc (wrap32 pn) buf); [apply IH | reflexivity].
Qed.

Lemma lib_partLoop_abort_irrelevant (a : option error) (svc : service)
    (file : localFile) (totalSize ps : Z) :
  forall (fuel : nat) (off pn pos : Z) (parts : list completedPart) (tr tr' : list event),
    snd (S3ops.partLoop fuel (withAbort a svc) file totalSize ps off pn pos parts tr)
    = snd (S3ops.partLoop fuel svc file totalSize ps off pn pos parts tr').
Proof.
  induction fuel as [|fuel IH]; intros off pn pos parts tr tr'; simpl; [reflexivity|].
  destruct (off <? totalSize); [|reflexivity].
  destruct (_ <? 0); [reflexivity|].
  destruct (fileRead file _ pos) as [[buf n] [e|]]; [reflexivity|].
  destruct (uploadPart svc (wrap32 pn) buf); [apply IH | reflexivity].
Qed.

(** C3: in a multipart upload in which a part upload fails, or the read
    that feeds it, [AbortMultipartUpload] is called exactly once (as the
    last call), [CompleteMultipartUpload] is never called, the error
    returned is the one of the part upload or of the read, wrapped, and the
    answer of the abort call has no influence on what is returned.  This
    holds of the command's [uploadMultipart], for which [io.EOF] is no read
    failure, and of the library's [UploadMultipart]. *)
Theorem multipart_failure_aborts_once :
  forall (fuel : nat) (svc : service) (file : localFile) (partSize : Z)
         (T : list event) (out : outcome),
    (Upload.uploadMultipart fuel svc file partSize = (T, out) ->
     Exists (fun ev => failedCmd ev = true) T ->
     gaveUp svc EReadAt readFailedCmd T out /\
     forall a, snd (Upload.uploadMultipart fuel (withAbort a svc) file partSize) = out) /\
    (S3ops.UploadMultipart fuel svc file partSize = (T, out) ->
     Exists (fun ev => failedLib ev = true) T ->
     gaveUp svc (fun _ e => EWrap "failed to read file" e) readFailedLib T out /\
     forall a, snd (S3ops.UploadMultipart fuel (withAbort a svc) file partSize) = out).
Proof.
  intros fuel svc file partSize T out. split.
  - intros Hrun Hex. split.
    + unfold Upload.uploadMultipart in Hrun.
      destruct (openErr file); [inversion Hrun; subst; inversion Hex|].
      destruct (statErr file); [inversion Hrun; subst; inversion Hex|].
      destruct (createMultipartUpload svc) as [id|e] eqn:Hc.
      * eapply cmd_partLoop_failure; [|exact Hrun|exact Hex].
        constructor; [auto | constructor].
      * inversion Hrun; subst. inversion Hex as [? ? H|? ? H]; [discriminate | inversion H].
    + intros a. change out with (snd (T, out)). rewrite <- Hrun.
      unfold Upload.uploadMultipart. simpl.
      destruct (openErr file); [reflexivity|].
      destruct (statErr file); [reflexivity|].
      destruct (createMultipartUpload svc); [|reflexivity].
      apply cmd_partLoop_abort_irrelevant.
  - intros Hrun Hex. split.
    + unfold S3ops.UploadMultipart in Hrun.
      destruct (openErr file); [inversion Hrun; subst; inversion Hex|].
      destruct (statErr file); [inversion Hrun; subst; inversion Hex|].
      destruct (createMultipartUpload svc) as [id|e] eqn:Hc.
      * eapply lib_partLoop_failure; [|exact Hrun|exact Hex].
        constructor; [auto | constructor].
      * inversion Hrun; subst. inversion Hex as [? ? H|? ? H]; [discriminate | inversion H].
    + intros a. change out with (snd (T, out)). rewrite <- Hrun.
      unfold S3ops.UploadMultipart. simpl.
      destruct (openErr file); [reflexivity|].
      destruct (statErr file); [reflexivity|].
      destruct (createMultipartUpload svc); [|reflexivity].
      apply lib_partLoop_abort_irrelevant.
Qed.

Lemma multipart_failure_aborts_once_witness :
  exists T : list event,
    Upload.uploadMultipart 5 refusingService exampleFile 1
    = (T, Returned (Some (EUploadPart 2 (EService "part refused")))) /\
    Exists (fun ev => failedCmd ev = true) T /\
    aborts T = 1%nat /\ completions T = [] /\
    snd (Upload.uploadMultipart 5 (withAbort None refusingService) exampleFile 1)
    = Returned (Some (EUploadPart 2 (EService "part refused"))).
Proof.
  set (out := Returned (Some (EUploadPart 2 (EService "part refused")))).
  set (T := [EvCreate (Ok "upload-id"%string);
             EvRead 0 1 None; EvUploadPart 1 [x61] (Ok "etag"%string);
             EvRead 1 1 None; EvUploadPart 2 [x62] (Err (EService "part refused"));
             EvAbort (Some (EService "abort failed"))]).
  assert (Hrun : Upload.uploadMultipart 5 refusingService exampleFile 1 = (T, out))
    by (vm_compute; reflexivity).
  assert (Hex : Exists (fun ev => failedCmd ev = true) T)
    by (do 4 apply Exists_cons_tl; apply Exists_cons_hd; reflexivity).
  destruct (proj1 (multipart_failure_aborts_once 5 refusingService exampleFile 1 T out)
              Hrun Hex) as [(Ha & Hc & _) Hirr].
  exists T. split; [exact Hrun|]. split; [exact Hex|]. split; [exact Ha|].
  split; [exact Hc|]. apply Hirr.
Defined.

(** ** Multipart upload: sessions that go through *)

Lemma wrap64_congr (x : Z) : exists k, wrap64 x = x + k * 2 ^ 64.
Proof.
  unfold wrap64. exists (- ((x + 2 ^ 63) / 2 ^ 64)).
  pose proof (Z.div_mod (x + 2 ^ 63) (2 ^ 64) ltac:(lia)). lia.
Qed.

Lemma wrap64_add_l (a b : Z) : wrap64 (wrap64 a + b) = wrap64 (a + b).
Proof.
  destruct (wrap64_congr a) as [k ->]. unfold wrap64.
  replace (a + k * 2 ^ 64 + b + 2 ^ 63) with (a + b + 2 ^ 63 + k * 2 ^ 64) by lia.
  now rewrite Z.mod_add by lia.
Qed.

Lemma wrap32_wrap64 (x : Z) : wrap32 (wrap64 x) = wrap32 x.
Proof.
  destruct (wrap64_congr x) as [k ->]. unfold wrap32.
  replace (x + k * 2 ^ 64 + 2 ^ 31) with (x + 2 ^ 31 + (k * 2 ^ 32) * 2 ^ 32) by lia.
  now rewrite Z.mod_add by lia.
Qed.

Lemma wrap32_id (z : Z) : - 2 ^ 31 <= z <= 2 ^ 31 - 1 -> wrap32 z = z.
Proof. intros H. unfold wrap32. rewrite Z.mod_small; lia. Qed.

Lemma fileReadAt_ok (file : localFile) (cs off : Z) (buf : list byte) :
  fileReadAt file cs off = (buf, None) ->
  0 <= off -> 0 <= cs -> off + cs <= fileSize file ->
  buf = take (Z.to_nat cs) (drop (Z.to_nat off) (contents file)).
Proof.
  unfold fileReadAt, fileSize. intros H Hoff Hcs Hle.
  destruct (readFault file off); [discriminate|].
  assert (Hlen : length (take (Z.to_nat cs) (drop (Z.to_nat off) (contents file)))
                 = Z.to_nat cs).
  { rewrite length_take, length_drop. lia. }
  rewrite Hlen in H. inversion H as [[Hb He]].
  rewrite Nat.sub_diag. simpl. now rewrite app_nil_r.
Qed.

Lemma fileRead_ok (file : localFile) (cs pos n : Z) (buf : list byte) :
  fileRead file cs pos = (buf, n, None) ->
  0 <= pos -> 0 <= cs -> pos + cs <= fileSize file ->
  buf = take (Z.to_nat cs) (drop (Z.to_nat pos) (contents file)) /\ n = cs.
Proof.
  unfold fileRead, fileSize. intros H Hpos Hcs Hle.
  destruct (Z.eqb_spec cs 0) as [->|Hne].
  { inversion H. split; reflexivity. }
  destruct (readFault file pos); [discriminate|].
  assert (Hlen : length (take (Z.to_nat cs) (drop (Z.to_nat pos) (contents file)))
                 = Z.to_nat cs).
  { rewrite length_take, length_drop. lia. }
  destruct (take (Z.to_nat cs) (drop (Z.to_nat pos) (contents file))) as [|b got] eqn:Hgot.
  { discriminate. }
  rewrite Hlen, Nat.sub_diag in H. simpl in H. rewrite app_nil_r in H.
  inversion H as [[Hb Hn]]. split; [reflexivity | lia].
Qed.

Lemma sessionInv_step (svc : service) (file : localFile) (ps off pn cs : Z)
    (parts : list completedPart) (tr : list event) (rerr : option error)
    (rd : Z) (etag : string) :
  sessionInv svc file ps off pn parts tr ->
  0 <= cs -> cs <= ps -> off + cs <= fileSize file ->
  uploadPart svc (wrap32 pn)
    (take (Z.to_nat cs) (drop (Z.to_nat off) (contents file))) = Ok etag ->
  sessionInv svc file ps (off + cs) (add64 pn 1)
    (parts ++ [{| ETag := etag; PartNumber := wrap32 pn |}])
    ((tr ++ [EvRead rd cs rerr])
       ++ [EvUploadPart (wrap32 pn)
             (take (Z.to_nat cs) (drop (Z.to_nat off) (contents file))) (Ok etag)]).
Proof.
  intros (Hc & Ha & Hm & Hpn & Hn & Hoff & Hcat & Hlen) Hcs Hps Hle Hup.
  unfold sessionInv.
  rewrite !completions_app, !aborts_app, !uploads_app, Hc, Ha. simpl.
  rewrite app_nil_r.
  assert (Hbody : length (take (Z.to_nat cs) (drop (Z.to_nat off) (contents file)))
                  = Z.to_nat cs).
  { unfold fileSize in *. rewrite length_take, length_drop. lia. }
  split; [reflexivity|]. split; [reflexivity|].
  split; [|split; [|split; [|split; [|split]]]].
  - apply Forall2_app; [exact Hm|]. constructor; [|constructor].
    simpl. split; [reflexivity | exact Hup].
  - rewrite fmap_app, Hpn, length_app. simpl.
    replace (Z.of_nat (length (uploads tr) + 1)) with (Z.of_nat (S (length (uploads tr))))
      by lia.
    rewrite seqZ_S, fmap_app. simpl. subst pn. now rewrite wrap32_wrap64.
  - subst pn. unfold add64. rewrite wrap64_add_l, length_app. simpl. f_equal. lia.
  - lia.
  - rewrite fmap_app, concat_app, Hcat. simpl. rewrite app_nil_r.
    rewrite take_take_drop. f_equal. lia.
  - apply Forall_app. split; [exact Hlen|]. constructor; [|constructor].
    simpl. rewrite Hbody. lia.
Qed.

Lemma sessionInv_done (svc : service) (file : localFile) (ps off pn : Z)
    (parts : list completedPart) (tr : list event) :
  sessionInv svc file ps off pn parts tr ->
  fileSize file <= off ->
  completedSession svc file ps
    (tr ++ [EvComplete parts (completeMultipartUpload svc parts)]).
Proof.
  intros (Hc & Ha & Hm & Hpn & Hn & Hoff & Hcat & Hlen) Hge.
  exists parts, (completeMultipartUpload svc parts).
  rewrite last_snoc, completions_app, aborts_app, uploads_app, Hc, Ha. simpl.
  rewrite app_nil_r.
  repeat (split; [first [reflexivity | assumption]|]).
  split; [|exact Hlen].
  rewrite Hcat. apply take_ge. unfold fileSize in *. lia.
Qed.

Lemma sessionInv_init (svc : service) (file : localFile) (ps : Z) (r : result string) :
  sessionInv svc file ps 0 1 [] [EvCreate r].
Proof.
  unfold sessionInv, fileSize. simpl.
  split; [reflexivity|]. split; [reflexivity|]. split; [constructor|].
  split; [reflexivity|]. split; [reflexivity|]. split; [lia|].
  split; [reflexivity | constructor].
Qed.

Ltac in_trace :=
  rewrite ?elem_of_app, ?list_elem_of_singleton; intuition.

Lemma allSucceeded_elem (T : list event) (ev : event) :
  allSucceeded T -> ev ∈ T -> failedLib ev = false.
Proof. unfold allSucceeded. rewrite Forall_forall. auto. Qed.

Lemma cmd_partLoop_prefix (svc : service) (file : localFile) (totalSize ps : Z) :
  forall (fuel : nat) (off pn : Z) (parts : list completedPart) (tr T : list event)
         (out : outcome),
    Upload.partLoop fuel svc file totalSize ps off pn parts tr = (T, out) ->
    exists suffix, T = tr ++ suffix.
Proof.
  induction fuel as [|fuel IH]; intros off pn parts tr T out Hrun; simpl in Hrun.
  - inversion Hrun. exists []. now rewrite app_nil_r.
  - destruct (off <? totalSize).
    + destruct (fileReadAt file _ off) as [buf rerr].
      destruct (Upload.readFailed rerr).
      { inversion Hrun. rewrite <- app_assoc. eauto. }
      destruct (uploadPart svc (wrap32 pn) buf).
      * apply IH in Hrun as [suffix ->]. rewrite <- !app_assoc. eauto.
      * inversion Hrun. rewrite <- !app_assoc. eauto.
    + inversion Hrun. eauto.
Qed.

Lemma lib_partLoop_prefix (svc : service) (file : localFile) (totalSize ps : Z) :
  forall (fuel : nat) (off pn pos : Z) (parts : list completedPart) (tr T : list event)
         (out : outcome),
    S3ops.partLoop fuel svc file totalSize ps off pn pos parts tr = (T, out) ->
    exists suffix, T = tr ++ suffix.
Proof.
  induction fuel as [|fuel IH]; intros off pn pos parts tr T out Hrun; simpl in Hrun.
  - inversion Hrun. exists []. now rewrite app_nil_r.
  - destruct (off <? totalSize).
    + destruct (_ <? 0).
      { inversion Hrun. exists []. now rewrite app_nil_r. }
      destruct (fileRead file _ pos) as [[buf n] [e|]].
      { inversion Hrun. rewrite <- app_assoc. eauto. }
      destruct (uploadPart svc (wrap32 pn) buf).
      * apply IH in Hrun as [suffix ->]. rewrite <- !app_assoc. eauto.
      * inversion Hrun. rewrite <- !app_assoc. eauto.
    + inversion Hrun. eauto.
Qed.

Lemma cmd_partLoop_success (svc : service) (file : localFile) (ps : Z) :
  fileSize file <= max_int64 -> 0 < ps ->
  forall (fuel : nat) (off pn : Z) (parts : list completedPart) (tr T : list event)
         (r : option error),
    sessionInv svc file ps off pn parts tr ->
    Upload.partLoop fuel svc file (fileSize file) ps off pn parts tr = (T, Returned r) ->
    allSucceeded T ->
    completedSession svc file ps T.
Proof.
  intros Hmax Hps. unfold max_int64 in Hmax.
  induction fuel as [|fuel IH]; intros off pn parts tr T r Hinv Hrun Hall;
    simpl in Hrun; [discriminate|].
  assert (Hoff : 0 <= off <= fileSize file) by apply Hinv.
  destruct (Z.ltb_spec off (fileSize file)) as [Hlt|Hge].
  - unfold sub64 in Hrun.
    rewrite (wrap64_id (fileSize file - off)) in Hrun
      by (unfold in_int64, min_int64, max_int64; lia).
    set (cs := if fileSize file - off <? ps then fileSize file - off else ps) in *.
    assert (Hcs : 0 < cs <= ps /\ off + cs <= fileSize file).
    { unfold cs. destruct (Z.ltb_spec (fileSize file - off) ps); lia. }
    destruct (fileReadAt file cs off) as [buf rerr] eqn:Hread.
    destruct (Upload.readFailed rerr) as [e|] eqn:Hrf.
    { inversion Hrun; subst T.
      assert (Hf : failedLib (EvRead off cs rerr) = false)
        by (apply (allSucceeded_elem _ _ Hall); in_trace).
      destruct rerr; [discriminate Hf | discriminate Hrf]. }
    destruct (uploadPart svc (wrap32 pn) buf) as [etag|e] eqn:Hup.
    + destruct (cmd_partLoop_prefix _ _ _ _ _ _ _ _ _ _ _ Hrun) as [suffix HT].
      assert (Hf : failedLib (EvRead off cs rerr) = false)
        by (apply (allSucceeded_elem _ _ Hall); rewrite HT; in_trace).
      destruct rerr as [e|]; [discriminate Hf|].
      apply fileReadAt_ok in Hread; [|lia..]. subst buf.
      eapply IH; [|exact Hrun|exact Hall].
      unfold add64 at 1. rewrite (wrap64_id (off + cs))
        by (unfold in_int64, min_int64, max_int64; lia).
      apply sessionInv_step; [exact Hinv|lia..|exact Hup].
    + inversion Hrun; subst T.
      assert (Hf : failedLib (EvUploadPart (wrap32 pn) buf (Err e)) = false)
        by (apply (allSucceeded_elem _ _ Hall); in_trace).
      discriminate Hf.
  - inversion Hrun; subst T. eapply sessionInv_done; [exact Hinv | lia].
Qed.

Lemma lib_partLoop_success (svc : service) (file : localFile) (ps : Z) :
  fileSize file <= max_int64 ->
  forall (fuel : nat) (off pn : Z) (parts : list completedPart) (tr T : list event)
         (r : option error),
    sessionInv svc file ps off pn parts tr ->
    S3ops.partLoop fuel svc file (fileSize file) ps off pn off parts tr = (T, Returned r) ->
    allSucceeded T ->
    completedSession svc file ps T.
Proof.
  intros Hmax. unfold max_int64 in Hmax.
  induction fuel as [|fuel IH]; intros off pn parts tr T r Hinv Hrun Hall;
    simpl in Hrun; [discriminate|].
  assert (Hoff : 0 <= off <= fileSize file) by apply Hinv.
  destruct (Z.ltb_spec off (fileSize file)) as [Hlt|Hge].
  - unfold sub64 in Hrun.
    rewrite (wrap64_id (fileSize file - off)) in Hrun
      by (unfold in_int64, min_int64, max_int64; lia).
    set (cs := if fileSize file - off <? ps then fileSize file - off else ps) in *.
    destruct (Z.ltb_spec cs 0) as [Hneg|Hcs0]; [discriminate|].
    assert (Hcs : cs <= ps /\ off + cs <= fileSize file).
    { unfold cs. destruct (Z.ltb_spec (fileSize file - off) ps); lia. }
    destruct (fileRead file cs off) as [[buf n] rerr] eqn:Hread.
    destruct rerr as [e|].
    { inversion Hrun; subst T.
      assert (Hf : failedLib (EvRead off cs (Some e)) = false)
        by (apply (allSucceeded_elem _ _ Hall); in_trace).
      discriminate Hf. }
    apply fileRead_ok in Hread as [-> ->]; [|lia..].
    destruct (uploadPart svc (wrap32 pn) _) as [etag|e] eqn:Hup.
    + unfold add64 at 1 in Hrun. rewrite (wrap64_id (off + cs)) in Hrun
        by (unfold in_int64, min_int64, max_int64; lia).
      eapply IH; [|exact Hrun|exact Hall].
      apply sessionInv_step; [exact Hinv|lia..|exact Hup].
    + inversion Hrun; subst T.
      match type of Hall with
      | allSucceeded ((_ ++ [?ev]) ++ _) =>
          assert (Hf : failedLib ev = false)
            by (apply (allSucceeded_elem _ _ Hall); in_trace)
      end.
      discriminate Hf.
  - inversion Hrun; subst T. eapply sessionInv_done; [exact Hinv | lia].
Qed.

Lemma wrap32_seqZ (n : Z) :
  n <= 2 ^ 31 - 1 -> wrap32 <$> seqZ 1 n = seqZ 1 n.
Proof.
  intros Hn. apply list_eq. intros i. rewrite list_lookup_fmap.
  destruct (seqZ 1 n !! i) as [x|] eqn:Hx; [|reflexivity].
  apply lookup_seqZ in Hx as [-> Hi]. simpl. f_equal. apply wrap32_id. lia.
Qed.

(** A session that was opened, returned, and had no failed part upload
    and no failed read was completed. *)
Lemma multipart_success_parts_aux :
  forall (fuel : nat) (svc : service) (file : localFile) (partSize : Z)
         (T : list event) (r : option error) (id : string),
    fileSize file <= max_int64 ->
    (Upload.uploadMultipart fuel svc file partSize = (T, Returned r) ->
     head T = Some (EvCreate (Ok id)) -> allSucceeded T ->
     completedSession svc file
       (if partSize <=? 0 then 10 * 1024 * 1024 else partSize) T) /\
    (S3ops.UploadMultipart fuel svc file partSize = (T, Returned r) ->
     head T = Some (EvCreate (Ok id)) -> allSucceeded T ->
     completedSession svc file partSize T).
Proof.
  intros fuel svc file partSize T r id Hmax.
  split; intros Hrun Hhead Hall.
  - unfold Upload.uploadMultipart in Hrun.
    destruct (openErr file); [inversion Hrun; subst; discriminate|].
    destruct (statErr file); [inversion Hrun; subst; discriminate|].
    destruct (createMultipartUpload svc) as [uid|e] eqn:Hc;
      [|inversion Hrun; subst; discriminate].
    eapply cmd_partLoop_success; [exact Hmax| |apply sessionInv_init|exact Hrun|exact Hall].
    destruct (Z.leb_spec partSize 0); lia.
  - unfold S3ops.UploadMultipart in Hrun.
    destruct (openErr file); [inversion Hrun; subst; discriminate|].
    destruct (statErr file); [inversion Hrun; subst; discriminate|].
    destruct (createMultipartUpload svc) as [uid|e] eqn:Hc;
      [|inversion Hrun; subst; discriminate].
    eapply lib_partLoop_success; [exact Hmax|apply sessionInv_init|exact Hrun|exact Hall].
Qed.



Lemma fileRead_full (file : localFile) (cs pos : Z) :
  readFault file pos = None -> 0 <= pos -> 0 < cs -> pos + cs <= fileSize file ->
  fileRead file cs pos
  = (take (Z.to_nat cs) (drop (Z.to_nat pos) (contents file)), cs, None).
Proof.
  unfold fileRead, fileSize. intros Hf Hpos Hcs Hle.
  destruct (Z.eqb_spec cs 0) as [|_]; [lia|]. rewrite Hf.
  assert (Hlen : length (take (Z.to_nat cs) (drop (Z.to_nat pos) (contents file)))
                 = Z.to_nat cs).
  { rewrite length_take, length_drop. lia. }
  destruct (take (Z.to_nat cs) (drop (Z.to_nat pos) (contents file))) as [|b got] eqn:Hgot.
  { simpl in Hlen. lia. }
  rewrite Hlen, Nat.sub_diag. simpl. rewrite app_nil_r. do 2 f_equal. lia.
Qed.

(** With a positive part size, a readable file and a service that accepts
    every part, the library's upload returns nil once the fuel exceeds the
    number of bytes left. *)
Lemma lib_partLoop_runs (svc : service) (file : localFile) (ps : Z) :
  fileSize file <= max_int64 -> 0 < ps ->
  (forall pn body, exists tag, uploadPart svc pn body = Ok tag) ->
  (forall parts, completeMultipartUpload svc parts = None) ->
  (forall off, readFault file off = None) ->
  forall (fuel : nat) (off pn : Z) (parts : list completedPart) (tr : list event),
    0 <= off <= fileSize file ->
    (Z.to_nat (fileSize file - off) < fuel)%nat ->
    allSucceeded tr ->
    exists T, S3ops.partLoop fuel svc file (fileSize file) ps off pn off parts tr
              = (T, Returned None) /\ allSucceeded T.
Proof.
  intros Hmax Hps Hup Hcomplete Hfault. unfold max_int64 in Hmax.
  induction fuel as [|fuel IH]; intros off pn parts tr Hoff Hfuel Hall; [lia|].
  simpl.
  destruct (Z.ltb_spec off (fileSize file)) as [Hlt|Hge].
  - unfold sub64. rewrite (wrap64_id (fileSize file - off))
      by (unfold in_int64, min_int64, max_int64; lia).
    set (cs := if fileSize file - off <? ps then fileSize file - off else ps).
    assert (Hcs : 0 < cs /\ off + cs <= fileSize file).
    { unfold cs. destruct (Z.ltb_spec (fileSize file - off) ps); lia. }
    destruct (Z.ltb_spec cs 0) as [|_]; [lia|].
    rewrite fileRead_full by (auto; lia).
    destruct (Hup (wrap32 pn)
                (take (Z.to_nat cs) (drop (Z.to_nat off) (contents file)))) as [tag ->].
    unfold add64 at 1. rewrite (wrap64_id (off + cs))
      by (unfold in_int64, min_int64, max_int64; lia).
    apply IH; [lia | lia |].
    apply Forall_app. split; [apply Forall_app; split; [exact Hall|]|];
      (constructor; [reflexivity | constructor]).
  - rewrite Hcomplete. eexists. split; [reflexivity|].
    apply Forall_app. split; [exact Hall|]. constructor; [reflexivity | constructor].
Qed.

Lemma zeroFile_size (n : Z) : 0 <= n -> fileSize (zeroFile n) = n.
Proof.
  intros Hn. unfold fileSize, zeroFile. cbn [contents].
  rewrite length_replicate. lia.
Qed.

Lemma concat_length_le {A : Type} (k : nat) (l : list (list A)) :
  Forall (fun b => (length b <= k)%nat) l -> (length (concat l) <= k * length l)%nat.
Proof.
  induction 1 as [|b l Hb _ IH]; simpl; [lia|]. rewrite length_app. lia.
Qed.

(** A file of [n >= 2^31] bytes sent in parts of one byte: every part is
    accepted, the upload returns nil, and the part number -2^31 is among
    those submitted. *)
Lemma lib_part_numbers_wrap (n : Z) :
  2 ^ 31 <= n <= max_int64 ->
  exists T,
    S3ops.UploadMultipart (S (Z.to_nat n)) acceptingService (zeroFile n) 1
    = (T, Returned None) /\
    head T = Some (EvCreate (Ok "upload-id"%string)) /\
    allSucceeded T /\
    - 2 ^ 31 ∈ (uploads T).*1.
Proof.
  intros Hn.
  assert (Hsize : fileSize (zeroFile n) = n) by (apply zeroFile_size; lia).
  destruct (lib_partLoop_runs acceptingService (zeroFile n) 1) with
    (fuel := S (Z.to_nat n)) (off := 0) (pn := 1) (parts := @nil completedPart)
    (tr := [EvCreate (Ok "upload-id"%string)]) as (T & Hrun & Hall).
  { rewrite Hsize. lia. }
  { lia. }
  { intros pn body. eexists. reflexivity. }
  { reflexivity. }
  { reflexivity. }
  { rewrite Hsize. lia. }
  { rewrite Hsize. lia. }
  { constructor; [reflexivity | constructor]. }
  exists T.
  assert (Hrun' : S3ops.UploadMultipart (S (Z.to_nat n)) acceptingService (zeroFile n) 1
                  = (T, Returned None)) by exact Hrun.
  assert (Hhead : head T = Some (EvCreate (Ok "upload-id"%string))).
  { destruct (lib_partLoop_prefix _ _ _ _ _ _ _ _ _ _ _ _ Hrun) as [suffix ->].
    reflexivity. }
  split; [exact Hrun'|]. split; [exact Hhead|]. split; [exact Hall|].
  destruct (proj2 (multipart_success_parts_aux (S (Z.to_nat n)) acceptingService
                     (zeroFile n) 1 T None "upload-id" ltac:(rewrite Hsize; lia))
              Hrun' Hhead Hall)
    as (parts & err & _ & _ & _ & _ & _ & Hpn & Hcat & Hlen).
  assert (HN : n <= Z.of_nat (length (uploads T))).
  { assert (Hle : (length (concat ((uploads T).*2)) <= 1 * length ((uploads T).*2))%nat).
    { apply concat_length_le. apply Forall_fmap. eapply Forall_impl; [exact Hlen|].
      intros up Hup. simpl in *. lia. }
    rewrite Hcat, length_fmap in Hle. fold (fileSize (zeroFile n)) in Hsize.
    unfold fileSize in Hsize. lia. }
  rewrite Hpn. apply list_elem_of_fmap. exists (2 ^ 31). split; [reflexivity|].
  apply elem_of_seqZ. lia.
Qed.


(** ** The worker pool *)

Import Download.

Lemma run_nil (w : world) (s : pool) : run w [] s = s.
Proof. reflexivity. Qed.

Lemma run_cons (w : world) (k : nat) (sched : list nat) (s : pool) :
  run w (k :: sched) s = run w sched (default s (step w k s)).
Proof. reflexivity. Qed.

Lemma run_app (w : world) (sched1 sched2 : list nat) (s : pool) :
  run w (sched1 ++ sched2) s = run w sched2 (run w sched1 s).
Proof. unfold run. apply foldl_app. Qed.

(** A property that holds of the first pool and that every move keeps
    holds all along every schedule. *)
Lemma run_invariant (w : world) (P : pool -> Prop) :
  (forall s k s', P s -> step w k s = Some s' -> P s') ->
  forall sched s, P s -> P (run w sched s).
Proof.
  intros Hstep. induction sched as [|k sched IH]; intros s Hs; [exact Hs|].
  rewrite run_cons. apply IH.
  destruct (step w k s) as [s'|] eqn:Hk; simpl; [eapply Hstep; eauto | exact Hs].
Qed.

Lemma setState_Some (states states' : list Z) (i x : Z) :
  setState states i x = Some states' ->
  0 <= i < Z.of_nat (length states) /\ states' = <[Z.to_nat i := x]> states.
Proof.
  unfold setState.
  destruct (Z.leb_spec 0 i); destruct (Z.ltb_spec i (Z.of_nat (length states)));
    simpl; intros Hset; inversion Hset; split; [lia | reflexivity].
Qed.

Lemma setState_in_range (states : list Z) (i x : Z) :
  0 <= i < Z.of_nat (length states) ->
  setState states i x = Some (<[Z.to_nat i := x]> states).
Proof.
  intros Hi. unfold setState.
  destruct (Z.leb_spec 0 i); destruct (Z.ltb_spec i (Z.of_nat (length states)));
    simpl; solve [reflexivity | lia].
Qed.

(** The cases of a move: the worker returns; it takes a chunk; it holds a
    chunk whose write fails, or succeeds, or whose read fails; each of the
    last four with the store into the progress bar in range or not. *)
Ltac step_cases Hstep :=
  unfold step in Hstep;
  destruct (panicked _) eqn:Hpan; [discriminate|];
  let c := fresh "c" in
  destruct (workers _ !! _) as [[|c| |]|] eqn:Hk; try discriminate;
  [ destruct (chunkCh _) as [|c rest] eqn:Hch;
    [|destruct (setState _ _ _) as [states|] eqn:Hset]
  | destruct (S3ops.DownloadRange _ _ _) as [data|e] eqn:Hget;
    [ destruct (WriteAt _ _ _ _) as [f' [e|]] eqn:Hwrite;
      destruct (setState _ _ _) as [states|] eqn:Hset
    | destruct (setState _ _ _) as [states|] eqn:Hset ] ];
  injection Hstep as <-.

(** The worker that fails changes its own state only: the channel of
    chunks and the other workers are as before. *)
Lemma step_failed_frame (w : world) (k : nat) (s s' : pool) :
  step w k s = Some s' ->
  workers s' !! k = Some Failed ->
  chunkCh s' = chunkCh s /\
  forall j, j <> k -> workers s' !! j = workers s !! j.
Proof.
  intros Hstep Hk'. step_cases Hstep; simpl in *;
    try (rewrite Hk in Hk'; discriminate);
    try (rewrite list_lookup_insert_eq in Hk' by (eapply lookup_lt_Some; eauto);
         discriminate);
    (split; [reflexivity|]; intros j Hj; now rewrite list_lookup_insert_ne).
Qed.

(** As long as nothing has panicked, a worker that has not returned can
    move. *)
Lemma step_progress (w : world) (k : nat) (s : pool) (wk : worker) :
  panicked s = false ->
  workers s !! k = Some wk -> stopped wk = false -> is_Some (step w k s).
Proof.
  unfold step. intros -> -> Hwk. destruct wk as [|c| |]; try discriminate.
  - destruct (chunkCh s); [eauto|]. destruct (setState _ _ _); eauto.
  - destruct (S3ops.DownloadRange _ _ _) as [data|e].
    + destruct (WriteAt w (file s) data (start c)) as [f' [e|]];
        destruct (setState _ _ _); eauto.
    + destruct (setState _ _ _); eauto.
Qed.

Lemma list_sum_insert (l : list nat) (k a b : nat) :
  l !! k = Some a -> (list_sum (<[k := b]> l) + a = list_sum l + b)%nat.
Proof.
  revert k. induction l as [|x l IH]; intros [|k] Hk; simpl in *; try discriminate.
  - inversion Hk. lia.
  - specialize (IH k Hk). lia.
Qed.

(** Every move uses up some of the moves left, or is a panic. *)
Lemma step_movesLeft (w : world) (k : nat) (s s' : pool) :
  step w k s = Some s' ->
  panicked s' = true \/ (movesLeft s' < movesLeft s)%nat.
Proof.
  intros Hstep.
  assert (Hsum : forall wk wk', workers s !! k = Some wk ->
             (list_sum (moveCost <$> <[k := wk']> (workers s)) + moveCost wk
              = list_sum (moveCost <$> workers s) + moveCost wk')%nat).
  { intros wk wk' Hw. rewrite list_fmap_insert. apply list_sum_insert.
    now rewrite list_lookup_fmap, Hw. }
  step_cases Hstep; try (left; reflexivity); right; unfold movesLeft; simpl;
    rewrite ?Hch; simpl.
  - specialize (Hsum _ Exited eq_refl). simpl in Hsum. lia.
  - specialize (Hsum _ (Fetching c) eq_refl). simpl in Hsum. lia.
  - specialize (Hsum _ Failed eq_refl). simpl in Hsum. lia.
  - specialize (Hsum _ Idle eq_refl). simpl in Hsum. lia.
  - specialize (Hsum _ Failed eq_refl). simpl in Hsum. lia.
Qed.

Lemma not_finished_worker (s : pool) :
  finished s = false -> exists k wk, workers s !! k = Some wk /\ stopped wk = false.
Proof.
  unfold finished. induction (workers s) as [|wk ws IH]; simpl; [discriminate|].
  destruct (stopped wk) eqn:Hwk; simpl.
  - intros H. destruct (IH H) as (k & wk' & Hk & Hs). exists (S k), wk'. auto.
  - intros _. exists 0%nat, wk. auto.
Qed.

(** Whatever the pool, some schedule lets every worker return, unless a
    worker panics on the way: [wg.Wait()] does not wait for ever under a
    scheduler that lets the workers move. *)
Lemma pool_terminates (w : world) :
  forall (m : nat) (s : pool), (movesLeft s < m)%nat ->
    exists sched,
      panicked (run w sched s) = true \/ finished (run w sched s) = true.
Proof.
  induction m as [|m IH]; intros s Hm; [lia|].
  destruct (panicked s) eqn:Hpan; [exists []; now left|].
  destruct (finished s) eqn:Hfin; [exists []; now right|].
  destruct (not_finished_worker s Hfin) as (k & wk & Hk & Hwk).
  destruct (step_progress w k s wk Hpan Hk Hwk) as [s' Hs'].
  destruct (step_movesLeft w k s s' Hs') as [Hcrash|Hless].
  - exists [k]. left. rewrite run_cons, Hs'. exact Hcrash.
  - destruct (IH s') as [sched Hsched]; [lia|].
    exists (k :: sched). rewrite run_cons, Hs'. exact Hsched.
Qed.

Lemma run_no_workers (w : world) (sched : list nat) (s : pool) :
  workers s = [] -> run w sched s = s.
Proof.
  intros Hw. induction sched as [|k sched IH]; [reflexivity|].
  rewrite run_cons. unfold step. rewrite Hw. destruct (panicked s); exact IH.
Qed.

Lemma workers_length (w : world) (n : nat) (sched : list nat) (s : pool) :
  length (workers s) = n -> length (workers (run w sched s)) = n.
Proof.
  apply (run_invariant w (fun s => length (workers s) = n)).
  clear s. intros s k s' Hlen Hstep.
  step_cases Hstep; simpl; now rewrite ?length_insert.
Qed.

(** ** The planner, whatever the sizes *)

Lemma planShape_nil (totalSize : Z) : planShape totalSize [].
Proof. split; intros j c; intros; discriminate. Qed.

Lemma planLoop_shape (totalSize chunkSize : Z) :
  0 <= totalSize <= max_int64 ->
  forall (fuel : nat) (i : Z) (acc l : list chunk),
    planShape totalSize acc ->
    (forall c, last acc = Some c -> 0 <= i -> end_ c < i) ->
    planLoop fuel totalSize chunkSize i acc = Some l ->
    planShape totalSize l.
Proof.
  intros Htotal. unfold max_int64 in Htotal.
  induction fuel as [|fuel IH]; intros i acc l Hacc Hlast Hrun; simpl in Hrun;
    [discriminate|].
  destruct (i <? totalSize); [|inversion Hrun; subst; exact Hacc].
  apply IH in Hrun; [exact Hrun| |].
  - (* the new list has the shape *)
    destruct Hacc as [Hidx Hadj]. split.
    + intros j c Hj. apply lookup_app_Some in Hj as [Hj|[Hlen Hj]]; [eauto|].
      destruct (j - length acc)%nat as [|?] eqn:Hd; [|discriminate].
      inversion Hj; subst c; simpl. split; [lia|].
      unfold sub64 at 2. rewrite (wrap64_id (totalSize - 1))
        by (unfold in_int64, min_int64, max_int64; lia).
      destruct (Z.geb_spec (sub64 (add64 i chunkSize) 1) totalSize); lia.
    + intros j c c' Hj Hj' Hstart.
      apply lookup_app_Some in Hj' as [Hj'|[Hlen Hj']].
      * apply lookup_app_Some in Hj as [Hj|[Hlen Hj]]; [eauto|].
        apply lookup_lt_Some in Hj'. lia.
      * destruct (S j - length acc)%nat as [|?] eqn:Hd; [|discriminate].
        inversion Hj'; subst c'; simpl in *.
        assert (Hjl : j = Init.Nat.pred (length acc)) by lia.
        apply lookup_app_Some in Hj as [Hj|[Hlen' _]]; [|lia].
        apply Hlast; [|exact Hstart]. now rewrite last_lookup, <- Hjl.
  - (* the last chunk ends before the next value of the loop variable *)
    intros c Hc Hi. rewrite last_snoc in Hc. inversion Hc; subst c; simpl.
    pose proof (wrap64_range (i + chunkSize)) as Hr.
    unfold in_int64, min_int64, max_int64 in Hr.
    unfold add64 in *. unfold sub64.
    rewrite (wrap64_id (wrap64 (i + chunkSize) - 1))
      by (unfold in_int64, min_int64, max_int64; lia).
    rewrite (wrap64_id (totalSize - 1))
      by (unfold in_int64, min_int64, max_int64; lia).
    destruct (Z.geb_spec (wrap64 (i + chunkSize) - 1) totalSize); lia.
Qed.

Lemma planChunks_shape (fuel : nat) (totalSize chunkSize : Z) (l : list chunk) :
  0 <= totalSize <= max_int64 ->
  planChunks fuel totalSize chunkSize = Some l ->
  planShape totalSize l.
Proof.
  intros Htotal Hrun. eapply planLoop_shape; [exact Htotal| | |exact Hrun].
  - apply planShape_nil.
  - intros c Hc. discriminate.
Qed.

Lemma planLoop_wellIndexed (totalSize chunkSize : Z) :
  forall (fuel : nat) (i : Z) (acc l : list chunk),
    wellIndexed acc ->
    planLoop fuel totalSize chunkSize i acc = Some l ->
    wellIndexed l.
Proof.
  induction fuel as [|fuel IH]; intros i acc l Hacc Hrun; simpl in Hrun; [discriminate|].
  destruct (i <? totalSize); [|inversion Hrun; subst; exact Hacc].
  apply IH in Hrun; [exact Hrun|].
  intros j c Hj. apply lookup_app_Some in Hj as [Hj|[Hlen Hj]]; [eauto|].
  destruct (j - length acc)%nat as [|?] eqn:Hd; [|discriminate].
  inversion Hj; subst c. simpl. lia.
Qed.

Lemma planChunks_wellIndexed (fuel : nat) (totalSize chunkSize : Z) (l : list chunk) :
  planChunks fuel totalSize chunkSize = Some l -> wellIndexed l.
Proof.
  apply planLoop_wellIndexed. intros j c Hj. discriminate.
Qed.

Lemma wellIndexed_idx (chunks : list chunk) (j : nat) (c : chunk) :
  wellIndexed chunks -> chunks !! j = Some c -> idx c = j.
Proof. intros Hwi Hj. unfold idx. rewrite (Hwi j c Hj). lia. Qed.

Lemma wellIndexed_NoDup (chunks : list chunk) :
  wellIndexed chunks -> NoDup (idx <$> chunks).
Proof.
  intros Hwi. assert (Heq : idx <$> chunks = seq 0 (length chunks)).
  { apply list_eq. intros j. rewrite list_lookup_fmap.
    destruct (chunks !! j) as [c|] eqn:Hj; simpl.
    - rewrite (wellIndexed_idx _ _ _ Hwi Hj). symmetry. apply lookup_seq.
      split; [reflexivity|]. eapply lookup_lt_Some; eauto.
    - symmetry. apply lookup_seq_ge. now apply lookup_ge_None. }
  rewrite Heq. apply NoDup_seq.
Qed.

(** The index of a chunk of the plan is within the progress bar's array. *)
Lemma wellIndexed_bound (chunks : list chunk) (c : chunk) :
  wellIndexed chunks -> c ∈ chunks -> 0 <= index c < Z.of_nat (length chunks).
Proof.
  intros Hwi Hc. apply list_elem_of_lookup in Hc as [j Hj].
  rewrite (Hwi j c Hj). apply lookup_lt_Some in Hj. lia.
Qed.

Lemma planLoop_fuel (totalSize chunkSize : Z) :
  forall (fuel1 fuel2 : nat) (i : Z) (acc l1 l2 : list chunk),
    planLoop fuel1 totalSize chunkSize i acc = Some l1 ->
    planLoop fuel2 totalSize chunkSize i acc = Some l2 ->
    l1 = l2.
Proof.
  induction fuel1 as [|fuel1 IH]; intros [|fuel2] i acc l1 l2 H1 H2; simpl in *;
    try discriminate.
  destruct (i <? totalSize); [eauto | congruence].
Qed.

(** ** The destination file *)

Lemma pwrite_length (f data : list byte) (off : nat) :
  (off + length data <= length f)%nat -> length (pwrite f data off) = length f.
Proof.
  intros Hle. unfold pwrite. destruct data as [|b data]; [reflexivity|].
  rewrite !length_app, length_take, length_replicate, length_drop. simpl in *. lia.
Qed.

Lemma WriteAt_length (w : world) (f data : list byte) (off : Z) :
  off + Z.of_nat (length data) <= Z.of_nat (length f) ->
  length (fst (WriteAt w f data off)) = length f.
Proof.
  intros Hle. unfold WriteAt.
  destruct (Z.ltb_spec off 0); [reflexivity|]. simpl.
  apply pwrite_length. rewrite length_take. lia.
Qed.

Lemma WriteAt_ok (w : world) (f f' data : list byte) (off : Z) :
  WriteAt w f data off = (f', None) ->
  0 <= off /\ (length data <= diskWrite w off data)%nat /\
  f' = pwrite f data (Z.to_nat off).
Proof.
  unfold WriteAt. destruct (Z.ltb_spec off 0) as [|Hoff]; [discriminate|].
  destruct (Nat.ltb_spec (Nat.min (diskWrite w off data) (length data)) (length data))
    as [|Hn]; [discriminate|].
  intros H. inversion H. split; [exact Hoff|]. split; [lia|].
  rewrite take_ge by lia. reflexivity.
Qed.

(** With a service that keeps to the range asked for, no move changes the
    length of the file. *)
Lemma step_file_length (w : world) (totalSize : Z) (chunks : list chunk) :
  conforming w ->
  Forall (fun c => end_ c <= totalSize - 1) chunks ->
  forall s k s',
    (Forall (fun c => c ∈ chunks) (chunkCh s) /\
     (forall j c, workers s !! j = Some (Fetching c) -> c ∈ chunks) /\
     Z.of_nat (length (file s)) = totalSize) ->
    step w k s = Some s' ->
    (Forall (fun c => c ∈ chunks) (chunkCh s') /\
     (forall j c, workers s' !! j = Some (Fetching c) -> c ∈ chunks) /\
     Z.of_nat (length (file s')) = totalSize).
Proof.
  intros Hconf Hends s k s' (Hq & Hw & Hlen) Hstep.
  rewrite Forall_forall in Hends.
  assert (Hins : forall wk, (forall c, wk = Fetching c -> c ∈ chunks) ->
            forall j c, <[k := wk]> (workers s) !! j = Some (Fetching c) -> c ∈ chunks).
  { intros wk Hwk j c Hj. destruct (decide (k = j)) as [->|Hne].
    - apply list_lookup_insert_Some in Hj as [(_ & Heq & _)|(? & _)]; [eauto | congruence].
    - rewrite list_lookup_insert_ne in Hj by assumption. eauto. }
  assert (Hfit : forall c data f' werr,
            workers s !! k = Some (Fetching c) ->
            S3ops.DownloadRange (getObject w) (start c) (end_ c) = Ok data ->
            WriteAt w (file s) data (start c) = (f', werr) ->
            Z.of_nat (length f') = totalSize).
  { intros c data f' werr Hc Hget Hwrite.
    assert (Hle : start c + Z.of_nat (length data) <= Z.of_nat (length (file s))).
    { apply Hconf in Hget. pose proof (Hends c (Hw k c Hc)). lia. }
    pose proof (WriteAt_length w (file s) data (start c) Hle) as Hwl.
    rewrite Hwrite in Hwl. simpl in Hwl. lia. }
  step_cases Hstep; simpl; rewrite ?Hch;
    (split; [first [exact Hq | constructor | now inversion Hq]|];
     split; [first [ exact Hw
                   | apply Hins; intros ?; discriminate
                   | apply Hins; intros c' Hc'; inversion Hc'; subst; now inversion Hq ]|];
     first [exact Hlen | eapply Hfit; eauto]).
Qed.

(** What [download] does once the head call, the creation and the
    resizing of the file and the planning have gone through. *)
Lemma download_started (fuel : nat) (sched : list nat) (w : world) (d : downloader)
    (out : outcome) (s : pool) (meta : S3ops.ObjectMetadata) :
  S3ops.HeadObjectMeta (headObject w) = Ok meta ->
  download fuel sched w d = (out, Some s) ->
  0 <= S3ops.Size meta /\ 0 <= concurrency d /\
  exists chunks,
    planChunks fuel (S3ops.Size meta) (chunkSize d) = Some chunks /\
    forall sched',
      download fuel sched' w d
      = let s' := run w sched'
                    (initPool chunks (Z.to_nat (concurrency d)) (S3ops.Size meta)) in
        (if panicked s' then Panicked
         else if finished s' then Returned (head (errCh s')) else OutOfFuel, Some s').
Proof.
  intros Hhead Hrun. unfold download in *. rewrite Hhead in *.
  destruct (openFile w); [discriminate|].
  destruct (Truncate w (S3ops.Size meta)) eqn:Htr; [discriminate|].
  unfold Truncate in Htr.
  destruct (Z.ltb_spec (S3ops.Size meta) 0) as [|Hpos]; [discriminate|].
  destruct (planChunks fuel (S3ops.Size meta) (chunkSize d)) as [chunks|] eqn:Hplan;
    [|discriminate].
  destruct (Z.ltb_spec (concurrency d) 0) as [|Hconc]; [discriminate|].
  split; [exact Hpos|]. split; [exact Hconc|]. exists chunks. split; [reflexivity|].
  intros sched'. simpl.
  destruct (panicked (run w sched' _)); [reflexivity|].
  now destruct (finished (run w sched' _)).
Qed.

Lemma download_started_pool (fuel : nat) (sched : list nat) (w : world) (d : downloader)
    (out : outcome) (s : pool) (chunks : list chunk) (totalSize : Z) :
  (forall sched',
      download fuel sched' w d
      = let s' := run w sched' (initPool chunks (Z.to_nat (concurrency d)) totalSize) in
        (if panicked s' then Panicked
         else if finished s' then Returned (head (errCh s')) else OutOfFuel, Some s')) ->
  download fuel sched w d = (out, Some s) ->
  s = run w sched (initPool chunks (Z.to_nat (concurrency d)) totalSize) /\
  out = (if panicked s then Panicked
         else if finished s then Returned (head (errCh s)) else OutOfFuel).
Proof.
  intros Hany Hrun. rewrite Hany in Hrun. simpl in Hrun.
  inversion Hrun; subst. auto.
Qed.

(** ** What the download checks, and what it does not *)




(** ** The length of the destination file *)

(** C7 (amended): when the storage service answers no ranged read with
    more bytes than the range has, the destination file is created at the
    object's size, all zeros, before any worker is started (every chunk
    still waiting), and at every later point of the run, whatever the
    interleaving and whatever failed in between, its length is the
    object's size. *)
Theorem download_file_length :
  forall (fuel : nat) (sched : list nat) (w : world) (d : downloader)
         (out : outcome) (s : pool) (meta : S3ops.ObjectMetadata),
    conforming w ->
    S3ops.HeadObjectMeta (headObject w) = Ok meta ->
    S3ops.Size meta <= max_int64 ->
    download fuel sched w d = (out, Some s) ->
    exists chunks,
      let s0 := initPool chunks (Z.to_nat (concurrency d)) (S3ops.Size meta) in
      planChunks fuel (S3ops.Size meta) (chunkSize d) = Some chunks /\
      s = run w sched s0 /\
      file s0 = replicate (Z.to_nat (S3ops.Size meta)) x00 /\
      Forall (fun st => st = stateWaiting) (chunkStates s0) /\
      forall sched', Z.of_nat (length (file (run w sched' s0))) = S3ops.Size meta.
Proof.
  intros fuel sched w d out s meta Hconf Hhead Hmax Hrun.
  destruct (download_started _ _ _ _ _ _ _ Hhead Hrun)
    as (Hpos & Hconc & chunks & Hplan & Hany).
  destruct (download_started_pool _ _ _ _ _ _ _ _ Hany Hrun) as [Hs _].
  exists chunks. simpl. split; [exact Hplan|]. split; [exact Hs|].
  split; [reflexivity|]. split; [apply Forall_replicate; reflexivity|].
  intros sched'.
  pose proof (planChunks_shape _ _ _ _ (conj Hpos Hmax) Hplan) as [Hidx _].
  assert (Hends : Forall (fun c => end_ c <= S3ops.Size meta - 1) chunks).
  { apply Forall_forall. intros c Hc. apply list_elem_of_lookup in Hc as [j Hj].
    apply (Hidx j c Hj). }
  apply (run_invariant w _
           (step_file_length w (S3ops.Size meta) chunks Hconf Hends) sched').
  split; [|split].
  - simpl. apply Forall_forall. auto.
  - simpl. intros j c Hj. apply lookup_replicate in Hj as [Hj _]. discriminate.
  - simpl. rewrite length_replicate. lia.
Qed.

Lemma rangeWorld_conforming : conforming rangeWorld.
Proof.
  intros s e data. unfold S3ops.DownloadRange. simpl.
  destruct (Z.ltb_spec s 0) as [|Hs]; simpl; [discriminate|].
  destruct (Z.ltb_spec e s) as [|He]; simpl; [discriminate|].
  intros Hdata. inversion Hdata. rewrite length_take. lia.
Qed.

Lemma download_file_length_witness :
  conforming rangeWorld /\
  exists chunks,
    planChunks 4 5 2 = Some chunks /\
    forall sched',
      Z.of_nat (length (file (run rangeWorld sched' (initPool chunks 2 5)))) = 5.
Proof.
  split; [exact rangeWorld_conforming|].
  edestruct (download_file_length 4 [0; 1]%nat rangeWorld
               {| chunkSize := 2; concurrency := 2 |})
    as (chunks & Hplan & _ & _ & _ & Hlen).
  - exact rangeWorld_conforming.
  - reflexivity.
  - vm_compute. discriminate.
  - vm_compute. reflexivity.
  - exists chunks. exact (conj Hplan Hlen).
Defined.

(** C7, as stated, fails when the service sends more than it was asked
    for.  A service that ignores the range sends the whole object, five
    bytes, for each of the three chunks; each is written at the start of
    its chunk, and the file of an object of five bytes ends nine bytes
    long. *)
Lemma download_file_outgrows_object :
  S3ops.HeadObjectMeta (headObject wholeObjectWorld) = Ok {| S3ops.Size := 5 |} /\
  exists s,
    download 4 [0; 0; 0; 0; 0; 0; 0]%nat wholeObjectWorld
      {| chunkSize := 2; concurrency := 1 |} = (Returned None, Some s) /\
    length (file s) = 9%nat.
Proof. split; [reflexivity|]. eexists. split; vm_compute; reflexivity. Qed.

(** ** The bookkeeping of the pool *)

Lemma inflight_cons (wk : worker) (ws : list worker) :
  inflight (wk :: ws) = held wk ++ inflight ws.
Proof. destruct wk; reflexivity. Qed.

Lemma inflight_insert (ws : list worker) (k : nat) (wk wk' : worker) :
  ws !! k = Some wk ->
  held wk ++ inflight (<[k := wk']> ws) ≡ₚ held wk' ++ inflight ws.
Proof.
  revert k. induction ws as [|x ws IH]; intros [|k] Hk; simpl in Hk; try discriminate.
  - inversion Hk; subst x. change (<[0%nat := wk']> (wk :: ws)) with (wk' :: ws).
    rewrite !inflight_cons. apply Permutation_app_swap_app.
  - change (<[S k := wk']> (x :: ws)) with (x :: <[k := wk']> ws).
    rewrite !inflight_cons.
    rewrite (Permutation_app_swap_app (held wk)), (IH k Hk).
    apply Permutation_app_swap_app.
Qed.

Lemma inflight_replicate_idle (n : nat) : inflight (replicate n Idle) = [].
Proof. induction n as [|n IH]; [reflexivity | exact IH]. Qed.

Lemma inflight_finished (ws : list worker) :
  forallb stopped ws = true -> inflight ws = [].
Proof.
  induction ws as [|wk ws IH]; [reflexivity|].
  intros H. rewrite inflight_cons. simpl in H. apply andb_prop in H as [Hwk Hws].
  rewrite (IH Hws). destruct wk; try discriminate; reflexivity.
Qed.

Lemma failedCount_cons (wk : worker) (ws : list worker) :
  failedCount (wk :: ws) = ((if isFailed wk then 1 else 0) + failedCount ws)%nat.
Proof.
  unfold failedCount. rewrite filter_cons.
  destruct (isFailed wk); destruct (decide _); simpl; congruence.
Qed.

Lemma failedCount_insert (ws : list worker) (k : nat) (wk wk' : worker) :
  ws !! k = Some wk ->
  (failedCount (<[k := wk']> ws) + (if isFailed wk then 1 else 0)
   = failedCount ws + (if isFailed wk' then 1 else 0))%nat.
Proof.
  revert k. induction ws as [|x ws IH]; intros [|k] Hk; simpl in Hk; try discriminate.
  - inversion Hk; subst x. change (<[0%nat := wk']> (wk :: ws)) with (wk' :: ws).
    rewrite !failedCount_cons. lia.
  - change (<[S k := wk']> (x :: ws)) with (x :: <[k := wk']> ws).
    rewrite !failedCount_cons. specialize (IH k Hk). lia.
Qed.

Lemma failedCount_replicate_idle (n : nat) : failedCount (replicate n Idle) = 0%nat.
Proof. induction n as [|n IH]; [reflexivity|]. simpl. now rewrite failedCount_cons. Qed.

Lemma inflight_elem (ws : list worker) (k : nat) (c : chunk) :
  ws !! k = Some (Fetching c) -> c ∈ inflight ws.
Proof.
  revert k. induction ws as [|wk ws IH]; intros [|k] Hk; simpl in Hk; try discriminate;
    rewrite inflight_cons.
  - inversion Hk. left.
  - apply elem_of_app. right. eauto.
Qed.

Lemma insert_frame (states : list Z) (c : chunk) (v x : Z) (l : list chunk) :
  Forall (fun c' => states !! idx c' = Some v) l ->
  idx c ∉ idx <$> l ->
  Forall (fun c' => <[idx c := x]> states !! idx c' = Some v) l.
Proof.
  intros Hl Hnot. rewrite Forall_forall in *. intros c' Hc'.
  rewrite list_lookup_insert_ne; [auto|].
  intros Heq. apply Hnot. rewrite Heq. apply list_elem_of_fmap. eauto.
Qed.

Lemma fresh_idx (chunks others : list chunk) (c : chunk) :
  NoDup (idx <$> chunks) -> c :: others ≡ₚ chunks -> idx c ∉ idx <$> others.
Proof.
  intros Hnd Hp. rewrite <- Hp, fmap_cons in Hnd.
  now apply NoDup_cons in Hnd as [H _].
Qed.

Section PoolMoves.
Variables (w : world) (totalSize : Z) (chunks : list chunk).
Hypothesis Hwi : wellIndexed chunks.
Variables (s : pool) (k : nat).
Hypothesis Hinv : poolInv w totalSize chunks s.

Lemma poolInv_queue_elem (c : chunk) : c ∈ chunkCh s -> c ∈ chunks.
Proof.
  destruct Hinv as (done & failed & _ & Hperm & _). intros Hc.
  rewrite <- Hperm. apply elem_of_app. now left.
Qed.

Lemma poolInv_held_elem (c : chunk) : workers s !! k = Some (Fetching c) -> c ∈ chunks.
Proof.
  destruct Hinv as (done & failed & _ & Hperm & _). intros Hc.
  rewrite <- Hperm. apply elem_of_app. right. apply elem_of_app. left.
  eapply inflight_elem; eauto.
Qed.

(** The store into the progress bar for a chunk of the plan is in range. *)
Lemma poolInv_setState (c : chunk) (x : Z) :
  c ∈ chunks ->
  setState (chunkStates s) (index c) x = Some (<[idx c := x]> (chunkStates s)).
Proof.
  destruct Hinv as (done & failed & _ & _ & Hlen & _). intros Hc.
  apply setState_in_range. rewrite Hlen. now apply wellIndexed_bound.
Qed.

Lemma poolInv_hit (c : chunk) (x : Z) :
  c ∈ chunks -> <[idx c := x]> (chunkStates s) !! idx c = Some x.
Proof.
  destruct Hinv as (done & failed & _ & _ & Hlen & _). intros Hc.
  apply list_lookup_insert_eq. rewrite Hlen.
  pose proof (wellIndexed_bound _ _ Hwi Hc). unfold idx. lia.
Qed.

Lemma poolInv_exit :
  workers s !! k = Some Idle -> chunkCh s = [] ->
  poolInv w totalSize chunks
    {| chunkCh := []; workers := <[k := Exited]> (workers s); file := file s;
       chunkStates := chunkStates s; downloaded := downloaded s;
       errCh := errCh s; panicked := false |}.
Proof.
  intros Hk Hch.
  destruct Hinv
    as (done & failed & Hnp & Hperm & Hlen & HQ & HI & HD & HF & Hfl & Hfc & Hex & Hfile).
  pose proof (inflight_insert (workers s) k Idle Exited Hk) as Hin.
  pose proof (failedCount_insert (workers s) k Idle Exited Hk) as Hfc'.
  simpl in Hin, Hfc'. rewrite Hch in Hperm.
  exists done, failed. simpl.
  split; [reflexivity|]. split; [now rewrite Hin|]. split; [exact Hlen|].
  split; [constructor|].
  split; [eapply Permutation_Forall; [symmetry; exact Hin | exact HI]|].
  split; [exact HD|]. split; [exact HF|]. split; [exact Hfl|].
  split; [lia|]. split; [reflexivity | exact Hfile].
Qed.

Lemma poolInv_take (c : chunk) (rest : list chunk) (states : list Z) :
  workers s !! k = Some Idle -> chunkCh s = c :: rest ->
  setState (chunkStates s) (index c) stateDownloading = Some states ->
  poolInv w totalSize chunks
    {| chunkCh := rest; workers := <[k := Fetching c]> (workers s); file := file s;
       chunkStates := states; downloaded := downloaded s;
       errCh := errCh s; panicked := false |}.
Proof.
  intros Hk Hch Hset.
  assert (Hc : c ∈ chunks) by (apply poolInv_queue_elem; rewrite Hch; left).
  rewrite (poolInv_setState c _ Hc) in Hset. injection Hset as <-.
  pose proof (poolInv_hit c stateDownloading Hc) as Hhit.
  destruct Hinv
    as (done & failed & Hnp & Hperm & Hlen & HQ & HI & HD & HF & Hfl & Hfc & Hex & Hfile).
  pose proof (wellIndexed_NoDup chunks Hwi) as Hnd.
  pose proof (inflight_insert (workers s) k Idle (Fetching c) Hk) as Hin.
  pose proof (failedCount_insert (workers s) k Idle (Fetching c) Hk) as Hfc'.
  simpl in Hin, Hfc'. rewrite Hch in Hperm, HQ.
  assert (Hp : c :: (rest ++ inflight (workers s) ++ done ++ failed) ≡ₚ chunks)
    by exact Hperm.
  pose proof (fresh_idx _ _ _ Hnd Hp) as Hfresh.
  rewrite !fmap_app, !not_elem_of_app in Hfresh.
  destruct Hfresh as (HfQ & HfI & HfD & HfF).
  inversion HQ as [|? ? _ HQr]; subst.
  exists done, failed. simpl. rewrite length_insert.
  split; [reflexivity|].
  split; [rewrite Hin, <- Hp; symmetry; apply Permutation_middle|].
  split; [exact Hlen|].
  split; [now apply insert_frame|].
  split.
  { eapply Permutation_Forall; [symmetry; exact Hin|].
    constructor; [exact Hhit | now apply insert_frame]. }
  split; [now apply insert_frame|]. split; [now apply insert_frame|].
  split; [exact Hfl|]. split; [lia|].
  split; [|exact Hfile].
  intros j Hj. destruct (decide (k = j)) as [->|Hne].
  - rewrite list_lookup_insert_eq in Hj by (eapply lookup_lt_Some; eauto).
    discriminate.
  - rewrite list_lookup_insert_ne in Hj by assumption.
    apply Hex in Hj. congruence.
Qed.

(** What the bookkeeping gives for the chunk [c] that worker [k] holds,
    once the worker has passed to a state [wk'] in which it holds none. *)
Lemma poolInv_release (c : chunk) (wk' : worker) (x : Z) :
  workers s !! k = Some (Fetching c) -> held wk' = [] -> wk' <> Exited ->
  exists done failed,
    c :: (chunkCh s ++ inflight (<[k := wk']> (workers s)) ++ done ++ failed) ≡ₚ chunks /\
    Forall (fun c' => <[idx c := x]> (chunkStates s) !! idx c' = Some stateWaiting)
      (chunkCh s) /\
    Forall (fun c' => <[idx c := x]> (chunkStates s) !! idx c' = Some stateDownloading)
      (inflight (<[k := wk']> (workers s))) /\
    Forall (fun c' => <[idx c := x]> (chunkStates s) !! idx c' = Some stateDone) done /\
    Forall (fun c' => <[idx c := x]> (chunkStates s) !! idx c' = Some stateFailed) failed /\
    length (chunkStates s) = length chunks /\
    length failed = length (errCh s) /\
    (failedCount (<[k := wk']> (workers s))
     = length (errCh s) + (if isFailed wk' then 1 else 0))%nat /\
    (forall j, <[k := wk']> (workers s) !! j = Some Exited -> chunkCh s = []) /\
    (errCh s = [] ->
     file s = foldl (writeChunk w) (replicate (Z.to_nat totalSize) x00) done /\
     Forall (succeeds w) done).
Proof.
  intros Hk Hwk' Hne.
  destruct Hinv
    as (done & failed & Hnp & Hperm & Hlen & HQ & HI & HD & HF & Hfl & Hfc & Hex & Hfile).
  pose proof (wellIndexed_NoDup chunks Hwi) as Hnd.
  pose proof (inflight_insert (workers s) k (Fetching c) wk' Hk) as Hin.
  pose proof (failedCount_insert (workers s) k (Fetching c) wk' Hk) as Hfc'.
  rewrite Hwk' in Hin. simpl in Hin, Hfc'.
  assert (Hp : c :: (chunkCh s ++ inflight (<[k := wk']> (workers s)) ++ done ++ failed)
               ≡ₚ chunks).
  { rewrite <- Hperm, <- Hin. apply Permutation_middle. }
  pose proof (fresh_idx _ _ _ Hnd Hp) as Hfresh.
  rewrite !fmap_app, !not_elem_of_app in Hfresh.
  destruct Hfresh as (HfQ & HfI & HfD & HfF).
  pose proof (Permutation_Forall (symmetry Hin) HI) as HI'.
  inversion HI' as [|? ? _ HI'']; subst.
  exists done, failed.
  split; [exact Hp|]. split; [now apply insert_frame|]. split; [now apply insert_frame|].
  split; [now apply insert_frame|]. split; [now apply insert_frame|].
  split; [exact Hlen|]. split; [exact Hfl|]. split; [lia|].
  split; [|exact Hfile].
  intros j Hj. destruct (decide (k = j)) as [->|Hnej].
  - rewrite list_lookup_insert_eq in Hj by (eapply lookup_lt_Some; eauto).
    congruence.
  - rewrite list_lookup_insert_ne in Hj by assumption. eauto.
Qed.

Lemma poolInv_fail (c : chunk) (f' : list byte) (e : error) (states : list Z) :
  workers s !! k = Some (Fetching c) ->
  setState (chunkStates s) (index c) stateFailed = Some states ->
  poolInv w totalSize chunks
    {| chunkCh := chunkCh s; workers := <[k := Failed]> (workers s); file := f';
       chunkStates := states; downloaded := downloaded s;
       errCh := errCh s ++ [e]; panicked := false |}.
Proof.
  intros Hk Hset.
  assert (Hc : c ∈ chunks) by (eapply poolInv_held_elem; eauto).
  rewrite (poolInv_setState c _ Hc) in Hset. injection Hset as <-.
  pose proof (poolInv_hit c stateFailed Hc) as Hhit.
  destruct (poolInv_release c Failed stateFailed Hk eq_refl ltac:(discriminate))
    as (done & failed & Hp & HQ & HI & HD & HF & Hlen & Hfl & Hfc & Hex & _).
  exists done, (c :: failed). simpl. rewrite length_insert, length_app. simpl.
  split; [reflexivity|].
  split; [rewrite <- Hp; solve_Permutation|].
  split; [exact Hlen|]. split; [exact HQ|]. split; [exact HI|]. split; [exact HD|].
  split; [constructor; [exact Hhit | exact HF]|].
  split; [lia|]. split; [simpl in Hfc; lia|]. split; [exact Hex|].
  intros He. destruct (errCh s); discriminate.
Qed.

Lemma poolInv_done (c : chunk) (data f' : list byte) (states : list Z) :
  workers s !! k = Some (Fetching c) ->
  S3ops.DownloadRange (getObject w) (start c) (end_ c) = Ok data ->
  WriteAt w (file s) data (start c) = (f', None) ->
  setState (chunkStates s) (index c) stateDone = Some states ->
  poolInv w totalSize chunks
    {| chunkCh := chunkCh s; workers := <[k := Idle]> (workers s); file := f';
       chunkStates := states;
       downloaded := add64 (downloaded s) (Z.of_nat (length data));
       errCh := errCh s; panicked := false |}.
Proof.
  intros Hk Hget Hwrite Hset.
  assert (Hc : c ∈ chunks) by (eapply poolInv_held_elem; eauto).
  rewrite (poolInv_setState c _ Hc) in Hset. injection Hset as <-.
  pose proof (poolInv_hit c stateDone Hc) as Hhit.
  destruct (poolInv_release c Idle stateDone Hk eq_refl ltac:(discriminate))
    as (done & failed & Hp & HQ & HI & HD & HF & Hlen & Hfl & Hfc & Hex & Hfile).
  pose proof Hwrite as Hw'. apply WriteAt_ok in Hw' as (Hoff & Hdisk & Hf').
  exists (done ++ [c]), failed. simpl. rewrite length_insert.
  split; [reflexivity|].
  split; [rewrite <- Hp; solve_Permutation|].
  split; [exact Hlen|]. split; [exact HQ|]. split; [exact HI|].
  split; [apply Forall_app; split; [exact HD | constructor; [exact Hhit | constructor]]|].
  split; [exact HF|]. split; [exact Hfl|]. split; [simpl in Hfc; lia|].
  split; [exact Hex|].
  intros He. destruct (Hfile He) as [Hfs Hsucc]. split.
  - rewrite foldl_snoc, <- Hfs. unfold writeChunk. now rewrite Hget, Hwrite.
  - apply Forall_app. split; [exact Hsucc|]. constructor; [|constructor].
    exists data. auto.
Qed.

End PoolMoves.

(** Every move keeps the books; in particular no worker panics. *)
Lemma step_poolInv (w : world) (totalSize : Z) (chunks : list chunk) :
  wellIndexed chunks ->
  forall s k s', poolInv w totalSize chunks s -> step w k s = Some s' ->
                 poolInv w totalSize chunks s'.
Proof.
  intros Hwi s k s' Hinv Hstep.
  assert (Hhead : forall c rest x, chunkCh s = c :: rest ->
            setState (chunkStates s) (index c) x <> None).
  { intros c rest x Hch.
    rewrite (poolInv_setState w totalSize chunks Hwi s Hinv); [discriminate|].
    eapply poolInv_queue_elem; [exact Hinv|]. rewrite Hch. left. }
  assert (Hheld : forall c x, workers s !! k = Some (Fetching c) ->
            setState (chunkStates s) (index c) x <> None).
  { intros c x Hc.
    rewrite (poolInv_setState w totalSize chunks Hwi s Hinv); [discriminate|].
    eapply poolInv_held_elem; eauto. }
  step_cases Hstep.
  - now apply poolInv_exit.
  - eapply poolInv_take; eauto.
  - exfalso. eapply Hhead; eauto.
  - eapply poolInv_fail; eauto.
  - exfalso. eapply (Hheld c); eauto.
  - eapply poolInv_done; eauto.
  - exfalso. eapply (Hheld c); eauto.
  - eapply poolInv_fail; eauto.
  - exfalso. eapply (Hheld c); eauto.
Qed.

Lemma poolInv_init (w : world) (totalSize : Z) (chunks : list chunk) (n : nat) :
  wellIndexed chunks -> poolInv w totalSize chunks (initPool chunks n totalSize).
Proof.
  intros Hwi. exists [], []. simpl.
  rewrite inflight_replicate_idle, failedCount_replicate_idle, length_replicate.
  rewrite !app_nil_r.
  split; [reflexivity|]. split; [reflexivity|]. split; [reflexivity|].
  split.
  { apply Forall_forall. intros c Hc. apply lookup_replicate_2.
    pose proof (wellIndexed_bound _ _ Hwi Hc). unfold idx. lia. }
  split; [constructor|]. split; [constructor|]. split; [constructor|].
  split; [reflexivity|]. split; [reflexivity|].
  split.
  { intros k Hk. apply lookup_replicate in Hk as [Hk _]. discriminate. }
  intros _. split; [reflexivity | constructor].
Qed.

Lemma poolInv_run (w : world) (totalSize : Z) (chunks : list chunk) (n : nat)
    (sched : list nat) :
  wellIndexed chunks ->
  poolInv w totalSize chunks (run w sched (initPool chunks n totalSize)).
Proof.
  intros Hwi.
  apply (run_invariant w _ (step_poolInv w totalSize chunks Hwi)).
  now apply poolInv_init.
Qed.

(** With the books kept, no error was sent exactly when the progress bar
    shows no failed chunk. *)
Lemma poolInv_no_failure (w : world) (totalSize : Z) (chunks : list chunk) (s : pool) :
  wellIndexed chunks -> poolInv w totalSize chunks s ->
  (errCh s = [] <-> stateFailed ∉ chunkStates s).
Proof.
  intros Hwi (done & failed & _ & Hperm & Hlen & HQ & HI & HD & HF & Hfl & _).
  rewrite Forall_forall in HQ, HI, HD, HF.
  split.
  - intros He Hin. rewrite He in Hfl. destruct failed; [|discriminate].
    apply list_elem_of_lookup in Hin as [i Hi].
    assert (Hlt : (i < length chunks)%nat)
      by (rewrite <- Hlen; eapply lookup_lt_Some; eauto).
    apply lookup_lt_is_Some_2 in Hlt as [c Hc].
    pose proof (wellIndexed_idx _ _ _ Hwi Hc) as Hidx.
    assert (Hcin : c ∈ chunkCh s ++ inflight (workers s) ++ done ++ [])
      by (rewrite Hperm; apply list_elem_of_lookup; eauto).
    rewrite !elem_of_app in Hcin.
    destruct Hcin as [Hcin|[Hcin|[Hcin|Hcin]]];
      [apply HQ in Hcin | apply HI in Hcin | apply HD in Hcin | inversion Hcin];
      rewrite Hidx, Hi in Hcin; discriminate.
  - intros Hnot. destruct failed as [|c failed].
    + destruct (errCh s); [reflexivity | discriminate].
    + exfalso. apply Hnot. apply list_elem_of_lookup. exists (idx c).
      apply HF. left.
Qed.

(** ** The error policy of the download *)



(** ** Writes to disjoint ranges *)

Lemma pwrite_inbounds (f data : list byte) (off : nat) :
  (off + length data <= length f)%nat ->
  pwrite f data off = take off f ++ data ++ drop (off + length data) f.
Proof.
  intros Hle. unfold pwrite. destruct data as [|b data].
  - simpl. rewrite Nat.add_0_r. now rewrite take_drop.
  - replace (off - length f)%nat with 0%nat by lia. reflexivity.
Qed.

Lemma lookup_pwrite (f data : list byte) (off p : nat) :
  (off + length data <= length f)%nat ->
  pwrite f data off !! p
  = if decide (off <= p < off + length data)%nat then data !! (p - off)%nat else f !! p.
Proof.
  intros Hle. rewrite pwrite_inbounds by assumption.
  assert (Htake : length (take off f) = off) by (rewrite length_take; lia).
  case_decide as Hp.
  - rewrite lookup_app_r by lia. rewrite Htake.
    rewrite lookup_app_l by lia. reflexivity.
  - destruct (decide (p < off)%nat) as [Hlt|Hge].
    + rewrite lookup_app_l by lia. now apply lookup_take_lt.
    + rewrite lookup_app_r by lia. rewrite Htake.
      rewrite lookup_app_r by lia. rewrite lookup_drop. f_equal. lia.
Qed.

(** Two writes inside the file that do not overlap can be made in either
    order. *)
Lemma pwrite_comm (f d1 d2 : list byte) (o1 o2 : nat) :
  (o1 + length d1 <= o2)%nat -> (o2 + length d2 <= length f)%nat ->
  pwrite (pwrite f d1 o1) d2 o2 = pwrite (pwrite f d2 o2) d1 o1.
Proof.
  intros H12 H2. apply list_eq. intros p.
  rewrite !lookup_pwrite by (rewrite ?pwrite_length; lia).
  repeat case_decide; try reflexivity; lia.
Qed.

(** Folding over a permutation, for steps that commute where an invariant
    holds. *)
Lemma foldl_permutation_inv {A B : Type} (I : B -> Prop) (f : B -> A -> B)
    (l l' : list A) :
  l ≡ₚ l' ->
  (forall b a, I b -> a ∈ l -> I (f b a)) ->
  (forall b a1 a2, I b -> a1 ∈ l -> a2 ∈ l -> f (f b a1) a2 = f (f b a2) a1) ->
  forall b, I b -> foldl f b l = foldl f b l'.
Proof.
  induction 1 as [|x l l' Hp IH|x y l|l l' l'' Hp1 IH1 Hp2 IH2];
    intros Hkeep Hcomm b Hb.
  - reflexivity.
  - simpl. apply IH.
    + intros b' a Hb' Ha. apply Hkeep; [exact Hb' | now right].
    + intros b' a1 a2 Hb' H1 H2. apply Hcomm; [exact Hb' | now right | now right].
    + apply Hkeep; [exact Hb | left].
  - simpl. f_equal. apply Hcomm; [exact Hb | left | right; left].
  - rewrite (IH1 Hkeep Hcomm b Hb). apply IH2; [| |exact Hb].
    + intros b' a Hb' Ha. apply Hkeep; [exact Hb' | now rewrite Hp1].
    + intros b' a1 a2 Hb' H1 H2. apply Hcomm; [exact Hb' | now rewrite Hp1 | now rewrite Hp1].
Qed.

(** ** The file of a download without failure *)

Lemma writeChunk_succeeds (w : world) (f : list byte) (c : chunk) :
  succeeds w c ->
  0 <= start c /\
  writeChunk w f c = pwrite f (chunkData w c) (Z.to_nat (start c)).
Proof.
  intros (data & Hget & Hoff & Hdisk). split; [exact Hoff|].
  unfold writeChunk, chunkData, WriteAt. rewrite Hget.
  destruct (Z.ltb_spec (start c) 0); [lia|]. simpl.
  rewrite Nat.min_r by lia. now rewrite take_ge by lia.
Qed.

Lemma chunkData_fits (w : world) (c : chunk) :
  conforming w -> succeeds w c ->
  Z.of_nat (length (chunkData w c)) <= end_ c - start c + 1.
Proof.
  intros Hconf (data & Hget & _). unfold chunkData. rewrite Hget.
  now apply Hconf.
Qed.

(** In a plan all of whose chunks go through, with a service that keeps to
    the ranges, the bytes of an earlier chunk end where a later chunk
    starts, or before. *)
Lemma plan_regions_sorted (w : world) (totalSize : Z) (chunks : list chunk) :
  planShape totalSize chunks -> conforming w -> Forall (succeeds w) chunks ->
  forall (gap j : nat) c c',
    chunks !! j = Some c -> chunks !! (j + S gap)%nat = Some c' ->
    start c + Z.of_nat (length (chunkData w c)) <= start c'.
Proof.
  intros [_ Hadj] Hconf Hall. rewrite Forall_forall in Hall.
  assert (Hnext : forall j c c', chunks !! j = Some c -> chunks !! S j = Some c' ->
            start c + Z.of_nat (length (chunkData w c)) <= start c').
  { intros j c c' Hj Hj'.
    assert (Hc : succeeds w c) by (apply Hall, list_elem_of_lookup; eauto).
    assert (Hc' : succeeds w c') by (apply Hall, list_elem_of_lookup; eauto).
    pose proof (chunkData_fits w c Hconf Hc).
    destruct Hc' as (_ & _ & Hoff & _).
    pose proof (Hadj j c c' Hj Hj' Hoff). lia. }
  induction gap as [|gap IH]; intros j c c' Hj Hj'.
  - replace (j + 1)%nat with (S j) in Hj' by lia. eauto.
  - assert (Hmid : is_Some (chunks !! (j + S gap)%nat)).
    { apply lookup_lt_is_Some. apply lookup_lt_Some in Hj'. lia. }
    destruct Hmid as [c'' Hmid].
    pose proof (IH j c c'' Hj Hmid).
    replace (j + S (S gap))%nat with (S (j + S gap)) in Hj' by lia.
    pose proof (Hnext _ _ _ Hmid Hj'). lia.
Qed.

Lemma finished_no_failure_exited (ws : list worker) :
  forallb stopped ws = true -> failedCount ws = 0%nat ->
  Forall (fun wk => wk = Exited) ws.
Proof.
  induction ws as [|wk ws IH]; [constructor|].
  rewrite failedCount_cons. simpl. intros Hst Hfc.
  apply andb_prop in Hst as [Hwk Hws].
  destruct wk; try discriminate; simpl in Hfc; try lia.
  constructor; [reflexivity | apply IH; [exact Hws | lia]].
Qed.

Lemma planShape_wellIndexed (totalSize : Z) (chunks : list chunk) :
  planShape totalSize chunks -> wellIndexed chunks.
Proof. intros [Hidx _] j c Hj. now destruct (Hidx j c Hj). Qed.

(** The file a download without failure leaves is the zero file of the
    object's size with the chunks of the plan written to it in the order
    of the plan, however the workers were scheduled. *)
Lemma download_success_file (w : world) (totalSize : Z) (chunks : list chunk)
    (n : nat) (sched : list nat) :
  conforming w -> 0 <= totalSize -> planShape totalSize chunks -> (1 <= n)%nat ->
  let s := run w sched (initPool chunks n totalSize) in
  finished s = true -> errCh s = [] ->
  file s = foldl (writeChunk w) (replicate (Z.to_nat totalSize) x00) chunks.
Proof.
  intros Hconf Htotal Hshape Hn s Hfin Herr.
  pose proof (planShape_wellIndexed _ _ Hshape) as Hwi.
  destruct (poolInv_run w totalSize chunks n sched Hwi)
    as (done & failed & _ & Hperm & _ & _ & _ & _ & _ & Hfl & Hfc & Hex & Hfile).
  fold s in Hperm, Hfl, Hfc, Hex, Hfile.
  rewrite Herr in Hfl, Hfc. destruct failed; [|discriminate].
  destruct (Hfile Herr) as [Hf Hsucc]. clear Hfile.
  (* every worker has returned, the channel being drained *)
  pose proof (finished_no_failure_exited _ Hfin Hfc) as Hall.
  assert (Hlen : length (workers s) = n)
    by (apply workers_length; simpl; apply length_replicate).
  destruct (workers s) as [|wk ws] eqn:Hws; [simpl in Hlen; lia|].
  inversion Hall as [|? ? Hwk _]; subst wk.
  assert (Hq : chunkCh s = []) by (apply (Hex 0%nat); reflexivity).
  unfold finished in Hfin. rewrite Hws in Hfin.
  rewrite Hq, (inflight_finished _ Hfin), app_nil_r in Hperm. simpl in Hperm.
  (* the order of the writes does not matter *)
  rewrite Hf.
  assert (Hsucc' : forall c, c ∈ done -> succeeds w c)
    by (now apply Forall_forall).
  assert (Hin : forall c, c ∈ done ->
            0 <= start c /\
            start c + Z.of_nat (length (chunkData w c)) <= totalSize).
  { intros c Hc. pose proof (Hsucc' c Hc) as Hs.
    pose proof (chunkData_fits w c Hconf Hs).
    destruct (writeChunk_succeeds w [] c Hs) as [Hoff _].
    rewrite Hperm in Hc. apply list_elem_of_lookup in Hc as [j Hj].
    destruct Hshape as [Hidx _]. destruct (Hidx j c Hj) as [_ Hend]. lia. }
  apply (foldl_permutation_inv
           (fun f => Z.of_nat (length f) = totalSize) (writeChunk w) done chunks Hperm).
  - intros f c Hf' Hc.
    destruct (writeChunk_succeeds w f c (Hsucc' c Hc)) as [_ ->].
    destruct (Hin c Hc). rewrite pwrite_length; lia.
  - intros f c1 c2 Hf' Hc1 Hc2.
    destruct (writeChunk_succeeds w f c1 (Hsucc' c1 Hc1)) as [_ H1].
    destruct (writeChunk_succeeds w f c2 (Hsucc' c2 Hc2)) as [_ H2].
    destruct (writeChunk_succeeds w (writeChunk w f c1) c2 (Hsucc' c2 Hc2)) as [_ ->].
    destruct (writeChunk_succeeds w (writeChunk w f c2) c1 (Hsucc' c1 Hc1)) as [_ ->].
    rewrite H1, H2.
    destruct (Hin c1 Hc1) as [Hs1 He1]. destruct (Hin c2 Hc2) as [Hs2 He2].
    assert (Hsc : Forall (succeeds w) chunks) by (now rewrite <- Hperm).
    pose proof (plan_regions_sorted w totalSize chunks Hshape Hconf Hsc) as Hsorted.
    pose proof Hc1 as Hj1. pose proof Hc2 as Hj2.
    rewrite Hperm in Hj1, Hj2.
    apply list_elem_of_lookup in Hj1 as [j1 Hj1].
    apply list_elem_of_lookup in Hj2 as [j2 Hj2].
    destruct (lt_eq_lt_dec j1 j2) as [[Hlt|Heq]|Hgt].
    + pose proof (Hsorted (j2 - j1 - 1)%nat j1 c1 c2 Hj1) as Hs.
      replace (j1 + S (j2 - j1 - 1))%nat with j2 in Hs by lia.
      specialize (Hs Hj2). apply pwrite_comm; lia.
    + subst j2. rewrite Hj1 in Hj2. inversion Hj2; subst c2. reflexivity.
    + pose proof (Hsorted (j1 - j2 - 1)%nat j2 c2 c1 Hj2) as Hs.
      replace (j2 + S (j1 - j2 - 1))%nat with j1 in Hs by lia.
      specialize (Hs Hj1). symmetry. apply pwrite_comm; lia.
  - rewrite length_replicate. lia.
Qed.

(** C8 (amended): when the storage service answers no ranged read with
    more bytes than the range has, two downloads of the same object with
    the same chunk size that both return nil leave byte-identical files,
    whatever their concurrency (at least 1; in particular 1 and 8) and
    however their workers were scheduled. *)
Theorem download_concurrency_invariant :
  forall (fuel1 fuel2 : nat) (sched1 sched2 : list nat) (w : world)
         (chunkSize conc1 conc2 : Z) (s1 s2 : pool) (meta : S3ops.ObjectMetadata),
    conforming w ->
    S3ops.HeadObjectMeta (headObject w) = Ok meta ->
    S3ops.Size meta <= max_int64 ->
    1 <= conc1 -> 1 <= conc2 ->
    download fuel1 sched1 w {| chunkSize := chunkSize; concurrency := conc1 |}
    = (Returned None, Some s1) ->
    download fuel2 sched2 w {| chunkSize := chunkSize; concurrency := conc2 |}
    = (Returned None, Some s2) ->
    file s1 = file s2.
Proof.
  intros fuel1 fuel2 sched1 sched2 w cs conc1 conc2 s1 s2 meta
    Hconf Hhead Hmax Hc1 Hc2 Hrun1 Hrun2.
  destruct (download_started _ _ _ _ _ _ _ Hhead Hrun1)
    as (Hpos & _ & chunks1 & Hplan1 & Hany1).
  destruct (download_started _ _ _ _ _ _ _ Hhead Hrun2)
    as (_ & _ & chunks2 & Hplan2 & Hany2).
  destruct (download_started_pool _ _ _ _ _ _ _ _ Hany1 Hrun1) as [Hs1 Hout1].
  destruct (download_started_pool _ _ _ _ _ _ _ _ Hany2 Hrun2) as [Hs2 Hout2].
  simpl in *.
  assert (chunks2 = chunks1) as -> by (eapply planLoop_fuel; eauto).
  pose proof (planChunks_shape _ _ _ _ (conj Hpos Hmax) Hplan1) as Hshape.
  assert (Hfile : forall conc sched s,
             1 <= conc ->
             s = run w sched (initPool chunks1 (Z.to_nat conc) (S3ops.Size meta)) ->
             Returned None = (if panicked s then Panicked
                              else if finished s then Returned (head (errCh s))
                              else OutOfFuel) ->
             file s = foldl (writeChunk w)
                        (replicate (Z.to_nat (S3ops.Size meta)) x00) chunks1).
  { intros conc sched s Hc -> Hout.
    destruct (panicked (run w sched _)); [discriminate|].
    destruct (finished (run w sched _)) eqn:Hfin; [|discriminate].
    apply (download_success_file w (S3ops.Size meta) chunks1 (Z.to_nat conc) sched
             Hconf Hpos Hshape ltac:(lia) Hfin).
    destruct (errCh (run w sched _)); [reflexivity | discriminate]. }
  rewrite (Hfile conc1 sched1 s1 Hc1 Hs1 Hout1).
  rewrite (Hfile conc2 sched2 s2 Hc2 Hs2 Hout2). reflexivity.
Qed.

Lemma download_concurrency_invariant_witness :
  let done n := {| chunkCh := []; workers := replicate n Exited;
                   file := exampleObject;
                   chunkStates := [stateDone; stateDone; stateDone];
                   downloaded := 5; errCh := []; panicked := false |} in
  download 4 [0; 0; 0; 0; 0; 0; 0]%nat rangeWorld
    {| chunkSize := 2; concurrency := 1 |} = (Returned None, Some (done 1%nat)) /\
  download 4 [0; 1; 2; 2; 1; 0; 2; 3; 4; 5; 6; 7; 0; 1; 0; 1; 2]%nat rangeWorld
    {| chunkSize := 2; concurrency := 8 |} = (Returned None, Some (done 8%nat)) /\
  file (done 1%nat) = file (done 8%nat).
Proof.
  intros done.
  assert (H1 : download 4 [0; 0; 0; 0; 0; 0; 0]%nat rangeWorld
                 {| chunkSize := 2; concurrency := 1 |}
               = (Returned None, Some (done 1%nat))) by (vm_compute; reflexivity).
  assert (H8 : download 4 [0; 1; 2; 2; 1; 0; 2; 3; 4; 5; 6; 7; 0; 1; 0; 1; 2]%nat
                 rangeWorld {| chunkSize := 2; concurrency := 8 |}
               = (Returned None, Some (done 8%nat))) by (vm_compute; reflexivity).
  assert (Hmax : 5 <= max_int64) by (vm_compute; discriminate).
  split; [exact H1|]. split; [exact H8|].
  exact (download_concurrency_invariant 4 4 _ _ rangeWorld 2 1 8 _ _
           {| S3ops.Size := 5 |} rangeWorld_conforming eq_refl Hmax
           ltac:(lia) ltac:(lia) H1 H8).
Defined.

(** C8, as stated, fails when the service sends more than it was asked
    for.  With a service that ignores the range and sends the whole
    object for every chunk, both downloads return nil, the one with one
    worker leaves ABABABCDE and one with eight workers, in which the
    chunks are written last to first, leaves ABCDEDEDE. *)
Lemma download_concurrency_matters :
  let after (n : nat) (bytes : list byte) :=
    {| chunkCh := []; workers := replicate n Exited; file := bytes;
       chunkStates := [stateDone; stateDone; stateDone];
       downloaded := 15; errCh := []; panicked := false |} in
  let file1 := [x41; x42; x41; x42; x41; x42; x43; x44; x45] in
  let file8 := [x41; x42; x43; x44; x45; x44; x45; x44; x45] in
  download 4 [0; 0; 0; 0; 0; 0; 0]%nat wholeObjectWorld
    {| chunkSize := 2; concurrency := 1 |} = (Returned None, Some (after 1%nat file1)) /\
  download 4 [0; 1; 2; 2; 1; 0; 2; 3; 4; 5; 6; 7; 0; 1; 0; 1; 2]%nat wholeObjectWorld
    {| chunkSize := 2; concurrency := 8 |} = (Returned None, Some (after 8%nat file8)) /\
  file (after 1%nat file1) <> file (after 8%nat file8).
Proof.
  intros after file1 file8.
  split; [vm_compute; reflexivity|]. split; [vm_compute; reflexivity|].
  simpl. discriminate.
Qed.

(** ** The progress bar *)

(** C6 fails for an empty object: with [totalBytes = 0] (and no byte
    downloaded) [render] computes 0/0*100, which is NaN; NaN is not greater
    than 100, so the cut at 100 leaves it, and the percentage is not
    within [0, 100]. *)
Theorem render_pct_empty_object :
  PrimFloat.is_nan (Progress.render_pct 0 0) = true /\
  Progress.pct_in_range (Progress.render_pct 0 0) = false.
Proof. split; vm_compute; reflexivity. Qed.

(** For comparison: half of a non-empty object gives 50, and more bytes
    than the object has give 100. *)
Example render_pct_half : Progress.render_pct 5242880 10485760 = 50%float.
Proof. vm_compute. reflexivity. Qed.

Example render_pct_cut : Progress.render_pct 15 5 = 100%float.
Proof. vm_compute. reflexivity. Qed.

(** ** Strings and S3 URIs *)

Lemma sliceTo_app (a b : string) :
  Strings.sliceTo (a ++ b) (String.length a) = a.
Proof.
  unfold Strings.sliceTo. induction a as [|c a IH]; simpl.
  - now destruct b.
  - now rewrite IH.
Qed.

Lemma substring_skip (a b : string) (n : nat) :
  String.substring (String.length a) n (a ++ b) = String.substring 0 n b.
Proof. induction a as [|c a IH]; simpl; [reflexivity | exact IH]. Qed.

Lemma substring_all (s : string) : String.substring 0 (String.length s) s = s.
Proof. induction s as [|c s IH]; simpl; [reflexivity | now rewrite IH]. Qed.

Lemma string_length_app (a b : string) :
  String.length (a ++ b) = (String.length a + String.length b)%nat.
Proof. induction a as [|c a IH]; simpl; [reflexivity | now rewrite IH]. Qed.

Lemma sliceFrom_app (a b : string) :
  Strings.sliceFrom (a ++ b) (String.length a) = b.
Proof.
  unfold Strings.sliceFrom. rewrite substring_skip, string_length_app.
  replace (String.length a + String.length b - String.length a)%nat
    with (String.length b) by lia.
  apply substring_all.
Qed.

Lemma slice_split (s : string) (n : nat) :
  (n <= String.length s)%nat ->
  s = (Strings.sliceTo s n ++ Strings.sliceFrom s n)%string /\
  String.length (Strings.sliceTo s n) = n.
Proof.
  unfold Strings.sliceTo, Strings.sliceFrom. revert n.
  induction s as [|c s IH]; intros [|n] Hn; simpl in *; try lia.
  - auto.
  - split; [|reflexivity]. now rewrite substring_all.
  - destruct (IH n ltac:(lia)) as [H1 H2]. simpl. rewrite H2.
    split; [|reflexivity]. rewrite H1 at 1. reflexivity.
Qed.

Lemma HasPrefix_spec (s prefix : string) :
  Strings.HasPrefix s prefix = true <-> exists rest, s = (prefix ++ rest)%string.
Proof.
  unfold Strings.HasPrefix. rewrite andb_true_iff, Nat.leb_le, String.eqb_eq. split.
  - intros [Hlen Heq].
    destruct (slice_split s (String.length prefix) Hlen) as [Hs _].
    rewrite Heq in Hs. eauto.
  - intros [rest ->]. rewrite string_length_app, sliceTo_app. split; [lia | reflexivity].
Qed.

Lemma TrimPrefix_app (prefix rest : string) :
  Strings.TrimPrefix (prefix ++ rest) prefix = rest.
Proof.
  unfold Strings.TrimPrefix.
  assert (H : Strings.HasPrefix (prefix ++ rest) prefix = true)
    by (apply HasPrefix_spec; eauto).
  rewrite H. apply sliceFrom_app.
Qed.

Lemma hasByte_cons (c a : ascii) (s : string) :
  hasByte c (String a s) <-> a = c \/ hasByte c s.
Proof. reflexivity. Qed.

Lemma hasByte_app (c : ascii) (a b : string) :
  hasByte c (a ++ b) <-> hasByte c a \/ hasByte c b.
Proof.
  unfold hasByte. induction a as [|x a IH]; simpl; [tauto|]. rewrite IH. tauto.
Qed.

Lemma IndexByte_none (s : string) (c : ascii) :
  Strings.IndexByte s c = -1 <-> ~ hasByte c s.
Proof.
  induction s as [|a s IH]; simpl.
  - split; [intros _ []|reflexivity].
  - rewrite hasByte_cons. destruct (Ascii.eqb_spec a c) as [->|Hne].
    + split; [discriminate | intros H; exfalso; apply H; now left].
    + destruct (Z.eqb_spec (Strings.IndexByte s c) (-1)) as [He|He].
      * split; [intros _ [?|?]; [congruence | now apply IH] | reflexivity].
      * assert (0 <= Strings.IndexByte s c \/ Strings.IndexByte s c = -1) as [?|?].
        { clear. induction s as [|a s IH]; simpl; [now right|].
          destruct (Ascii.eqb a c); [left; lia|].
          destruct (Z.eqb_spec (Strings.IndexByte s c) (-1)); [now right | left; lia]. }
        -- split; [lia|]. intros Hno. exfalso. apply He, IH. tauto.
        -- contradiction.
Qed.

(** The first [c] of a string that has one. *)
Lemma IndexByte_app (a b : string) (c : ascii) :
  ~ hasByte c a ->
  Strings.IndexByte (a ++ String c b) c = Z.of_nat (String.length a).
Proof.
  induction a as [|x a IH]; intros Hno; simpl.
  - now rewrite Ascii.eqb_refl.
  - rewrite hasByte_cons in Hno.
    destruct (Ascii.eqb_spec x c) as [->|_]; [tauto|].
    rewrite IH by tauto.
    destruct (Z.eqb_spec (Z.of_nat (String.length a)) (-1)); lia.
Qed.

Lemma IndexByte_found (s : string) (c : ascii) :
  Strings.IndexByte s c <> -1 ->
  exists a b, s = (a ++ String c b)%string /\ ~ hasByte c a /\
              Strings.IndexByte s c = Z.of_nat (String.length a).
Proof.
  induction s as [|x s IH]; simpl; [congruence|].
  destruct (Ascii.eqb_spec x c) as [->|Hne].
  - intros _. exists ""%string, s. split; [reflexivity|]. split; [intros []|reflexivity].
  - destruct (Z.eqb_spec (Strings.IndexByte s c) (-1)) as [|He]; [congruence|].
    intros _. destruct (IH He) as (a & b & -> & Hno & Hi).
    exists (String x a), b. split; [reflexivity|].
    split; [rewrite hasByte_cons; tauto|]. rewrite Hi. simpl. lia.
Qed.

Lemma sliceFrom_app_cons (a b : string) (c : ascii) :
  Strings.sliceFrom (a ++ String c b) (Z.to_nat (Z.of_nat (String.length a) + 1)) = b.
Proof.
  replace (Z.to_nat (Z.of_nat (String.length a) + 1))
    with (String.length (a ++ String c "")) by (rewrite string_length_app; simpl; lia).
  replace (a ++ String c b)%string with ((a ++ String c "") ++ b)%string
    by (now rewrite string_append_assoc).
  apply sliceFrom_app.
Qed.

(** What [Parse] does with a string that starts with [s3://] and has a
    [/] after it. *)
Lemma Parse_shape (bucket key : string) :
  ~ hasByte "/" bucket ->
  S3uri.Parse ("s3://" ++ bucket ++ "/" ++ key)
  = if String.eqb bucket "" then
      (""%string, ""%string,
       Some (S3uri.ErrEmptyBucket ("s3://" ++ bucket ++ "/" ++ key)))
    else if String.eqb key "" then
      (""%string, ""%string, Some (S3uri.ErrEmptyKey ("s3://" ++ bucket ++ "/" ++ key)))
    else (bucket, key, None).
Proof.
  intros Hno. unfold S3uri.Parse.
  assert (Hp : Strings.HasPrefix ("s3://" ++ bucket ++ "/" ++ key) "s3://" = true)
    by (apply HasPrefix_spec; eauto).
  rewrite Hp, TrimPrefix_app. simpl negb. cbv iota.
  change ("/" ++ key)%string with (String "/" key).
  rewrite (IndexByte_app bucket key "/" Hno).
  destruct (Z.eqb_spec (Z.of_nat (String.length bucket)) (-1)) as [|_]; [lia|].
  rewrite Nat2Z.id, sliceTo_app, sliceFrom_app_cons. reflexivity.
Qed.

(** X1: [Parse] succeeds exactly on the strings [s3://bucket/key] with a
    non-empty bucket name that has no [/] and a non-empty key, and then
    returns that bucket and that key: the key is everything after the first
    [/] that follows the scheme, further [/] included. *)
Theorem Parse_ok_iff :
  forall uri bucket key : string,
    S3uri.Parse uri = (bucket, key, None) <->
    uri = ("s3://" ++ bucket ++ "/" ++ key)%string /\
    bucket <> ""%string /\ key <> ""%string /\ ~ hasByte "/" bucket.
Proof.
  intros uri bucket key. split.
  - intros HP. unfold S3uri.Parse in HP.
    destruct (Strings.HasPrefix uri "s3://") eqn:Hp; simpl in HP; [|discriminate].
    apply HasPrefix_spec in Hp as [rest ->]. rewrite TrimPrefix_app in HP.
    destruct (Z.eqb_spec (Strings.IndexByte rest "/") (-1)) as [|Hi]; [discriminate|].
    destruct (IndexByte_found rest "/" Hi) as (a & b & -> & Hno & Hidx).
    rewrite Hidx, Nat2Z.id, sliceTo_app, sliceFrom_app_cons in HP.
    destruct (String.eqb_spec a "") as [|Ha]; [discriminate|].
    destruct (String.eqb_spec b "") as [|Hb]; [discriminate|].
    inversion HP; subst. auto.
  - intros (-> & Hb & Hk & Hno). rewrite (Parse_shape bucket key Hno).
    destruct (String.eqb_spec bucket "") as [|_]; [contradiction|].
    destruct (String.eqb_spec key "") as [|_]; [contradiction|]. reflexivity.
Qed.

(** X2: a URI that names a bucket and no key is rejected, with or without
    a [/] at its end; so is one without a bucket name, and one that does not
    start with [s3://]; and whenever [Parse] returns an error, the bucket
    and the key it returns are empty. *)
Theorem Parse_rejects :
  (forall bucket, ~ hasByte "/" bucket ->
     S3uri.Parse ("s3://" ++ bucket)
     = (""%string, ""%string, Some (S3uri.ErrNoKey ("s3://" ++ bucket)))) /\
  (forall bucket, bucket <> ""%string -> ~ hasByte "/" bucket ->
     S3uri.Parse ("s3://" ++ bucket ++ "/")
     = (""%string, ""%string, Some (S3uri.ErrEmptyKey ("s3://" ++ bucket ++ "/")))) /\
  (forall key,
     S3uri.Parse ("s3:///" ++ key)
     = (""%string, ""%string, Some (S3uri.ErrEmptyBucket ("s3:///" ++ key)))) /\
  (forall uri, (forall rest, uri <> ("s3://" ++ rest)%string) ->
     S3uri.Parse uri = (""%string, ""%string, Some (S3uri.ErrScheme uri))) /\
  (forall uri bucket key e,
     S3uri.Parse uri = (bucket, key, Some e) -> bucket = ""%string /\ key = ""%string).
Proof.
  split; [|split; [|split; [|split]]].
  - intros bucket Hno. unfold S3uri.Parse.
    assert (Hp : Strings.HasPrefix ("s3://" ++ bucket) "s3://" = true)
      by (apply HasPrefix_spec; eauto).
    rewrite Hp, TrimPrefix_app. simpl negb. cbv iota.
    apply IndexByte_none in Hno. now rewrite Hno.
  - intros bucket Hb Hno.
    pose proof (Parse_shape bucket "" Hno) as H.
    destruct (String.eqb_spec bucket "") as [|_]; [contradiction|]. exact H.
  - intros key. exact (Parse_shape "" key ltac:(intros [])).
  - intros uri Hno. unfold S3uri.Parse.
    destruct (Strings.HasPrefix uri "s3://") eqn:Hp; [|reflexivity].
    apply HasPrefix_spec in Hp as [rest ->]. now destruct (Hno rest).
  - intros uri bucket key e HP. unfold S3uri.Parse in HP.
    destruct (negb _); [now inversion HP|].
    destruct (_ =? -1); [now inversion HP|].
    destruct (String.eqb _ ""); [now inversion HP|].
    destruct (String.eqb _ ""); [now inversion HP | discriminate].
Qed.

(** ** The client factory: its cache *)

(** A string is cut at the first occurrence of a byte in one way only. *)
Lemma first_byte_unique (c : ascii) (a a' b b' : string) :
  ~ hasByte c a -> ~ hasByte c a' ->
  (a ++ String c b)%string = (a' ++ String c b')%string -> a = a' /\ b = b'.
Proof.
  revert a'. induction a as [|x a IH]; intros [|x' a'] Ha Ha' Heq;
    rewrite ?hasByte_cons in *; simpl in Heq.
  - inversion Heq. auto.
  - inversion Heq; subst. tauto.
  - inversion Heq; subst. tauto.
  - inversion Heq; subst. destruct (IH a') as [-> ->]; auto.
Qed.

(** X3: the cache key tells apart any two sets of options whose profile
    and region have no [|] in them. *)
Theorem cacheKey_injective :
  forall o1 o2 : S3client.Options,
    ~ hasByte "|" (S3client.Profile o1) -> ~ hasByte "|" (S3client.Region o1) ->
    ~ hasByte "|" (S3client.Profile o2) -> ~ hasByte "|" (S3client.Region o2) ->
    S3client.cacheKey o1 = S3client.cacheKey o2 -> o1 = o2.
Proof.
  intros [r1 p1 e1] [r2 p2 e2]. unfold S3client.cacheKey. simpl.
  intros Hp1 Hr1 Hp2 Hr2 Heq.
  change (p1 ++ String "|" (r1 ++ String "|" e1) = p2 ++ String "|" (r2 ++ String "|" e2))%string
    in Heq.
  apply first_byte_unique in Heq as [-> Heq]; [|assumption..].
  apply first_byte_unique in Heq as [-> ->]; [|assumption..].
  reflexivity.
Qed.

Lemma cacheKey_injective_witness :
  let o := {| S3client.Region := "eu-west-1"; S3client.Profile := "prod";
              S3client.Endpoint := "http://localhost:9000|x" |} in
  S3client.cacheKey o = "prod|eu-west-1|http://localhost:9000|x"%string /\ o = o.
Proof.
  intros o. split; [reflexivity|].
  apply (cacheKey_injective o o); try reflexivity;
    (intros H; vm_compute in H; intuition discriminate).
Defined.

(** X4: with a [|] in the profile or the region two different sets of
    options have the same key, and the cache cannot tell them apart: once a
    client is cached for profile [a|b] and region [c], a call of
    [GetClient] for profile [a] and region [b|c] returns that client
    without loading any configuration. *)
Theorem cacheKey_collision :
  forall (Load Load' : S3client.Options -> result string) (f f' : S3client.Factory)
         (a b c e : string) (client : S3client.Client),
    S3client.GetClient Load f
      {| S3client.Region := c; S3client.Profile := (a ++ "|" ++ b)%string;
         S3client.Endpoint := e |} = (f', Ok client) ->
    S3client.GetClient Load' f'
      {| S3client.Region := (b ++ "|" ++ c)%string; S3client.Profile := a;
         S3client.Endpoint := e |} = (f', Ok client).
Proof.
  intros Load Load' f f' a b c e client H.
  unfold S3client.GetClient, S3client.cacheKey in *. simpl in *.
  assert (Hkey : (a ++ "|" ++ (b ++ "|" ++ c) ++ "|" ++ e)%string
                 = ((a ++ "|" ++ b) ++ "|" ++ c ++ "|" ++ e)%string).
  { rewrite !string_append_assoc. reflexivity. }
  rewrite Hkey.
  destruct (S3client.clients f !! _) as [c0|] eqn:Hc.
  - inversion H; subst. now rewrite Hc.
  - destruct (Load _) as [cfg|err]; [|discriminate].
    inversion H; subst. simpl. now rewrite lookup_insert_eq.
Qed.

Lemma cacheKey_collision_witness :
  let Load := fun o : S3client.Options => Ok (S3client.Profile o) in
  let Load' := fun _ : S3client.Options => Err (EService "no such profile") in
  let o1 := {| S3client.Region := "c"; S3client.Profile := "a|b";
               S3client.Endpoint := "" |} in
  let o2 := {| S3client.Region := "b|c"; S3client.Profile := "a";
               S3client.Endpoint := "" |} in
  let client := S3client.NewFromConfig "a|b" [] in
  let f' := {| S3client.clients := <[ "a|b|c|"%string := client ]> ∅ |} in
  S3client.GetClient Load S3client.NewFactory o1 = (f', Ok client) /\
  S3client.GetClient Load' f' o2 = (f', Ok client).
Proof.
  intros Load Load' o1 o2 client f'.
  assert (H : S3client.GetClient Load S3client.NewFactory o1 = (f', Ok client))
    by reflexivity.
  split; [exact H|].
  exact (cacheKey_collision Load Load' S3client.NewFactory f' "a" "b" "c" "" client H).
Defined.

(** X5: a client built by [GetClientWithOptions] is handed out by
    [GetClient] too, options included, when the endpoint asked for is the
    other endpoint followed by [|custom]. *)
Theorem custom_client_leaks :
  forall (Load Load' : S3client.Options -> result string) (f f' : S3client.Factory)
         (opts : S3client.Options) (clientOpts : list S3client.ClientOption)
         (client : S3client.Client),
    S3client.GetClientWithOptions Load f opts clientOpts = (f', Ok client) ->
    S3client.GetClient Load' f'
      {| S3client.Region := S3client.Region opts;
         S3client.Profile := S3client.Profile opts;
         S3client.Endpoint := (S3client.Endpoint opts ++ "|custom")%string |}
    = (f', Ok client).
Proof.
  intros Load Load' f f' opts co client H.
  unfold S3client.GetClientWithOptions, S3client.GetClient, S3client.cacheKey in *.
  simpl in *.
  assert (Hkey : (S3client.Profile opts ++ "|" ++ S3client.Region opts ++ "|"
                    ++ S3client.Endpoint opts ++ "|custom")%string
                 = ((S3client.Profile opts ++ "|" ++ S3client.Region opts ++ "|"
                       ++ S3client.Endpoint opts) ++ "|custom")%string).
  { rewrite !string_append_assoc. reflexivity. }
  rewrite Hkey.
  destruct (S3client.clients f !! _) as [c0|] eqn:Hc.
  - inversion H; subst. now rewrite Hc.
  - destruct (Load opts) as [cfg|err]; [|discriminate].
    inversion H; subst. simpl. now rewrite lookup_insert_eq.
Qed.

Lemma custom_client_leaks_witness :
  let Load := fun _ : S3client.Options => Ok "cfg"%string in
  let opts := {| S3client.Region := "eu"; S3client.Profile := "p";
                 S3client.Endpoint := "http://minio" |} in
  let client := S3client.NewFromConfig "cfg" [S3client.WithPathStyle true] in
  let f' := {| S3client.clients := <[ "p|eu|http://minio|custom"%string := client ]> ∅ |} in
  S3client.GetClientWithOptions Load S3client.NewFactory opts
    [S3client.WithPathStyle true] = (f', Ok client) /\
  S3client.GetClient Load f'
    {| S3client.Region := "eu"; S3client.Profile := "p";
       S3client.Endpoint := "http://minio|custom" |} = (f', Ok client) /\
  S3client.UsePathStyle (S3client.clientOptions client) = true.
Proof.
  intros Load opts client f'.
  assert (H : S3client.GetClientWithOptions Load S3client.NewFactory opts
                [S3client.WithPathStyle true] = (f', Ok client)) by reflexivity.
  split; [exact H|]. split; [|reflexivity].
  exact (custom_client_leaks Load Load S3client.NewFactory f' opts
           [S3client.WithPathStyle true] client H).
Defined.

(** X6: [GetClient] loads a configuration once per key.  After a call
    that returned a client, every later call with the same options returns
    that client and leaves the cache as it is, whatever loading the
    configuration would give by then; the call changed no other entry of
    the cache; and a call that fails caches nothing, so that the next call
    loads again. *)
Theorem get_client_caches :
  forall (Load : S3client.Options -> result string) (f f' : S3client.Factory)
         (opts : S3client.Options) (r : result S3client.Client),
    S3client.GetClient Load f opts = (f', r) ->
    (forall key, key <> S3client.cacheKey opts ->
                 S3client.clients f' !! key = S3client.clients f !! key) /\
    (forall client, r = Ok client ->
       S3client.clients f' !! S3client.cacheKey opts = Some client /\
       forall Load', S3client.GetClient Load' f' opts = (f', Ok client)) /\
    (forall e, r = Err e ->
       f' = f /\
       exists cause, Load opts = Err cause /\
                     e = EWrap "failed to load AWS config" cause /\
       forall Load' awsCfg, Load' opts = Ok awsCfg ->
         snd (S3client.GetClient Load' f' opts) = Ok (S3client.NewFromConfig awsCfg [])).
Proof.
  intros Load f f' opts r H. unfold S3client.GetClient in *.
  destruct (S3client.clients f !! S3client.cacheKey opts) as [c0|] eqn:Hc.
  - inversion H; subst. split; [reflexivity|]. split; [|discriminate].
    intros client Hcl. inversion Hcl; subst. split; [exact Hc|].
    intros Load'. now rewrite Hc.
  - destruct (Load opts) as [cfg|cause] eqn:HL; inversion H; subst; clear H.
    + split; [intros key Hne; simpl; now rewrite lookup_insert_ne|].
      split; [|discriminate].
      intros client Hcl. inversion Hcl; subst. simpl. rewrite lookup_insert_eq.
      split; [reflexivity|]. reflexivity.
    + split; [reflexivity|]. split; [discriminate|].
      intros e He. inversion He; subst. split; [reflexivity|].
      exists cause. split; [reflexivity|]. split; [reflexivity|].
      intros Load' awsCfg HL'. now rewrite Hc, HL'.
Qed.

Lemma get_client_caches_witness :
  let Load := fun _ : S3client.Options => Ok "cfg"%string in
  let opts := {| S3client.Region := "eu"; S3client.Profile := "p";
                 S3client.Endpoint := "" |} in
  let client := S3client.NewFromConfig "cfg" [] in
  let f' := {| S3client.clients := <[ "p|eu|"%string := client ]> ∅ |} in
  S3client.GetClient Load S3client.NewFactory opts = (f', Ok client) /\
  S3client.GetClient (fun _ => Err (EService "expired")) f' opts = (f', Ok client).
Proof.
  intros Load opts client f'.
  assert (H : S3client.GetClient Load S3client.NewFactory opts = (f', Ok client))
    by reflexivity.
  split; [exact H|].
  destruct (get_client_caches Load S3client.NewFactory f' opts (Ok client) H)
    as (_ & Hhit & _).
  exact (proj2 (Hhit client eq_refl) _).
Defined.

(** ** Object metadata from the command line *)

Lemma Split_nonempty (s : string) (sep : ascii) : Strings.Split s sep <> [].
Proof.
  induction s as [|a s IH]; simpl; [discriminate|].
  destruct (Ascii.eqb a sep); [discriminate|].
  destruct (Strings.Split s sep); discriminate.
Qed.

Lemma Split_no_sep (s : string) (sep : ascii) :
  ~ hasByte sep s -> Strings.Split s sep = [s].
Proof.
  induction s as [|a s IH]; intros Hno; simpl; [reflexivity|].
  rewrite hasByte_cons in Hno.
  destruct (Ascii.eqb_spec a sep) as [->|_]; [tauto|].
  rewrite IH by tauto. reflexivity.
Qed.

Lemma Split_app (a b : string) (sep : ascii) :
  ~ hasByte sep a ->
  Strings.Split (a ++ String sep b) sep = a :: Strings.Split b sep.
Proof.
  induction a as [|x a IH]; intros Hno; simpl.
  - now rewrite Ascii.eqb_refl.
  - rewrite hasByte_cons in Hno.
    destruct (Ascii.eqb_spec x sep) as [->|_]; [tauto|].
    rewrite IH by tauto. reflexivity.
Qed.

(** Cutting a joined text gives the fields back. *)
Lemma Split_joinWith (sep : ascii) (l : list string) :
  l <> [] -> Forall (fun s => ~ hasByte sep s) l ->
  Strings.Split (joinWith sep l) sep = l.
Proof.
  induction l as [|s l IH]; intros Hne Hall; [contradiction|].
  inversion Hall as [|? ? Hs Hl]; subst.
  destruct l as [|s' l].
  - simpl. now apply Split_no_sep.
  - change (joinWith sep (s :: s' :: l))
      with (s ++ String sep (joinWith sep (s' :: l)))%string.
    rewrite Split_app by assumption. f_equal. apply IH; [discriminate | assumption].
Qed.

(** The fields of a text have no separator in them. *)
Lemma Split_fields (s : string) (sep : ascii) :
  Forall (fun field => ~ hasByte sep field) (Strings.Split s sep).
Proof.
  induction s as [|a s IH]; simpl.
  - constructor; [intros []|constructor].
  - destruct (Ascii.eqb_spec a sep) as [->|Hne].
    + constructor; [intros []|exact IH].
    + destruct (Strings.Split s sep) as [|field fields]; inversion IH; subst.
      * constructor; [|constructor]. rewrite hasByte_cons. intros [?|[]]. congruence.
      * constructor; [|assumption]. rewrite hasByte_cons. intros [?|?]; [congruence|tauto].
Qed.

Lemma SplitN2_pair (k v : string) (sep : ascii) :
  ~ hasByte sep k -> Strings.SplitN2 (k ++ String sep v) sep = [k; v].
Proof.
  intros Hno. unfold Strings.SplitN2. rewrite IndexByte_app by assumption.
  destruct (Z.eqb_spec (Z.of_nat (String.length k)) (-1)) as [|_]; [lia|].
  now rewrite Nat2Z.id, sliceTo_app, sliceFrom_app_cons.
Qed.

Lemma SplitN2_inv (s k v : string) (sep : ascii) :
  Strings.SplitN2 s sep = [k; v] -> s = (k ++ String sep v)%string /\ ~ hasByte sep k.
Proof.
  unfold Strings.SplitN2. intros H.
  destruct (Z.eqb_spec (Strings.IndexByte s sep) (-1)) as [|Hi]; [discriminate|].
  destruct (IndexByte_found s sep Hi) as (a & b & -> & Hno & Hidx).
  rewrite Hidx, Nat2Z.id, sliceTo_app, sliceFrom_app_cons in H.
  inversion H; subst. auto.
Qed.

Lemma hasByte_app_cons (c sep : ascii) (a b : string) :
  hasByte c (a ++ String sep b) <-> hasByte c a \/ sep = c \/ hasByte c b.
Proof. rewrite hasByte_app, hasByte_cons. tauto. Qed.

(** X7: [parseMetadata] reads back what was written as
    KEY=VALUE,KEY=VALUE,...: for keys without [,] and [=] and values
    without [,] (a value may contain [=]), the map has exactly the pairs
    of the list, the later pair winning where a key is given twice. *)
Theorem parseMetadata_round_trip :
  forall l : list (string * string),
    Forall (fun kv => ~ hasByte "," kv.1 /\ ~ hasByte "=" kv.1 /\ ~ hasByte "," kv.2) l ->
    UploadRun.parseMetadata (encodeMetadata l) = list_to_map (reverse l).
Proof.
  intros l Hl. unfold UploadRun.parseMetadata, encodeMetadata.
  destruct l as [|kv l]; [reflexivity|].
  set (fields := (fun kv => (kv.1 ++ String "=" kv.2)%string) <$> (kv :: l)).
  assert (Hne : fields <> []) by discriminate.
  assert (Hf : Forall (fun s => ~ hasByte "," s) fields).
  { apply Forall_fmap. eapply Forall_impl; [exact Hl|].
    intros [k v] (Hk & _ & Hv). simpl in *. rewrite hasByte_app_cons.
    intros [?|[?|?]]; [tauto | discriminate | tauto]. }
  assert (Hnonempty : joinWith "," fields <> ""%string).
  { intros He. pose proof (Split_joinWith "," fields Hne Hf) as Hs.
    rewrite He in Hs. simpl in Hs. unfold fields in Hs. rewrite fmap_cons in Hs.
    inversion Hs as [[H0 H1]]. destruct (kv.1); discriminate. }
  destruct (String.eqb_spec (joinWith "," fields) "") as [|_]; [contradiction|].
  rewrite Split_joinWith by assumption.
  unfold fields. clear fields Hne Hf Hnonempty.
  generalize (kv :: l) Hl. clear kv l Hl. intros l Hl.
  rewrite <- (reverse_involutive l) at 1.
  assert (Hr : Forall (fun kv => ~ hasByte "," kv.1 /\ ~ hasByte "=" kv.1
                                 /\ ~ hasByte "," kv.2) (reverse l))
    by (now apply Forall_reverse).
  induction (reverse l) as [|[k v] r IH]; [reflexivity|].
  inversion Hr as [|? ? (_ & Hk & _) Hr']; subst.
  rewrite reverse_cons, fmap_app, foldl_app. simpl.
  rewrite SplitN2_pair by assumption. now rewrite IH.
Qed.

Lemma parseMetadata_round_trip_witness :
  UploadRun.parseMetadata "owner=ops,expr=a=b,owner=dev"
  = list_to_map [("owner", "dev"); ("expr", "a=b"); ("owner", "ops")]%string.
Proof.
  apply (parseMetadata_round_trip
           [("owner", "ops"); ("expr", "a=b"); ("owner", "dev")]%string).
  repeat constructor; simpl; intros H; vm_compute in H; intuition discriminate.
Defined.

(** X8: every entry of the map [parseMetadata] builds comes from a field
    KEY=VALUE of the text: the field is one of those between the commas,
    and the key is what precedes its first [=].  Nothing else is in the
    map: the empty text and fields without [=] give no entry. *)
Theorem parseMetadata_entries :
  forall (s k v : string),
    UploadRun.parseMetadata s !! k = Some v ->
    (k ++ String "=" v)%string ∈ Strings.Split s "," /\
    ~ hasByte "=" k /\ ~ hasByte "," k /\ ~ hasByte "," v /\ s <> ""%string.
Proof.
  intros s k v. unfold UploadRun.parseMetadata.
  destruct (String.eqb s "") eqn:Hs; [rewrite lookup_empty; discriminate|].
  apply String.eqb_neq in Hs. intros Hlook.
  assert (Hin : (k ++ String "=" v)%string ∈ Strings.Split s "," /\ ~ hasByte "=" k).
  { revert Hlook. generalize (Strings.Split s ","). intros fields.
    induction fields as [|field r IH] using rev_ind;
      [simpl; rewrite lookup_empty; discriminate|].
    rewrite foldl_app. simpl. setoid_rewrite elem_of_app.
    setoid_rewrite list_elem_of_singleton.
    destruct (Strings.SplitN2 field "=") as [|k' [|v' [|? ?]]] eqn:Hcut;
      try (intros H; destruct (IH H); tauto).
    apply SplitN2_inv in Hcut as [-> Hk'].
    destruct (decide (k' = k)) as [->|Hne].
    - rewrite lookup_insert_eq. intros [= ->]. tauto.
    - rewrite lookup_insert_ne by assumption. intros H; destruct (IH H); tauto. }
  destruct Hin as [Hin Hk]. split; [exact Hin|]. split; [exact Hk|].
  pose proof (Split_fields s ",") as Hf. rewrite Forall_forall in Hf.
  specialize (Hf _ Hin). rewrite hasByte_app_cons in Hf.
  split; [tauto|]. split; [tauto | exact Hs].
Qed.

Lemma parseMetadata_entries_witness :
  ("expr" ++ String "=" "a=b")%string
    ∈ Strings.Split "owner=ops,expr=a=b,stray" "," /\
  UploadRun.parseMetadata "owner=ops,expr=a=b,stray" !! "stray"%string = None.
Proof.
  split; [|vm_compute; reflexivity].
  exact (proj1 (parseMetadata_entries "owner=ops,expr=a=b,stray" "expr" "a=b"
                  ltac:(vm_compute; reflexivity))).
Defined.

(** ** Durations *)

(** Rounding a duration that is not negative to the second. *)
Lemma Round_second_nonneg (d : Z) :
  0 <= d <= max_int64 - 1000000000 ->
  Duration.Round d Duration.Second = (d + 500000000) / 1000000000 * 1000000000.
Proof.
  intros Hd. unfold Duration.Round, Duration.Second, Duration.lessThanHalf, max_int64 in *.
  change (1000000000 <=? 0) with false. cbv iota.
  destruct (Z.ltb_spec d 0) as [|_]; [lia|].
  rewrite Z.rem_mod_nonneg by lia.
  pose proof (Z.mod_pos_bound d 1000000000 ltac:(lia)) as Hr.
  pose proof (Z.div_mod d 1000000000 ltac:(lia)) as Hdm.
  set (r := d mod 1000000000) in *. set (q := d / 1000000000) in *.
  rewrite (Z.mod_small r) by lia. rewrite (Z.mod_small (r + r)) by lia.
  rewrite (Z.mod_small 1000000000) by lia.
  unfold add64, sub64.
  destruct (Z.ltb_spec (r + r) 1000000000) as [Hlt|Hge].
  - rewrite wrap64_id by (unfold in_int64, min_int64, max_int64; lia).
    assert ((d + 500000000) / 1000000000 = q); [|lia].
    symmetry. apply (Z.div_unique _ _ q (r + 500000000)); lia.
  - rewrite (wrap64_id (d + 1000000000)) by (unfold in_int64, min_int64, max_int64; lia).
    rewrite wrap64_id by (unfold in_int64, min_int64, max_int64; lia).
    destruct (Z.gtb_spec (d + 1000000000 - r) d) as [_|]; [|lia].
    assert ((d + 500000000) / 1000000000 = q + 1); [|lia].
    symmetry. apply (Z.div_unique _ _ (q + 1) (r - 500000000)); lia.
Qed.

(** Rounding a negative duration to the second. *)
Lemma Round_second_neg (d : Z) :
  min_int64 + 1000000000 <= d < 0 ->
  Duration.Round d Duration.Second = - ((- d + 500000000) / 1000000000 * 1000000000).
Proof.
  intros Hd. unfold Duration.Round, Duration.Second, Duration.lessThanHalf, min_int64 in *.
  change (1000000000 <=? 0) with false. cbv iota.
  destruct (Z.ltb_spec d 0) as [_|]; [|lia].
  assert (Hrem : - Z.rem d 1000000000 = (- d) mod 1000000000).
  { rewrite <- Z.rem_opp_l by lia. apply Z.rem_mod_nonneg; lia. }
  pose proof (Z.mod_pos_bound (- d) 1000000000 ltac:(lia)) as Hr.
  pose proof (Z.div_mod (- d) 1000000000 ltac:(lia)) as Hdm.
  rewrite Hrem.
  set (r := (- d) mod 1000000000) in *. set (q := (- d) / 1000000000) in *.
  rewrite (wrap64_id r) by (unfold in_int64, min_int64, max_int64; lia).
  rewrite (Z.mod_small r) by lia. rewrite (Z.mod_small (r + r)) by lia.
  rewrite (Z.mod_small 1000000000) by lia.
  unfold add64, sub64.
  destruct (Z.ltb_spec (r + r) 1000000000) as [Hlt|Hge].
  - rewrite wrap64_id by (unfold in_int64, min_int64, max_int64; lia).
    assert ((- d + 500000000) / 1000000000 = q); [|lia].
    symmetry. apply (Z.div_unique _ _ q (r + 500000000)); lia.
  - rewrite (wrap64_id (d - 1000000000)) by (unfold in_int64, min_int64, max_int64; lia).
    rewrite wrap64_id by (unfold in_int64, min_int64, max_int64; lia).
    destruct (Z.ltb_spec (d - 1000000000 + r) d) as [_|]; [|lia].
    assert ((- d + 500000000) / 1000000000 = q + 1); [|lia].
    symmetry. apply (Z.div_unique _ _ (q + 1) (r - 500000000)); lia.
Qed.

(** The hours, minutes and seconds [formatDuration] takes from a whole
    number of seconds [n >= 0]. *)
Lemma split_seconds (n : Z) :
  0 <= n <= 9223372036 ->
  let d := n * Duration.Second in
  let h := Z.quot d Duration.Hour in
  let d1 := sub64 d (mul64 h Duration.Hour) in
  let m := Z.quot d1 Duration.Minute in
  let d2 := sub64 d1 (mul64 m Duration.Minute) in
  h = n / 3600 /\ m = n / 60 mod 60 /\ Z.quot d2 Duration.Second = n mod 60.
Proof.
  intros Hn. cbv zeta. unfold Duration.Hour, Duration.Minute, Duration.Second, sub64, mul64.
  change (60 * (60 * 1000000000)) with 3600000000000.
  change (60 * 1000000000) with 60000000000.
  pose proof (Z.div_mod n 3600 ltac:(lia)) as H1.
  pose proof (Z.mod_pos_bound n 3600 ltac:(lia)) as H2.
  pose proof (Z.div_mod (n mod 3600) 60 ltac:(lia)) as H3.
  pose proof (Z.mod_pos_bound (n mod 3600) 60 ltac:(lia)) as H4.
  assert (Hm : n / 60 mod 60 = n mod 3600 / 60).
  { change 3600 with (60 * 60). rewrite Z.rem_mul_r by lia.
    rewrite Z.mul_comm, Z.div_add by lia.
    rewrite (Z.div_small (n mod 60)) by (apply Z.mod_pos_bound; lia). lia. }
  assert (Hs : n mod 60 = (n mod 3600) mod 60).
  { change 3600 with (60 * 60). rewrite Z.rem_mul_r by lia.
    rewrite Z.mul_comm, Z.mod_add by lia. now rewrite Z.mod_mod by lia. }
  set (hh := n / 3600) in *. set (rr := n mod 3600) in *.
  set (mm := rr / 60) in *. set (ss := rr mod 60) in *.
  assert (Hh : Z.quot (n * 1000000000) 3600000000000 = hh).
  { rewrite Z.quot_div_nonneg by lia.
    symmetry. apply (Z.div_unique _ _ hh (rr * 1000000000)); lia. }
  rewrite Hh.
  rewrite (wrap64_id (hh * 3600000000000))
    by (unfold in_int64, min_int64, max_int64; lia).
  rewrite (wrap64_id (n * 1000000000 - hh * 3600000000000))
    by (unfold in_int64, min_int64, max_int64; lia).
  assert (Hmq : Z.quot (n * 1000000000 - hh * 3600000000000) 60000000000 = mm).
  { rewrite Z.quot_div_nonneg by lia.
    symmetry. apply (Z.div_unique _ _ mm (ss * 1000000000)); lia. }
  rewrite Hmq.
  rewrite (wrap64_id (mm * 60000000000))
    by (unfold in_int64, min_int64, max_int64; lia).
  rewrite (wrap64_id (n * 1000000000 - hh * 3600000000000 - mm * 60000000000))
    by (unfold in_int64, min_int64, max_int64; lia).
  split; [reflexivity|]. split; [lia|]. rewrite Hs.
  rewrite Z.quot_div_nonneg by lia.
  symmetry. apply (Z.div_unique _ _ ss 0); lia.
Qed.

(** The same for a whole number of seconds below zero: in Go the quotient
    of integers is cut towards zero. *)
Lemma split_seconds_neg (n : Z) :
  0 <= n <= 9223372036 ->
  let d := - (n * Duration.Second) in
  let h := Z.quot d Duration.Hour in
  let d1 := sub64 d (mul64 h Duration.Hour) in
  let m := Z.quot d1 Duration.Minute in
  let d2 := sub64 d1 (mul64 m Duration.Minute) in
  h = - (n / 3600) /\ m = - (n / 60 mod 60) /\ Z.quot d2 Duration.Second = - (n mod 60).
Proof.
  intros Hn. cbv zeta. unfold Duration.Hour, Duration.Minute, Duration.Second, sub64, mul64.
  change (60 * (60 * 1000000000)) with 3600000000000.
  change (60 * 1000000000) with 60000000000.
  pose proof (Z.div_mod n 3600 ltac:(lia)) as H1.
  pose proof (Z.mod_pos_bound n 3600 ltac:(lia)) as H2.
  pose proof (Z.div_mod (n mod 3600) 60 ltac:(lia)) as H3.
  pose proof (Z.mod_pos_bound (n mod 3600) 60 ltac:(lia)) as H4.
  assert (Hm : n / 60 mod 60 = n mod 3600 / 60).
  { change 3600 with (60 * 60). rewrite Z.rem_mul_r by lia.
    rewrite Z.mul_comm, Z.div_add by lia.
    rewrite (Z.div_small (n mod 60)) by (apply Z.mod_pos_bound; lia). lia. }
  assert (Hs : n mod 60 = (n mod 3600) mod 60).
  { change 3600 with (60 * 60). rewrite Z.rem_mul_r by lia.
    rewrite Z.mul_comm, Z.mod_add by lia. now rewrite Z.mod_mod by lia. }
  set (hh := n / 3600) in *. set (rr := n mod 3600) in *.
  set (mm := rr / 60) in *. set (ss := rr mod 60) in *.
  assert (Hh : Z.quot (- (n * 1000000000)) 3600000000000 = - hh).
  { rewrite Z.quot_opp_l by lia. f_equal. rewrite Z.quot_div_nonneg by lia.
    symmetry. apply (Z.div_unique _ _ hh (rr * 1000000000)); lia. }
  rewrite Hh.
  rewrite (wrap64_id (- hh * 3600000000000))
    by (unfold in_int64, min_int64, max_int64; lia).
  rewrite (wrap64_id (- (n * 1000000000) - - hh * 3600000000000))
    by (unfold in_int64, min_int64, max_int64; lia).
  replace (- (n * 1000000000) - - hh * 3600000000000) with (- (rr * 1000000000)) by lia.
  assert (Hmq : Z.quot (- (rr * 1000000000)) 60000000000 = - mm).
  { rewrite Z.quot_opp_l by lia. f_equal. rewrite Z.quot_div_nonneg by lia.
    symmetry. apply (Z.div_unique _ _ mm (ss * 1000000000)); lia. }
  rewrite Hmq.
  rewrite (wrap64_id (- mm * 60000000000))
    by (unfold in_int64, min_int64, max_int64; lia).
  rewrite (wrap64_id (- (rr * 1000000000) - - mm * 60000000000))
    by (unfold in_int64, min_int64, max_int64; lia).
  replace (- (rr * 1000000000) - - mm * 60000000000) with (- (ss * 1000000000)) by lia.
  split; [reflexivity|]. split; [lia|]. rewrite Hs.
  rewrite Z.quot_opp_l by lia. f_equal. rewrite Z.quot_div_nonneg by lia.
  symmetry. apply (Z.div_unique _ _ ss 0); lia.
Qed.

(** X9: for a duration that is not negative, [formatDuration] shows the
    duration rounded to the second (halves up) as hours, minutes below 60
    and seconds below 60: [HhMMmSSs] from one hour on, [MmSSs] from one
    minute on, [Ss] below. *)
Theorem formatDuration_nonneg :
  forall d : Z,
    0 <= d <= max_int64 - 1000000000 ->
    let n := (d + 500000000) / 1000000000 in
    DownloadRun.formatDuration d
    = if 3600 <=? n then
        (Fmt.d (n / 3600) ++ "h" ++ Fmt.d02 (n / 60 mod 60) ++ "m"
           ++ Fmt.d02 (n mod 60) ++ "s")%string
      else if 60 <=? n then (Fmt.d (n / 60) ++ "m" ++ Fmt.d02 (n mod 60) ++ "s")%string
      else (Fmt.d n ++ "s")%string.
Proof.
  intros d Hd n. unfold DownloadRun.formatDuration.
  rewrite Round_second_nonneg by assumption. fold n.
  assert (Hn : 0 <= n <= 9223372036).
  { unfold n, max_int64 in *. split.
    - apply Z.div_pos; lia.
    - enough ((d + 500000000) / 1000000000 < 9223372037) by lia.
      apply Z.div_lt_upper_bound; lia. }
  change (n * 1000000000) with (n * Duration.Second).
  destruct (split_seconds n Hn) as (-> & -> & ->).
  pose proof (Z.div_mod n 3600 ltac:(lia)) as H1.
  pose proof (Z.mod_pos_bound n 3600 ltac:(lia)) as H2.
  pose proof (Z.div_mod n 60 ltac:(lia)) as H3.
  pose proof (Z.mod_pos_bound n 60 ltac:(lia)) as H4.
  pose proof (Z.mod_pos_bound (n / 60) 60 ltac:(lia)) as H5.
  destruct (Z.leb_spec 3600 n) as [Hge|Hlt].
  - destruct (Z.gtb_spec (n / 3600) 0) as [_|Hz]; [reflexivity|].
    assert (0 <= n / 3600) by (apply Z.div_pos; lia). nia.
  - assert (Hh0 : n / 3600 = 0) by (apply Z.div_small; lia).
    rewrite Hh0. change (0 >? 0) with false. cbv iota.
    assert (Hm : n / 60 mod 60 = n / 60).
    { apply Z.mod_small. split; [apply Z.div_pos; lia|].
      apply Z.div_lt_upper_bound; lia. }
    rewrite Hm.
    destruct (Z.leb_spec 60 n) as [Hge|Hlt'].
    + destruct (Z.gtb_spec (n / 60) 0) as [_|Hz]; [reflexivity|].
      assert (0 <= n / 60) by (apply Z.div_pos; lia). nia.
    + assert (Hm0 : n / 60 = 0) by (apply Z.div_small; lia).
      rewrite Hm0. change (0 >? 0) with false. cbv iota.
      now rewrite Z.mod_small by lia.
Qed.

Lemma formatDuration_nonneg_witness :
  DownloadRun.formatDuration 3725499999999 = "1h02m05s"%string /\
  DownloadRun.formatDuration 3725500000000 = "1h02m06s"%string /\
  DownloadRun.formatDuration 59500000000 = "1m00s"%string.
Proof.
  split; [|split].
  - rewrite (formatDuration_nonneg 3725499999999) by (vm_compute; intuition discriminate).
    vm_compute. reflexivity.
  - vm_compute. reflexivity.
  - vm_compute. reflexivity.
Defined.



(** ** A download from a service that serves the object as it is *)

Section Serving.
Variables (obj : list byte) (w : world) (chunkSize : Z).
Hypothesis Hserves : serves obj w.
Hypothesis Hsize : 0 < chunkSize.

Let totalSize : Z := Z.of_nat (length obj).
Let n : Z := ceil_div totalSize chunkSize.

(** Where the piece at position [j] ends, as a number of bytes. *)
Let upto (j : nat) : nat := Z.to_nat (Z.min (Z.of_nat j * chunkSize) totalSize).

Lemma serves_chunk (j : nat) :
  Z.of_nat j < n ->
  let c := nice_chunk totalSize chunkSize j in
  S3ops.DownloadRange (getObject w) (start c) (end_ c)
  = Ok (take (upto (S j) - upto j) (drop (upto j) obj)) /\
  upto j = Z.to_nat (start c) /\ (upto j < upto (S j) <= length obj)%nat /\
  succeeds w c.
Proof.
  intros Hj c. destruct Hserves as (_ & _ & _ & Hget & Hdisk).
  pose proof (ceil_div_bounds totalSize chunkSize ltac:(unfold totalSize; lia) Hsize)
    as [Hn0 Hn]. fold n in Hn0, Hn.
  assert (Hlt : Z.of_nat j * chunkSize < totalSize) by nia.
  assert (Hup : upto j = Z.to_nat (Z.of_nat j * chunkSize)) by (unfold upto; lia).
  assert (Hup' : Z.of_nat (upto (S j)) = Z.min ((Z.of_nat j + 1) * chunkSize) totalSize).
  { unfold upto. rewrite Nat2Z.inj_succ. unfold Z.succ. lia. }
  assert (Hread : S3ops.DownloadRange (getObject w) (start c) (end_ c)
                  = Ok (take (upto (S j) - upto j) (drop (upto j) obj))).
  { unfold S3ops.DownloadRange, c. simpl. rewrite Hget by (fold totalSize; lia). simpl.
    rewrite Hup. repeat f_equal. lia. }
  split; [exact Hread|]. split; [unfold c; simpl; lia|].
  split; [unfold totalSize in *; lia|].
  exists (take (upto (S j) - upto j) (drop (upto j) obj)).
  split; [exact Hread|]. split; [unfold c; simpl; lia | apply Hdisk].
Qed.

Lemma serves_plan_succeeds :
  Forall (succeeds w) (nice_chunk totalSize chunkSize <$> seq 0 (Z.to_nat n)).
Proof.
  apply Forall_fmap, Forall_forall. intros j Hj. apply elem_of_seq in Hj.
  apply serves_chunk. lia.
Qed.

(** Writing the pieces of the plan in turn to the zero file builds the
    object from its start. *)
Lemma serves_assemble (m : nat) :
  Z.of_nat m <= n ->
  foldl (writeChunk w) (replicate (length obj) x00)
    (nice_chunk totalSize chunkSize <$> seq 0 m)
  = take (upto m) obj ++ replicate (length obj - upto m) x00.
Proof.
  induction m as [|m IH]; intros Hm.
  - simpl. unfold upto. simpl. rewrite Z.min_l by (unfold totalSize; lia).
    simpl. now rewrite Nat.sub_0_r.
  - rewrite seq_S, fmap_app, foldl_app, IH by lia. simpl.
    destruct (serves_chunk m ltac:(lia)) as (Hread & Hstart & Hlen & Hsucc).
    destruct (writeChunk_succeeds w
                (take (upto m) obj ++ replicate (length obj - upto m) x00)
                _ Hsucc) as [_ ->].
    unfold chunkData. rewrite Hread, <- Hstart.
    set (a := upto m) in *. set (b := upto (S m)) in *.
    assert (Hd : length (take (b - a) (drop a obj)) = (b - a)%nat)
      by (rewrite length_take, length_drop; lia).
    rewrite pwrite_inbounds
      by (rewrite Hd, length_app, length_take, length_replicate; lia).
    rewrite Hd.
    rewrite take_app_length' by (rewrite length_take; lia).
    rewrite drop_app_ge by (rewrite length_take; lia).
    rewrite length_take, drop_replicate.
    replace (a + (b - a) - a `min` length obj)%nat with (b - a)%nat by lia.
    replace (length obj - a - (b - a))%nat with (length obj - b)%nat by lia.
    rewrite app_assoc. f_equal.
    rewrite <- (take_drop a (take b obj)).
    rewrite take_take, Nat.min_l by lia. f_equal.
    rewrite take_drop_commute. do 2 f_equal. lia.
Qed.

Lemma serves_file :
  foldl (writeChunk w) (replicate (Z.to_nat totalSize) x00)
    (nice_chunk totalSize chunkSize <$> seq 0 (Z.to_nat n))
  = obj.
Proof.
  pose proof (ceil_div_bounds totalSize chunkSize ltac:(unfold totalSize; lia) Hsize)
    as [Hn0 Hn]. fold n in Hn0, Hn.
  unfold totalSize at 1. rewrite Nat2Z.id.
  rewrite serves_assemble by lia.
  assert (Hup : upto (Z.to_nat n) = length obj).
  { unfold upto. rewrite Z2Nat.id by lia. unfold totalSize in *. lia. }
  rewrite Hup, Nat.sub_diag, firstn_all. apply app_nil_r.
Qed.

End Serving.

(** With every chunk of the plan going through, no error is ever sent. *)
Lemma step_no_error (w : world) (totalSize : Z) (chunks : list chunk) :
  wellIndexed chunks -> Forall (succeeds w) chunks ->
  forall s k s',
    poolInv w totalSize chunks s /\ errCh s = [] ->
    step w k s = Some s' ->
    poolInv w totalSize chunks s' /\ errCh s' = [].
Proof.
  intros Hwi Hall s k s' [Hinv Herr] Hstep.
  split; [eapply step_poolInv; eauto|].
  assert (Hheld : forall c, workers s !! k = Some (Fetching c) -> succeeds w c).
  { intros c Hc. rewrite Forall_forall in Hall. apply Hall.
    eapply poolInv_held_elem; eauto. }
  step_cases Hstep; simpl; try exact Herr; exfalso.
  - destruct (Hheld c eq_refl) as (data' & Hget' & Hoff & Hdisk).
    rewrite Hget' in Hget. inversion Hget; subst data'.
    unfold WriteAt in Hwrite. destruct (Z.ltb_spec (start c) 0); [lia|].
    rewrite Nat.min_r in Hwrite by lia. rewrite Nat.ltb_irrefl in Hwrite. discriminate.
  - destruct (Hheld c eq_refl) as (data' & Hget' & _). congruence.
Qed.

Lemma no_error_run (w : world) (totalSize : Z) (chunks : list chunk) (n : nat)
    (sched : list nat) :
  wellIndexed chunks -> Forall (succeeds w) chunks ->
  let s := run w sched (initPool chunks n totalSize) in
  panicked s = false /\ errCh s = [].
Proof.
  intros Hwi Hall s.
  assert (H : poolInv w totalSize chunks s /\ errCh s = []).
  { apply (run_invariant w _ (step_no_error w totalSize chunks Hwi Hall)).
    split; [now apply poolInv_init | reflexivity]. }
  destruct H as [(done & failed & Hnp & _) Herr]. auto.
Qed.

(** What [download] comes to once the object is sized, the file is there
    and the plan is made. *)
Lemma download_unfold (fuel : nat) (sched : list nat) (w : world) (d : downloader)
    (totalSize : Z) (chunks : list chunk) :
  S3ops.HeadObjectMeta (headObject w) = Ok {| S3ops.Size := totalSize |} ->
  openFile w = None -> truncateErr w = None -> 0 <= totalSize ->
  planChunks fuel totalSize (chunkSize d) = Some chunks ->
  0 <= concurrency d ->
  download fuel sched w d
  = let s := run w sched (initPool chunks (Z.to_nat (concurrency d)) totalSize) in
    (if panicked s then Panicked
     else if finished s then Returned (head (errCh s)) else OutOfFuel, Some s).
Proof.
  intros Hhead Hopen Htr Htotal Hplan Hconc. unfold download, Truncate.
  rewrite Hhead, Hopen. simpl.
  destruct (Z.ltb_spec totalSize 0) as [|_]; [lia|]. rewrite Htr, Hplan.
  destruct (Z.ltb_spec (concurrency d) 0) as [|_]; [lia|]. simpl.
  destruct (panicked (run w sched _)); [reflexivity|].
  now destruct (finished (run w sched _)).
Qed.

Lemma serves_run (obj : list byte) (w : world) (d : downloader) (fuel : nat)
    (sched : list nat) :
  serves obj w -> conforming w -> 0 < chunkSize d ->
  ceil_div (Z.of_nat (length obj)) (chunkSize d) * chunkSize d <= max_int64 ->
  1 <= concurrency d ->
  (Z.to_nat (ceil_div (Z.of_nat (length obj)) (chunkSize d)) < fuel)%nat ->
  exists s,
    download fuel sched w d
    = (if finished s then Returned None else OutOfFuel, Some s) /\
    s = run w sched
          (initPool (nice_chunk (Z.of_nat (length obj)) (chunkSize d)
                       <$> seq 0 (Z.to_nat (ceil_div (Z.of_nat (length obj))
                                              (chunkSize d))))
             (Z.to_nat (concurrency d)) (Z.of_nat (length obj))) /\
    (finished s = true -> file s = obj).
Proof.
  intros Hserves Hconf Hsize Hrange Hconc Hfuel.
  set (totalSize := Z.of_nat (length obj)) in *.
  set (chunks := nice_chunk totalSize (chunkSize d)
                   <$> seq 0 (Z.to_nat (ceil_div totalSize (chunkSize d)))).
  assert (Htotal : 0 <= totalSize) by (unfold totalSize; lia).
  pose proof (ceil_div_bounds totalSize (chunkSize d) Htotal Hsize) as [Hn0 Hn].
  assert (Hplan : planChunks fuel totalSize (chunkSize d) = Some chunks)
    by (now apply planChunks_exact).
  pose proof (planChunks_wellIndexed _ _ _ _ Hplan) as Hwi.
  assert (Hmax : 0 <= totalSize <= max_int64) by lia.
  pose proof (planChunks_shape _ _ _ _ Hmax Hplan) as Hshape.
  pose proof (serves_plan_succeeds obj w (chunkSize d) Hserves Hsize) as Hall.
  fold totalSize in Hall. fold chunks in Hall.
  exists (run w sched (initPool chunks (Z.to_nat (concurrency d)) totalSize)).
  destruct (no_error_run w totalSize chunks (Z.to_nat (concurrency d)) sched Hwi Hall)
    as [Hnp Herr].
  split; [|split; [reflexivity|]].
  - destruct Hserves as (Hhead & Hopen & Htr & _).
    rewrite (download_unfold fuel sched w d totalSize chunks);
      [|unfold S3ops.HeadObjectMeta; rewrite Hhead; reflexivity|assumption..|lia].
    cbv zeta. now rewrite Hnp, Herr.
  - intros Hfin.
    rewrite (download_success_file w totalSize chunks (Z.to_nat (concurrency d)) sched
               Hconf Htotal Hshape ltac:(lia) Hfin Herr).
    apply (serves_file obj w (chunkSize d) Hserves Hsize).
Qed.


Lemma rangeWorld_serves : serves exampleObject rangeWorld.
Proof.
  split; [reflexivity|]. split; [reflexivity|]. split; [reflexivity|].
  split; [|intros off data; simpl; lia].
  intros s e Hse He. simpl.
  destruct (Z.ltb_spec s 0) as [|_]; [lia|].
  destruct (Z.ltb_spec e s) as [|_]; [lia|]. reflexivity.
Qed.


(** ** The byte counter of the progress bar *)

Lemma bytesDone_frame (w : world) (states : list Z) (c : chunk) (x : Z)
    (l : list chunk) :
  idx c ∉ idx <$> l ->
  bytesDone w l (<[idx c := x]> states) = bytesDone w l states.
Proof.
  induction l as [|a l IH]; intros Hno; [reflexivity|].
  rewrite fmap_cons, not_elem_of_cons in Hno. destruct Hno as [Hne Hno].
  simpl. rewrite IH by assumption. f_equal.
  unfold doneBytes. now rewrite list_lookup_insert_ne.
Qed.

(** Marking a chunk changes the sum by what that chunk adds. *)
Lemma bytesDone_insert (w : world) (states : list Z) (c : chunk) (x : Z)
    (chunks : list chunk) :
  NoDup (idx <$> chunks) -> c ∈ chunks -> (idx c < length states)%nat ->
  bytesDone w chunks (<[idx c := x]> states)
  = bytesDone w chunks states - doneBytes w states c
    + (if decide (x = stateDone) then Z.of_nat (length (chunkData w c)) else 0).
Proof.
  intros Hnd Hc Hlt. induction chunks as [|a chunks IH]; [inversion Hc|].
  rewrite fmap_cons in Hnd. apply NoDup_cons in Hnd as [Ha Hnd].
  apply elem_of_cons in Hc as [<-|Hc].
  - simpl. rewrite bytesDone_frame by assumption.
    assert (Hnew : doneBytes w (<[idx c := x]> states) c
                   = if decide (x = stateDone)
                     then Z.of_nat (length (chunkData w c)) else 0).
    { unfold doneBytes. rewrite list_lookup_insert_eq by assumption.
      destruct (decide (x = stateDone)) as [->|Hx].
      - now rewrite decide_True.
      - rewrite decide_False; [reflexivity | congruence]. }
    rewrite Hnew. lia.
  - simpl. rewrite IH by assumption.
    assert (Hne : idx c <> idx a).
    { intros Heq. apply Ha. rewrite <- Heq. apply list_elem_of_fmap. eauto. }
    assert (Hsame : doneBytes w (<[idx c := x]> states) a = doneBytes w states a)
      by (unfold doneBytes; now rewrite list_lookup_insert_ne).
    rewrite Hsame. lia.
Qed.

Lemma poolInv_queue_state (w : world) (totalSize : Z) (chunks : list chunk)
    (s : pool) (c : chunk) :
  poolInv w totalSize chunks s -> c ∈ chunkCh s ->
  chunkStates s !! idx c = Some stateWaiting.
Proof.
  intros (done & failed & _ & _ & _ & HQ & _) Hc.
  rewrite Forall_forall in HQ. auto.
Qed.

Lemma poolInv_held_state (w : world) (totalSize : Z) (chunks : list chunk)
    (s : pool) (k : nat) (c : chunk) :
  poolInv w totalSize chunks s -> workers s !! k = Some (Fetching c) ->
  chunkStates s !! idx c = Some stateDownloading.
Proof.
  intros (done & failed & _ & _ & _ & _ & HI & _) Hc.
  rewrite Forall_forall in HI. apply HI. eapply inflight_elem; eauto.
Qed.

(** The counter is, modulo 2^64, the sum of the bytes of the chunks marked
    as done. *)
Lemma step_bytesDone (w : world) (totalSize : Z) (chunks : list chunk) :
  wellIndexed chunks ->
  forall s k s',
    poolInv w totalSize chunks s /\
    downloaded s = wrap64 (bytesDone w chunks (chunkStates s)) ->
    step w k s = Some s' ->
    poolInv w totalSize chunks s' /\
    downloaded s' = wrap64 (bytesDone w chunks (chunkStates s')).
Proof.
  intros Hwi s k s' [Hinv Hbytes] Hstep.
  pose proof (step_poolInv w totalSize chunks Hwi s k s' Hinv Hstep) as Hinv'.
  split; [exact Hinv'|].
  assert (Hnp : panicked s' = false) by (now destruct Hinv' as (? & ? & Hnp & _)).
  pose proof (wellIndexed_NoDup chunks Hwi) as Hnd.
  assert (Hlen : length (chunkStates s) = length chunks)
    by (now destruct Hinv as (? & ? & _ & _ & Hlen & _)).
  assert (Hmark : forall c x,
            c ∈ chunks ->
            chunkStates s !! idx c <> Some stateDone ->
            bytesDone w chunks (<[idx c := x]> (chunkStates s))
            = bytesDone w chunks (chunkStates s)
              + (if decide (x = stateDone)
                 then Z.of_nat (length (chunkData w c)) else 0)).
  { intros c x Hc Hold. rewrite bytesDone_insert; [|assumption..|].
    - unfold doneBytes. rewrite decide_False by assumption. lia.
    - rewrite Hlen. pose proof (wellIndexed_bound _ _ Hwi Hc). unfold idx. lia. }
  assert (Hq : forall c rest, chunkCh s = c :: rest ->
            c ∈ chunks /\ chunkStates s !! idx c <> Some stateDone).
  { intros c rest Hch.
    assert (Hc : c ∈ chunkCh s) by (rewrite Hch; left).
    split; [exact (poolInv_queue_elem w totalSize chunks s Hinv c Hc)|].
    rewrite (poolInv_queue_state _ _ _ _ _ Hinv Hc). discriminate. }
  assert (Hh : forall c, workers s !! k = Some (Fetching c) ->
            c ∈ chunks /\ chunkStates s !! idx c <> Some stateDone).
  { intros c Hc. split; [exact (poolInv_held_elem w totalSize chunks s k Hinv c Hc)|].
    rewrite (poolInv_held_state _ _ _ _ _ _ Hinv Hc). discriminate. }
  step_cases Hstep; simpl in *; try discriminate; try exact Hbytes.
  - apply setState_Some in Hset as [_ ->]. destruct (Hq c rest eq_refl) as [Hc Hold].
    fold (idx c). rewrite (Hmark c _ Hc Hold).
    rewrite decide_False by discriminate. now rewrite Z.add_0_r.
  - apply setState_Some in Hset as [_ ->]. destruct (Hh c eq_refl) as [Hc Hold].
    fold (idx c). rewrite (Hmark c _ Hc Hold).
    rewrite decide_False by discriminate. now rewrite Z.add_0_r.
  - apply setState_Some in Hset as [_ ->]. destruct (Hh c eq_refl) as [Hc Hold].
    fold (idx c). rewrite (Hmark c _ Hc Hold).
    rewrite decide_True by reflexivity.
    unfold add64. rewrite Hbytes, wrap64_add_l. unfold chunkData. now rewrite Hget.
  - apply setState_Some in Hset as [_ ->]. destruct (Hh c eq_refl) as [Hc Hold].
    fold (idx c). rewrite (Hmark c _ Hc Hold).
    rewrite decide_False by discriminate. now rewrite Z.add_0_r.
Qed.

Lemma bytesDone_init (w : world) (chunks : list chunk) (n : nat) :
  wellIndexed chunks ->
  bytesDone w chunks (replicate n stateWaiting) = 0.
Proof.
  intros _. induction chunks as [|c chunks IH]; [reflexivity|].
  simpl. rewrite IH. unfold doneBytes.
  rewrite decide_False; [reflexivity|].
  intros H. apply lookup_replicate in H as [H _]. discriminate.
Qed.

Lemma bytesDone_run (w : world) (totalSize : Z) (chunks : list chunk) (n : nat)
    (sched : list nat) :
  wellIndexed chunks ->
  let s := run w sched (initPool chunks n totalSize) in
  poolInv w totalSize chunks s /\
  downloaded s = wrap64 (bytesDone w chunks (chunkStates s)).
Proof.
  intros Hwi.
  apply (run_invariant w _ (step_bytesDone w totalSize chunks Hwi)).
  split; [now apply poolInv_init|].
  simpl. now rewrite bytesDone_init.
Qed.

Lemma bytesDone_bounds (w : world) (chunks : list chunk) (states : list Z) :
  Forall (fun c => Z.of_nat (length (chunkData w c)) <= end_ c - start c + 1) chunks ->
  0 <= bytesDone w chunks states <= planBytes chunks.
Proof.
  induction 1 as [|c chunks Hc _ IH]; simpl; [lia|].
  unfold doneBytes. destruct (decide _); lia.
Qed.

Lemma planBytes_app (l1 l2 : list chunk) :
  planBytes (l1 ++ l2) = planBytes l1 + planBytes l2.
Proof. induction l1 as [|c l1 IH]; simpl; [reflexivity | rewrite IH; lia]. Qed.

(** The ranges of the plan have as many bytes as the object. *)
Lemma planBytes_plan (totalSize chunkSize : Z) (m : nat) :
  0 <= totalSize -> 0 < chunkSize ->
  Z.of_nat m <= ceil_div totalSize chunkSize ->
  planBytes (nice_chunk totalSize chunkSize <$> seq 0 m)
  = Z.min (Z.of_nat m * chunkSize) totalSize.
Proof.
  intros Htotal Hsize.
  pose proof (ceil_div_bounds totalSize chunkSize Htotal Hsize) as [Hn0 Hn].
  induction m as [|m IH]; intros Hm; [simpl; lia|].
  rewrite seq_S, fmap_app, planBytes_app, IH by lia. simpl. nia.
Qed.

Lemma conforming_chunkData (w : world) (c : chunk) :
  conforming w -> start c <= end_ c + 1 ->
  Z.of_nat (length (chunkData w c)) <= end_ c - start c + 1.
Proof.
  intros Hconf Hse. unfold chunkData.
  destruct (S3ops.DownloadRange _ _ _) as [data|e] eqn:Hget; [eauto | simpl; lia].
Qed.

(** The plan of a download whose sizes are in range, whatever the fuel. *)
Lemma planChunks_nice (fuel : nat) (totalSize chunkSize : Z) (chunks : list chunk) :
  0 <= totalSize -> 0 < chunkSize ->
  ceil_div totalSize chunkSize * chunkSize <= max_int64 ->
  planChunks fuel totalSize chunkSize = Some chunks ->
  chunks = nice_chunk totalSize chunkSize
             <$> seq 0 (Z.to_nat (ceil_div totalSize chunkSize)).
Proof.
  intros Htotal Hsize Hrange Hplan.
  pose proof (planChunks_exact totalSize chunkSize Htotal Hsize Hrange
                (S (Z.to_nat (ceil_div totalSize chunkSize))) ltac:(lia)) as Hexact.
  unfold planChunks in *. eapply planLoop_fuel; eauto.
Qed.

(** X12: the byte counter of the progress bar stays within the object.
    When the storage service answers no ranged read with more bytes than
    the range has, and the chunk size is above zero with a plan within
    int64, the counter [downloaded] lies between 0 and the size of the
    object at every point of a download. *)
Theorem downloaded_within_object :
  forall (fuel : nat) (sched : list nat) (w : world) (d : downloader)
         (out : outcome) (s : pool) (meta : S3ops.ObjectMetadata),
    S3ops.HeadObjectMeta (headObject w) = Ok meta ->
    conforming w -> 0 < chunkSize d ->
    ceil_div (S3ops.Size meta) (chunkSize d) * chunkSize d <= max_int64 ->
    download fuel sched w d = (out, Some s) ->
    0 <= downloaded s <= S3ops.Size meta.
Proof.
  intros fuel sched w d out s meta Hhead Hconf Hsize Hrange Hrun.
  destruct (download_started _ _ _ _ _ _ _ Hhead Hrun)
    as (Hpos & Hconc & chunks & Hplan & Hany).
  destruct (download_started_pool _ _ _ _ _ _ _ _ Hany Hrun) as [Hs _].
  pose proof (planChunks_wellIndexed _ _ _ _ Hplan) as Hwi.
  pose proof (planChunks_nice _ _ _ _ Hpos Hsize Hrange Hplan) as Hnice.
  pose proof (ceil_div_bounds _ _ Hpos Hsize) as [Hn0 Hn].
  destruct (bytesDone_run w (S3ops.Size meta) chunks (Z.to_nat (concurrency d)) sched Hwi)
    as [_ Hbytes].
  rewrite <- Hs in Hbytes.
  assert (Hfit : Forall (fun c => Z.of_nat (length (chunkData w c))
                                  <= end_ c - start c + 1) chunks).
  { rewrite Hnice. apply Forall_fmap, Forall_forall. intros j Hj.
    apply elem_of_seq in Hj. apply conforming_chunkData; [exact Hconf|]. simpl. nia. }
  pose proof (bytesDone_bounds w chunks (chunkStates s) Hfit) as Hb.
  assert (Hall : planBytes chunks = S3ops.Size meta).
  { rewrite Hnice, planBytes_plan by lia. rewrite Z2Nat.id by lia. lia. }
  rewrite Hbytes, wrap64_id; [lia|].
  unfold in_int64, min_int64, max_int64 in *. lia.
Qed.

Lemma faultyWorld_conforming : conforming faultyWorld.
Proof.
  intros a e data. unfold S3ops.DownloadRange. simpl.
  destruct (Z.ltb_spec a 0) as [|Ha]; simpl; [discriminate|].
  destruct (Z.ltb_spec e a) as [|He]; simpl; [discriminate|].
  destruct (a =? 2); [discriminate|].
  intros Hdata. inversion Hdata. rewrite length_take. lia.
Qed.

Lemma downloaded_within_object_witness :
  let d := {| chunkSize := 2; concurrency := 2 |} in
  let s := {| chunkCh := [{| index := 2; start := 4; end_ := 4 |}];
              workers := [Idle; Fetching {| index := 1; start := 2; end_ := 3 |}];
              file := [x41; x42; x00; x00; x00];
              chunkStates := [stateDone; stateDownloading; stateWaiting];
              downloaded := 2; errCh := []; panicked := false |} in
  download 4 [0; 1; 0]%nat faultyWorld d = (OutOfFuel, Some s) /\
  0 <= downloaded s <= 5.
Proof.
  intros d s.
  assert (Hrun : download 4 [0; 1; 0]%nat faultyWorld d = (OutOfFuel, Some s))
    by (vm_compute; reflexivity).
  split; [exact Hrun|].
  apply (downloaded_within_object 4 [0; 1; 0]%nat faultyWorld d OutOfFuel s
           {| S3ops.Size := 5 |} eq_refl faultyWorld_conforming);
    [simpl; lia | vm_compute; discriminate | exact Hrun].
Defined.

(** ** The last frame of the progress bar *)

(** As long as the counters cannot overflow, [render] counts how often
    each state occurs. *)
Lemma countStates_spec (states : list Z) :
  Z.of_nat (length states) <= max_int64 ->
  Render.countStates states
  = {| Render.waiting := countOf stateWaiting states;
       Render.downloading := countOf stateDownloading states;
       Render.done := countOf stateDone states;
       Render.failed := countOf stateFailed states |}.
Proof.
  unfold Render.countStates, countOf, max_int64.
  induction states as [|st states IH] using rev_ind; intros Hlen; [reflexivity|].
  rewrite length_app in Hlen. simpl in Hlen.
  rewrite foldl_app, IH by lia. simpl. rewrite !filter_app, !length_app.
  pose proof (length_filter (fun x => x = stateWaiting) states).
  pose proof (length_filter (fun x => x = stateDownloading) states).
  pose proof (length_filter (fun x => x = stateDone) states).
  pose proof (length_filter (fun x => x = stateFailed) states).
  unfold add64, stateWaiting, stateDownloading, stateDone, stateFailed in *.
  rewrite !filter_cons, !filter_nil.
  destruct (Z.eqb_spec st 0) as [->|Hn0];
    [|destruct (Z.eqb_spec st 1) as [->|Hn1];
      [|destruct (Z.eqb_spec st 2) as [->|Hn2];
        [|destruct (Z.eqb_spec st 3) as [->|Hn3]]]];
    repeat (rewrite decide_True by reflexivity);
    repeat (rewrite decide_False by (congruence || lia));
    simpl; rewrite ?Nat.add_0_r;
    rewrite ?wrap64_id by (unfold in_int64, min_int64, max_int64; lia);
    f_equal; lia.
Qed.

Lemma length_filter_fmap {A B : Type} (f : A -> B) (P : B -> Prop)
    `{forall b, Decision (P b)} (l : list A) :
  length (filter P (f <$> l)) = length (filter (fun a => P (f a)) l).
Proof.
  induction l as [|a l IH]; [reflexivity|].
  rewrite fmap_cons, !filter_cons. destruct (decide (P (f a))); simpl; now rewrite IH.
Qed.

(** A chunk's state is the entry of the array at the chunk's position. *)
Lemma states_of_chunks (chunks : list chunk) (states : list Z) :
  wellIndexed chunks -> length states = length chunks ->
  Some <$> states = (fun c => states !! idx c) <$> chunks.
Proof.
  intros Hwi Hlen. apply list_eq. intros j. rewrite !list_lookup_fmap.
  destruct (chunks !! j) as [c|] eqn:Hc; simpl.
  - rewrite (wellIndexed_idx _ _ _ Hwi Hc).
    destruct (states !! j) as [st|] eqn:Hst; [reflexivity|].
    apply lookup_ge_None in Hst. apply lookup_lt_Some in Hc. lia.
  - apply lookup_ge_None in Hc.
    rewrite (proj2 (lookup_ge_None states j)) by lia. reflexivity.
Qed.

Lemma countOf_chunks (chunks : list chunk) (states : list Z) (x : Z) :
  wellIndexed chunks -> length states = length chunks ->
  countOf x states
  = Z.of_nat (length (filter (fun c => states !! idx c = Some x) chunks)).
Proof.
  intros Hwi Hlen. unfold countOf. f_equal.
  transitivity (length (filter (fun o : option Z => o = Some x)
                          ((fun c => states !! idx c) <$> chunks))).
  - rewrite <- (states_of_chunks chunks states Hwi Hlen), length_filter_fmap.
    f_equal. apply list_filter_iff. intros st. split; congruence.
  - apply length_filter_fmap.
Qed.

Lemma filter_all {A : Type} (P : A -> Prop) `{forall a, Decision (P a)} (l : list A) :
  Forall P l -> filter P l = l.
Proof.
  induction 1 as [|a l Ha _ IH]; [reflexivity|].
  rewrite filter_cons, decide_True by assumption. now rewrite IH.
Qed.

Lemma filter_none {A : Type} (P : A -> Prop) `{forall a, Decision (P a)} (l : list A) :
  Forall (fun a => ~ P a) l -> filter P l = [].
Proof.
  induction 1 as [|a l Ha _ IH]; [reflexivity|].
  rewrite filter_cons, decide_False by assumption. exact IH.
Qed.

(** The classes of the bookkeeping, counted by state. *)
Lemma poolInv_counts (w : world) (totalSize : Z) (chunks : list chunk) (s : pool) :
  wellIndexed chunks -> poolInv w totalSize chunks s ->
  countOf stateWaiting (chunkStates s) = Z.of_nat (length (chunkCh s)) /\
  countOf stateDownloading (chunkStates s) = Z.of_nat (length (inflight (workers s))) /\
  countOf stateFailed (chunkStates s) = Z.of_nat (length (errCh s)) /\
  countOf stateWaiting (chunkStates s) + countOf stateDownloading (chunkStates s)
  + countOf stateDone (chunkStates s) + countOf stateFailed (chunkStates s)
  = Z.of_nat (length chunks).
Proof.
  intros Hwi (done & failed & _ & Hperm & Hlen & HQ & HI & HD & HF & Hfl & _).
  assert (Hcount : forall x,
            countOf x (chunkStates s)
            = Z.of_nat (length (filter (fun c => chunkStates s !! idx c = Some x)
                                  (chunkCh s ++ inflight (workers s) ++ done ++ failed)))).
  { intros x. rewrite (countOf_chunks chunks _ x Hwi Hlen). now rewrite Hperm. }
  assert (Hclass : forall (x y : Z) (l : list chunk),
            Forall (fun c => chunkStates s !! idx c = Some y) l ->
            length (filter (fun c => chunkStates s !! idx c = Some x) l)
            = if x =? y then length l else 0%nat).
  { intros x y l Hl. destruct (Z.eqb_spec x y) as [->|Hne].
    - now rewrite filter_all.
    - rewrite filter_none; [reflexivity|].
      eapply Forall_impl; [exact Hl|]. simpl. intros c -> [=]. congruence. }
  rewrite !Hcount, !filter_app, !length_app.
  rewrite !(Hclass _ _ _ HQ), !(Hclass _ _ _ HI), !(Hclass _ _ _ HD), !(Hclass _ _ _ HF).
  unfold stateWaiting, stateDownloading, stateDone, stateFailed. simpl.
  rewrite <- Hperm, !length_app. repeat split; lia.
Qed.

(** Once every worker has returned, no chunk is in flight; and when none
    of at least one worker has failed, the channel is drained. *)
Lemma poolInv_finished (w : world) (totalSize : Z) (chunks : list chunk) (s : pool) :
  poolInv w totalSize chunks s -> finished s = true ->
  inflight (workers s) = [] /\
  (errCh s = [] -> workers s <> [] -> chunkCh s = []).
Proof.
  intros (done & failed & _ & _ & _ & _ & _ & _ & _ & _ & Hfc & Hex & _) Hfin.
  split; [now apply inflight_finished|].
  intros Herr Hne. rewrite Herr in Hfc.
  pose proof (finished_no_failure_exited _ Hfin Hfc) as Hall.
  destruct (workers s) as [|wk ws] eqn:Hws; [contradiction|].
  inversion Hall as [|? ? Hwk _]; subst wk.
  apply (Hex 0%nat). reflexivity.
Qed.

(** X13: the last frame of the progress bar, drawn once every worker has
    returned, shows no chunk as active, as many failed chunks as errors
    were sent and as many waiting chunks as were left in the channel, and
    its four counters add up to the number of chunks; after a download
    with at least one worker that returns nil every chunk is shown as
    done. *)
Theorem render_last_frame :
  forall (fuel : nat) (sched : list nat) (w : world) (d : downloader)
         (r : option error) (s : pool) (meta : S3ops.ObjectMetadata),
    S3ops.HeadObjectMeta (headObject w) = Ok meta ->
    download fuel sched w d = (Returned r, Some s) ->
    Z.of_nat (length (chunkStates s)) <= max_int64 ->
    let n := Render.countStates (chunkStates s) in
    Render.waiting n = Z.of_nat (length (chunkCh s)) /\
    Render.downloading n = 0 /\
    Render.failed n = Z.of_nat (length (errCh s)) /\
    Render.waiting n + Render.downloading n + Render.done n + Render.failed n
    = Z.of_nat (length (chunkStates s)) /\
    (r = None -> 1 <= concurrency d ->
     Render.done n = Z.of_nat (length (chunkStates s))).
Proof.
  intros fuel sched w d r s meta Hhead Hrun Hlen n.
  destruct (download_started _ _ _ _ _ _ _ Hhead Hrun)
    as (Hpos & Hconc & chunks & Hplan & Hany).
  destruct (download_started_pool _ _ _ _ _ _ _ _ Hany Hrun) as [Hs Hout].
  pose proof (planChunks_wellIndexed _ _ _ _ Hplan) as Hwi.
  pose proof (poolInv_run w (S3ops.Size meta) chunks (Z.to_nat (concurrency d)) sched Hwi)
    as Hinv.
  rewrite <- Hs in Hinv.
  assert (Hfin : finished s = true /\ r = head (errCh s)).
  { destruct (panicked s); [discriminate|].
    destruct (finished s); [|discriminate]. inversion Hout. auto. }
  destruct Hfin as [Hfin Hr].
  destruct (poolInv_counts w _ chunks s Hwi Hinv) as (Hw & Hd & Hf & Hsum).
  destruct (poolInv_finished w _ chunks s Hinv Hfin) as [Hfl Hq].
  assert (Hstates : length (chunkStates s) = length chunks)
    by (now destruct Hinv as (? & ? & _ & _ & Hl & _)).
  unfold n. rewrite countStates_spec by assumption. simpl.
  rewrite Hfl in Hd. simpl in Hd. rewrite Hstates.
  split; [exact Hw|]. split; [exact Hd|]. split; [exact Hf|]. split; [exact Hsum|].
  intros -> Hone.
  assert (Herr : errCh s = []) by (destruct (errCh s); [reflexivity | discriminate]).
  assert (Hws : workers s <> []).
  { intros Hnil. apply (f_equal length) in Hnil.
    rewrite Hs, (workers_length w (Z.to_nat (concurrency d))) in Hnil
      by (simpl; apply length_replicate).
    simpl in Hnil. lia. }
  rewrite (Hq Herr Hws) in Hw. rewrite Herr in Hf. simpl in Hw, Hf. lia.
Qed.

Lemma render_last_frame_witness :
  let d := {| chunkSize := 2; concurrency := 2 |} in
  let e := EChunkRange 1 2 3
             (EWrap "failed to get object range" (EService "connection reset")) in
  let s := {| chunkCh := []; workers := [Exited; Failed];
              file := [x41; x42; x00; x00; x45];
              chunkStates := [stateDone; stateFailed; stateDone];
              downloaded := 3; errCh := [e]; panicked := false |} in
  download 4 [0; 1; 1; 0; 0; 0; 0]%nat faultyWorld d = (Returned (Some e), Some s) /\
  Render.countStates (chunkStates s)
  = {| Render.waiting := 0; Render.downloading := 0;
       Render.done := 2; Render.failed := 1 |} /\
  Render.failed (Render.countStates (chunkStates s)) = Z.of_nat (length (errCh s)).
Proof.
  intros d e s.
  assert (Hrun : download 4 [0; 1; 1; 0; 0; 0; 0]%nat faultyWorld d
                 = (Returned (Some e), Some s)) by (vm_compute; reflexivity).
  split; [exact Hrun|]. split; [vm_compute; reflexivity|].
  destruct (render_last_frame 4 [0; 1; 1; 0; 0; 0; 0]%nat faultyWorld d (Some e) s
              {| S3ops.Size := 5 |} eq_refl Hrun ltac:(vm_compute; discriminate))
    as (_ & _ & Hfailed & _).
  exact Hfailed.
Defined.

(** ** An object without bytes *)

(** With nothing to fetch a worker can only return, whatever the service
    and the disk would do. *)
Lemma step_idlePool (w w' : world) (k : nat) (s : pool) :
  idlePool s ->
  step w k s = step w' k s /\
  forall s', step w k s = Some s' -> idlePool s'.
Proof.
  intros (Hq & Hw & Hf & Hst & Hd & He & Hp). unfold step. rewrite Hp, Hq.
  destruct (workers s !! k) as [[|c| |]|] eqn:Hk; try (split; [reflexivity|discriminate]).
  - split; [reflexivity|]. intros s' [= <-]. unfold idlePool. simpl.
    repeat split; try assumption.
    apply Forall_insert; [assumption | reflexivity].
  - rewrite Forall_forall in Hw.
    assert (Hin : Fetching c ∈ workers s) by (eapply list_elem_of_lookup_2; eauto).
    apply Hw in Hin. discriminate.
Qed.

Lemma run_idlePool (w w' : world) (sched : list nat) (s : pool) :
  idlePool s -> run w sched s = run w' sched s /\ idlePool (run w sched s).
Proof.
  revert s. induction sched as [|k sched IH]; intros s Hs; [split; [reflexivity|exact Hs]|].
  rewrite !run_cons. destruct (step_idlePool w w' k s Hs) as [Heq Hnext].
  rewrite <- Heq. destruct (step w k s) as [s'|]; simpl; [apply IH; auto | now apply IH].
Qed.



(** ** No chunk is tried twice *)

(** A move leaves the marks "done" and "failed" where they are, takes
    chunks from the front of the channel only, and adds errors at the end
    of those sent. *)
Lemma step_settled (w : world) (totalSize : Z) (chunks : list chunk) :
  wellIndexed chunks ->
  forall s k s',
    poolInv w totalSize chunks s -> step w k s = Some s' ->
    (forall i x, x = stateDone \/ x = stateFailed ->
                 chunkStates s !! i = Some x -> chunkStates s' !! i = Some x) /\
    chunkCh s' `suffix_of` chunkCh s /\ errCh s `prefix_of` errCh s'.
Proof.
  intros Hwi s k s' Hinv Hstep.
  assert (Hq : forall c rest i x, chunkCh s = c :: rest ->
            x = stateDone \/ x = stateFailed ->
            chunkStates s !! i = Some x -> idx c <> i).
  { intros c rest i x Hch Hx Hi Heq. rewrite <- Heq in Hi.
    assert (Hc : c ∈ chunkCh s) by (rewrite Hch; left).
    rewrite (poolInv_queue_state _ _ _ _ _ Hinv Hc) in Hi.
    destruct Hx; subst x; discriminate. }
  assert (Hh : forall c i x, workers s !! k = Some (Fetching c) ->
            x = stateDone \/ x = stateFailed ->
            chunkStates s !! i = Some x -> idx c <> i).
  { intros c i x Hc Hx Hi Heq. rewrite <- Heq in Hi.
    rewrite (poolInv_held_state _ _ _ _ _ _ Hinv Hc) in Hi.
    destruct Hx; subst x; discriminate. }
  step_cases Hstep; simpl;
    try (apply setState_Some in Hset as [_ ->]);
    (split; [|split]);
    try reflexivity; try (now apply suffix_cons_r); try (now apply prefix_app_r);
    try (intros i x Hx Hi; exact Hi);
    intros i x Hx Hi; rewrite list_lookup_insert_ne; eauto.
Qed.

Lemma run_settled (w : world) (totalSize : Z) (chunks : list chunk) :
  wellIndexed chunks ->
  forall sched s,
    poolInv w totalSize chunks s ->
    (forall i x, x = stateDone \/ x = stateFailed ->
                 chunkStates s !! i = Some x ->
                 chunkStates (run w sched s) !! i = Some x) /\
    chunkCh (run w sched s) `suffix_of` chunkCh s /\
    errCh s `prefix_of` errCh (run w sched s).
Proof.
  intros Hwi. induction sched as [|k sched IH]; intros s Hinv.
  - split; [auto|]. split; reflexivity.
  - rewrite run_cons. destruct (step w k s) as [s1|] eqn:Hstep; simpl; [|now apply IH].
    destruct (step_settled w totalSize chunks Hwi s k s1 Hinv Hstep) as (H1 & H2 & H3).
    destruct (IH s1 (step_poolInv w totalSize chunks Hwi s k s1 Hinv Hstep))
      as (H1' & H2' & H3').
    split; [intros i x Hx Hi; eauto|].
    split; etransitivity; eauto.
Qed.

(** X15: a download tries no chunk twice.  As a run goes on, a chunk
    marked done stays done and a chunk marked failed stays failed (there is
    no retry); chunks only ever leave the channel, from its front; and the
    errors sent only grow at the end, so that the error a download
    returns is settled by the first failure. *)
Theorem download_no_retry :
  forall (fuel : nat) (sched sched' : list nat) (w : world) (d : downloader)
         (out out' : outcome) (s s' : pool) (meta : S3ops.ObjectMetadata),
    S3ops.HeadObjectMeta (headObject w) = Ok meta ->
    download fuel sched w d = (out, Some s) ->
    download fuel (sched ++ sched') w d = (out', Some s') ->
    (forall i, chunkStates s !! i = Some stateDone ->
               chunkStates s' !! i = Some stateDone) /\
    (forall i, chunkStates s !! i = Some stateFailed ->
               chunkStates s' !! i = Some stateFailed) /\
    chunkCh s' `suffix_of` chunkCh s /\
    errCh s `prefix_of` errCh s' /\
    (forall e, head (errCh s) = Some e -> head (errCh s') = Some e).
Proof.
  intros fuel sched sched' w d out out' s s' meta Hhead Hrun Hrun'.
  destruct (download_started _ _ _ _ _ _ _ Hhead Hrun)
    as (Hpos & Hconc & chunks & Hplan & Hany).
  destruct (download_started_pool _ _ _ _ _ _ _ _ Hany Hrun) as [Hs _].
  destruct (download_started_pool _ _ _ _ _ _ _ _ Hany Hrun') as [Hs' _].
  pose proof (planChunks_wellIndexed _ _ _ _ Hplan) as Hwi.
  pose proof (poolInv_run w (S3ops.Size meta) chunks (Z.to_nat (concurrency d)) sched Hwi)
    as Hinv.
  rewrite <- Hs in Hinv. rewrite run_app, <- Hs in Hs'.
  destruct (run_settled w _ chunks Hwi sched' s Hinv) as (H1 & H2 & H3).
  rewrite <- Hs' in H1, H2, H3.
  split; [intros i; apply H1; auto|]. split; [intros i; apply H1; auto|].
  split; [exact H2|]. split; [exact H3|].
  intros e He. destruct H3 as [more ->]. destruct (errCh s); [discriminate | exact He].
Qed.

Lemma download_no_retry_witness :
  let d := {| chunkSize := 2; concurrency := 2 |} in
  let e := EChunkRange 1 2 3
             (EWrap "failed to get object range" (EService "connection reset")) in
  let s := {| chunkCh := [{| index := 2; start := 4; end_ := 4 |}];
              workers := [Idle; Failed];
              file := [x41; x42; x00; x00; x00];
              chunkStates := [stateDone; stateFailed; stateWaiting];
              downloaded := 2; errCh := [e]; panicked := false |} in
  let s' := {| chunkCh := []; workers := [Exited; Failed];
               file := [x41; x42; x00; x00; x45];
               chunkStates := [stateDone; stateFailed; stateDone];
               downloaded := 3; errCh := [e]; panicked := false |} in
  download 4 [0; 1; 1; 0]%nat faultyWorld d = (OutOfFuel, Some s) /\
  download 4 ([0; 1; 1; 0] ++ [0; 0; 0])%nat faultyWorld d = (Returned (Some e), Some s') /\
  chunkStates s' !! 1%nat = Some stateFailed.
Proof.
  intros d e s s'.
  assert (H1 : download 4 [0; 1; 1; 0]%nat faultyWorld d = (OutOfFuel, Some s))
    by (vm_compute; reflexivity).
  assert (H2 : download 4 ([0; 1; 1; 0] ++ [0; 0; 0])%nat faultyWorld d
               = (Returned (Some e), Some s')) by (vm_compute; reflexivity).
  split; [exact H1|]. split; [exact H2|].
  destruct (download_no_retry 4 [0; 1; 1; 0]%nat [0; 0; 0]%nat faultyWorld d _ _ s s'
              {| S3ops.Size := 5 |} eq_refl H1 H2) as (_ & Hfailed & _).
  apply Hfailed. reflexivity.
Defined.

(** ** More of the upload library *)

(** X16: [s3ops.UploadMultipart] does not check the part size.  For a
    file that is not empty, a negative part size makes the call panic right
    after the session is opened, which stays open: no part is sent and no
    abort.  A part size of 0 makes it send empty parts one after the other,
    as long as the service accepts them, without ever completing or
    aborting: whatever the fuel, the call has not returned. *)
Theorem lib_upload_part_size_unchecked :
  forall (svc : service) (file : localFile) (id : string),
    openErr file = None -> statErr file = None ->
    createMultipartUpload svc = Ok id ->
    0 < fileSize file <= max_int64 ->
    (forall partSize fuel, partSize < 0 ->
       S3ops.UploadMultipart (S fuel) svc file partSize
       = ([EvCreate (Ok id)], Panicked)) /\
    ((forall pn, exists etag, uploadPart svc pn [] = Ok etag) ->
     forall fuel, exists tr,
       S3ops.UploadMultipart fuel svc file 0 = (tr, OutOfFuel) /\
       length (uploads tr) = fuel /\
       Forall (fun up => up.2 = []) (uploads tr) /\
       aborts tr = 0%nat /\ completions tr = []).
Proof.
  intros svc file id Hopen Hstat Hcreate Hsize. unfold max_int64 in Hsize.
  split.
  - intros partSize fuel Hneg. unfold S3ops.UploadMultipart.
    rewrite Hopen, Hstat, Hcreate. simpl. unfold sub64.
    destruct (Z.ltb_spec 0 (fileSize file)) as [_|]; [|lia].
    rewrite Z.sub_0_r, wrap64_id by (unfold in_int64, min_int64, max_int64; lia).
    destruct (Z.ltb_spec (fileSize file) partSize) as [|_]; [lia|].
    destruct (Z.ltb_spec partSize 0) as [_|]; [reflexivity | lia].
  - intros Haccept fuel. unfold S3ops.UploadMultipart.
    rewrite Hopen, Hstat, Hcreate.
    assert (Hloop : forall fuel pn pos parts tr,
              exists tr',
                S3ops.partLoop fuel svc file (fileSize file) 0 0 pn pos parts tr
                = (tr ++ tr', OutOfFuel) /\
                length (uploads tr') = fuel /\
                Forall (fun up => up.2 = []) (uploads tr') /\
                aborts tr' = 0%nat /\ completions tr' = []).
    { clear fuel. induction fuel as [|fuel IH]; intros pn pos parts tr.
      - exists []. simpl. rewrite app_nil_r. repeat split; constructor.
      - simpl. unfold sub64.
        destruct (Z.ltb_spec 0 (fileSize file)) as [_|]; [|lia].
        rewrite Z.sub_0_r, wrap64_id by (unfold in_int64, min_int64, max_int64; lia).
        destruct (Z.ltb_spec (fileSize file) 0) as [|_]; [lia|]. simpl.
        destruct (Haccept (wrap32 pn)) as [etag Hup]. rewrite Hup.
        change (add64 0 0) with 0.
        destruct (IH (add64 pn 1) (pos + 0)
                    (parts ++ [{| ETag := etag; PartNumber := wrap32 pn |}])
                    ((tr ++ [EvRead pos 0 None])
                       ++ [EvUploadPart (wrap32 pn) [] (Ok etag)]))
          as (tr' & Hrun & Hlen & Hall & Hab & Hco).
        exists ([EvRead pos 0 None; EvUploadPart (wrap32 pn) [] (Ok etag)] ++ tr').
        split; [rewrite Hrun, <- !app_assoc; reflexivity|].
        rewrite uploads_app, aborts_app, completions_app. simpl.
        split; [rewrite Hlen; reflexivity|].
        split; [constructor; [reflexivity | exact Hall]|].
        split; [exact Hab | exact Hco]. }
    destruct (Hloop fuel 1 0 [] [EvCreate (Ok id)]) as (tr' & Hrun & Hlen & Hall & Hab & Hco).
    exists ([EvCreate (Ok id)] ++ tr'). split; [exact Hrun|].
    rewrite uploads_app, aborts_app, completions_app. simpl. auto.
Qed.

Lemma lib_upload_part_size_unchecked_witness :
  S3ops.UploadMultipart 1 acceptingService exampleFile (- 5)
  = ([EvCreate (Ok "upload-id"%string)], Panicked) /\
  snd (S3ops.UploadMultipart 50 acceptingService exampleFile 0) = OutOfFuel.
Proof.
  destruct (lib_upload_part_size_unchecked acceptingService exampleFile "upload-id"
              eq_refl eq_refl eq_refl ltac:(vm_compute; intuition discriminate))
    as [Hneg Hzero].
  split; [apply Hneg; lia|].
  destruct (Hzero ltac:(intros pn; eexists; reflexivity) 50%nat) as (tr & Hrun & _).
  now rewrite Hrun.
Defined.

(** The loop of the reader variant is the loop of the command's upload
    as long as the part size is above zero. *)
Lemma reader_partLoop_cmd (svc : service) (file : localFile) (ps : Z) :
  0 < ps -> fileSize file <= max_int64 ->
  forall (fuel : nat) (off pn : Z) (parts : list completedPart) (tr : list event),
    0 <= off <= fileSize file ->
    S3opsUpload.partLoop fuel svc (fileReadAt file) (fileSize file) ps off pn parts tr
    = Upload.partLoop fuel svc file (fileSize file) ps off pn parts tr.
Proof.
  intros Hps Hmax. unfold max_int64 in Hmax.
  induction fuel as [|fuel IH]; intros off pn parts tr Hoff; [reflexivity|].
  simpl. destruct (Z.ltb_spec off (fileSize file)) as [Hlt|]; [|reflexivity].
  unfold sub64.
  rewrite wrap64_id by (unfold in_int64, min_int64, max_int64; lia).
  set (cs := if fileSize file - off <? ps then fileSize file - off else ps).
  assert (Hcs : 0 < cs <= fileSize file - off)
    by (unfold cs; destruct (Z.ltb_spec (fileSize file - off) ps); lia).
  destruct (Z.ltb_spec cs 0) as [|_]; [lia|].
  destruct (fileReadAt file cs off) as [buf rerr].
  destruct (Upload.readFailed rerr); [reflexivity|].
  destruct (uploadPart svc (wrap32 pn) buf); [|reflexivity].
  apply IH. unfold add64.
  rewrite wrap64_id by (unfold in_int64, min_int64, max_int64; lia). lia.
Qed.



Lemma accepted_snoc (svc : service) (calls : list (Z * list byte))
    (call : Z * list byte) :
  accepted svc (calls ++ [call])
  = accepted svc calls
    ++ match uploadPart svc (wrap32 call.1) call.2 with
       | Ok etag => [(call, etag)]
       | Err _ => []
       end.
Proof.
  unfold accepted. rewrite omap_app. simpl.
  now destruct (uploadPart svc (wrap32 call.1) call.2).
Qed.


Lemma fileReadAt_full (file : localFile) (cs off : Z) :
  readFault file off = None -> 0 <= off -> 0 <= cs -> off + cs <= fileSize file ->
  fileReadAt file cs off
  = (take (Z.to_nat cs) (drop (Z.to_nat off) (contents file)), None).
Proof.
  unfold fileReadAt, fileSize. intros Hf Hoff Hcs Hle. rewrite Hf.
  assert (Hlen : length (take (Z.to_nat cs) (drop (Z.to_nat off) (contents file)))
                 = Z.to_nat cs).
  { rewrite length_take, length_drop. lia. }
  rewrite Hlen, Nat.sub_diag. simpl. rewrite app_nil_r.
  destruct (Z.ltb_spec (Z.of_nat (Z.to_nat cs)) cs); [lia | reflexivity].
Qed.

(** On a file whose reads do not fail, the loop of the library's upload,
    which reads the file in sequence, is the loop of the command's upload,
    which reads it by offset. *)
Lemma lib_partLoop_cmd (svc : service) (file : localFile) (ps : Z) :
  0 < ps -> fileSize file <= max_int64 ->
  (forall off, readFault file off = None) ->
  forall (fuel : nat) (off pn : Z) (parts : list completedPart) (tr : list event),
    0 <= off <= fileSize file ->
    S3ops.partLoop fuel svc file (fileSize file) ps off pn off parts tr
    = Upload.partLoop fuel svc file (fileSize file) ps off pn parts tr.
Proof.
  intros Hps Hmax Hfault. unfold max_int64 in Hmax.
  induction fuel as [|fuel IH]; intros off pn parts tr Hoff; [reflexivity|].
  simpl. destruct (Z.ltb_spec off (fileSize file)) as [Hlt|]; [|reflexivity].
  unfold sub64.
  rewrite wrap64_id by (unfold in_int64, min_int64, max_int64; lia).
  set (cs := if fileSize file - off <? ps then fileSize file - off else ps).
  assert (Hcs : 0 < cs <= fileSize file - off)
    by (unfold cs; destruct (Z.ltb_spec (fileSize file - off) ps); lia).
  destruct (Z.ltb_spec cs 0) as [|_]; [lia|].
  rewrite fileRead_full, fileReadAt_full by (auto; lia). simpl.
  destruct (uploadPart svc (wrap32 pn) _); [|reflexivity].
  unfold add64.
  rewrite wrap64_id by (unfold in_int64, min_int64, max_int64; lia).
  apply IH. lia.
Qed.



(** ** Downloading an object in one stream *)

Lemma Write_whole (d : S3opsDownload.disk) (f data : list byte) :
  (forall off data, (length data <= S3opsDownload.takes d off data)%nat) ->
  S3opsDownload.Write d f data = (f ++ data, None).
Proof.
  intros Hdisk. unfold S3opsDownload.Write.
  rewrite Nat.min_r by apply Hdisk.
  now rewrite Nat.ltb_irrefl, take_ge by lia.
Qed.

Lemma nonEmpty_cons (b : list byte) (bodies : list (list byte)) :
  nonEmpty (b :: bodies)
  = if (0 <? length b)%nat then b :: nonEmpty bodies else nonEmpty bodies.
Proof.
  unfold nonEmpty. rewrite filter_cons.
  destruct (decide (b <> [])) as [Hb|Hb]; destruct b as [|x b];
    try reflexivity; [contradiction | exfalso; apply Hb; discriminate].
Qed.

Lemma copyLoop_quiet (d : S3opsDownload.disk) (total : Z)
    (quiet : list (list byte * option error)) (data : list byte) (e : error)
    (rest : list (list byte * option error)) :
  (forall off data, (length data <= S3opsDownload.takes d off data)%nat) ->
  Forall (fun r => r.2 = None) quiet ->
  forall (f : list byte) (acc : Z) (progress : list S3opsDownload.DownloadProgress),
    S3opsDownload.copyLoop d total (quiet ++ (data, Some e) :: rest) f
      (wrap64 acc) progress
    = (f ++ concat (quiet.*1) ++ data,
       progress ++ runningTotals total acc (nonEmpty (quiet.*1 ++ [data])),
       Returned (match e with
                 | EEOF => None
                 | _ => Some (EWrap "failed to read object" e)
                 end)).
Proof.
  intros Hdisk Hquiet. induction Hquiet as [|[body err] quiet Herr _ IH];
    intros f acc progress.
  - simpl. rewrite nonEmpty_cons. unfold add64. rewrite wrap64_add_l.
    destruct (Nat.ltb_spec 0 (length data)) as [Hpos|Hzero].
    + rewrite Write_whole by assumption. simpl. now destruct e.
    + assert (data = []) as -> by (destruct data; [reflexivity | simpl in Hzero; lia]).
      simpl. rewrite !app_nil_r. now destruct e.
  - simpl in Herr. subst err. simpl. rewrite nonEmpty_cons.
    unfold add64. rewrite wrap64_add_l.
    destruct (Nat.ltb_spec 0 (length body)) as [Hpos|Hzero].
    + rewrite Write_whole by assumption. rewrite IH. simpl.
      now rewrite <- !app_assoc.
    + assert (body = []) as -> by (destruct body; [reflexivity | simpl in Hzero; lia]).
      now rewrite IH.
Qed.

(** X20: [DownloadObject] writes what the body delivers.  When the disk
    takes every write, and the body gives its first error with some read
    (bytes may come with it), the file holds the bytes of all the reads up
    to and including that one, in order; [progress] was called once for
    each read that brought bytes, with the running total; and the call
    returns nil when that error is [io.EOF] and the wrapped error
    otherwise, the bytes that came with it being written all the same. *)
Theorem DownloadObject_copies_body :
  forall (resp : S3opsDownload.objectStream) (d : S3opsDownload.disk)
         (quiet rest : list (list byte * option error)) (data : list byte) (e : error),
    S3opsDownload.createErr d = None ->
    (forall off data, (length data <= S3opsDownload.takes d off data)%nat) ->
    S3opsDownload.reads resp = quiet ++ (data, Some e) :: rest ->
    Forall (fun r => r.2 = None) quiet ->
    S3opsDownload.DownloadObject (Ok resp) d
    = (Some (concat (quiet.*1) ++ data),
       runningTotals (default 0 (S3opsDownload.ContentLength resp)) 0
         (nonEmpty (quiet.*1 ++ [data])),
       Returned (match e with
                 | EEOF => None
                 | _ => Some (EWrap "failed to read object" e)
                 end)).
Proof.
  intros resp d quiet rest data e Hcreate Hdisk Hreads Hquiet.
  unfold S3opsDownload.DownloadObject. rewrite Hcreate, Hreads.
  change 0 with (wrap64 0) at 2.
  now rewrite (copyLoop_quiet d _ quiet data e rest Hdisk Hquiet [] 0 []).
Qed.

Lemma DownloadObject_copies_body_witness :
  let resp := {| S3opsDownload.ContentLength := Some 5;
                 S3opsDownload.reads :=
                   [([x41; x42], None); ([], None); ([x43; x44; x45], Some EEOF)] |} in
  let d := {| S3opsDownload.existing := Some [x7a];
              S3opsDownload.createErr := None;
              S3opsDownload.takes := fun _ data => length data |} in
  S3opsDownload.DownloadObject (Ok resp) d
  = (Some [x41; x42; x43; x44; x45],
     [{| S3opsDownload.TotalBytes := 5; S3opsDownload.DownloadedBytes := 2 |};
      {| S3opsDownload.TotalBytes := 5; S3opsDownload.DownloadedBytes := 5 |}],
     Returned None).
Proof.
  intros resp d.
  apply (DownloadObject_copies_body resp d [([x41; x42], None); ([], None)] []
           [x43; x44; x45] EEOF eq_refl).
  - intros off data. simpl. lia.
  - reflexivity.
  - repeat constructor.
Defined.

Lemma copyLoop_prefix (d : S3opsDownload.disk) (total : Z)
    (reads : list (list byte * option error)) :
  forall (f : list byte) (downloaded : Z)
         (progress : list S3opsDownload.DownloadProgress),
    exists tail,
      (S3opsDownload.copyLoop d total reads f downloaded progress).1.1 = f ++ tail /\
      tail `prefix_of` concat (reads.*1).
Proof.
  induction reads as [|[data err] reads IH]; intros f downloaded progress.
  - exists []. simpl. rewrite app_nil_r. split; [reflexivity | apply prefix_nil].
  - simpl. destruct (0 <? length data)%nat eqn:Hpos.
    + unfold S3opsDownload.Write.
      set (n := Nat.min _ (length data)).
      destruct (Nat.ltb_spec n (length data)) as [Hshort|Hfull].
      * exists (take n data). split; [reflexivity|].
        etransitivity; [apply prefix_take | apply prefix_app_r; reflexivity].
      * rewrite take_ge by lia.
        destruct err as [e|].
        -- exists data. split; [now destruct e | now apply prefix_app_r].
        -- destruct (IH (f ++ data) (add64 downloaded (Z.of_nat (length data)))
                       (progress ++ [{| S3opsDownload.TotalBytes := total;
                                        S3opsDownload.DownloadedBytes :=
                                          add64 downloaded (Z.of_nat (length data)) |}]))
             as (tail & Htail & Hpre).
           exists (data ++ tail). rewrite Htail, <- app_assoc.
           split; [reflexivity | now apply prefix_app].
    + apply Nat.ltb_ge in Hpos.
      assert (data = []) as -> by (destruct data; [reflexivity | simpl in Hpos; lia]).
      destruct err as [e|].
      * exists []. rewrite app_nil_r. split; [now destruct e | apply prefix_nil].
      * apply IH.
Qed.

(** X21: what [DownloadObject] leaves at the output path.  When
    [GetObject] fails, or the file cannot be created, the path is as it
    was.  Once the file has been created, what was there before is gone,
    and whatever happens next (errors of the body, writes cut short) the
    file holds nothing but a first part of the bytes the body delivered. *)
Theorem DownloadObject_output_file :
  forall (getObject : result S3opsDownload.objectStream) (d : S3opsDownload.disk),
    match getObject with
    | Err _ => (S3opsDownload.DownloadObject getObject d).1.1 = S3opsDownload.existing d
    | Ok resp =>
        match S3opsDownload.createErr d with
        | Some _ =>
            (S3opsDownload.DownloadObject getObject d).1.1 = S3opsDownload.existing d
        | None =>
            exists f,
              (S3opsDownload.DownloadObject getObject d).1.1 = Some f /\
              f `prefix_of` concat ((S3opsDownload.reads resp).*1)
        end
    end.
Proof.
  intros [resp|e] d; [|reflexivity]. unfold S3opsDownload.DownloadObject.
  destruct (S3opsDownload.createErr d); [reflexivity|].
  destruct (copyLoop_prefix d (default 0 (S3opsDownload.ContentLength resp))
              (S3opsDownload.reads resp) [] 0 []) as (tail & Hfile & Hpre).
  destruct (S3opsDownload.copyLoop _ _ _ _ _ _) as [[f progress] out].
  simpl in *. subst f. eauto.
Qed.

(** ** Deleting objects *)

Lemma markFirst_lookup (key : string)
    (mark : S3opsDelete.DeleteResult -> S3opsDelete.DeleteResult)
    (results : list S3opsDelete.DeleteResult) (i : nat) :
  S3opsDelete.markFirst key mark results !! i
  = (fun r => if decide (S3opsDelete.Key r = key /\
                         key ∉ S3opsDelete.Key <$> take i results)
              then mark r else r) <$> results !! i.
Proof.
  revert i. induction results as [|r rest IH]; intros i; [reflexivity|].
  simpl. destruct (String.eqb_spec (S3opsDelete.Key r) key) as [Heq|Hne].
  - destruct i as [|i]; simpl.
    + rewrite decide_True; [reflexivity|]. split; [exact Heq | apply not_elem_of_nil].
    + destruct (rest !! i) as [r'|]; [|reflexivity]. simpl.
      rewrite decide_False; [reflexivity|].
      intros [_ Hno]. apply Hno. rewrite Heq. left.
  - destruct i as [|i]; simpl.
    + rewrite decide_False; [reflexivity|]. tauto.
    + rewrite IH. destruct (rest !! i) as [r'|]; [|reflexivity]. simpl.
      destruct (decide (S3opsDelete.Key r' = key /\
                        key ∉ S3opsDelete.Key <$> take i rest)) as [[Hk Hno]|Hnot].
      * rewrite decide_True; [reflexivity|]. split; [exact Hk|].
        rewrite not_elem_of_cons. split; [congruence | exact Hno].
      * rewrite decide_False; [reflexivity|].
        intros [Hk Hno]. apply Hnot. split; [exact Hk|].
        rewrite not_elem_of_cons in Hno. tauto.
Qed.

Lemma markFirst_keys (key : string)
    (mark : S3opsDelete.DeleteResult -> S3opsDelete.DeleteResult)
    (results : list S3opsDelete.DeleteResult) :
  (forall r, S3opsDelete.Key (mark r) = S3opsDelete.Key r) ->
  S3opsDelete.Key <$> S3opsDelete.markFirst key mark results
  = S3opsDelete.Key <$> results.
Proof.
  intros Hmark. induction results as [|r rest IH]; [reflexivity|].
  cbn [S3opsDelete.markFirst].
  destruct (String.eqb (S3opsDelete.Key r) key); rewrite !fmap_cons.
  - now rewrite Hmark.
  - now rewrite IH.
Qed.

(** Going through the keys reported as deleted changes nothing: every
    result says so from the start. *)
Lemma markDeleted_id (deleted : list (option string))
    (results : list S3opsDelete.DeleteResult) :
  Forall (fun r => S3opsDelete.Deleted r = true) results ->
  foldl (fun results d =>
           S3opsDelete.markFirst (Aws.ToString d)
             (fun r => {| S3opsDelete.Key := S3opsDelete.Key r;
                          S3opsDelete.Deleted := true;
                          S3opsDelete.Error := S3opsDelete.Error r |})
             results)
    results deleted
  = results.
Proof.
  intros Hall. induction deleted as [|d deleted IH] using rev_ind; [reflexivity|].
  rewrite foldl_app. simpl. rewrite IH.
  generalize (Aws.ToString d). intros key. clear IH.
  induction Hall as [|r rest Hr _ IHr]; [reflexivity|].
  simpl. destruct (String.eqb (S3opsDelete.Key r) key).
  - destruct r as [k dl er]. simpl in *. now subst dl.
  - now rewrite IHr.
Qed.

(** What the results say after the errors of a response have been gone
    through. *)
Lemma markErrors_spec (keys : list string) (errors : list S3opsDelete.deleteError) :
  let results :=
    foldl (fun results e =>
             S3opsDelete.markFirst (Aws.ToString (S3opsDelete.errKey e))
               (fun r => {| S3opsDelete.Key := S3opsDelete.Key r;
                            S3opsDelete.Deleted := false;
                            S3opsDelete.Error :=
                              Some (EService (Aws.ToString (S3opsDelete.errCode e)
                                                ++ ": "
                                                ++ Aws.ToString
                                                     (S3opsDelete.errMessage e))) |})
               results)
      ((fun key => {| S3opsDelete.Key := key; S3opsDelete.Deleted := true;
                      S3opsDelete.Error := None |}) <$> keys)
      errors in
  S3opsDelete.Key <$> results = keys /\
  forall i r, results !! i = Some r ->
    (S3opsDelete.Deleted r = false <->
     S3opsDelete.Key r
       ∈ (fun e => Aws.ToString (S3opsDelete.errKey e)) <$> errors /\
     S3opsDelete.Key r ∉ take i keys) /\
    (S3opsDelete.Deleted r = true -> S3opsDelete.Error r = None).
Proof.
  induction errors as [|e errors IH] using rev_ind.
  - simpl. split.
    + rewrite <- list_fmap_compose. apply list_fmap_id.
    + intros i r Hr. rewrite list_lookup_fmap in Hr.
      destruct (keys !! i); inversion Hr; subst. simpl.
      split; [|reflexivity]. split; [discriminate|]. intros [Hin _]. inversion Hin.
  - cbv zeta in *. rewrite foldl_app. simpl.
    set (prev := foldl _ _ errors) in *. destruct IH as [Hkeys IH].
    split; [rewrite markFirst_keys; auto|].
    intros i r' Hr'. rewrite markFirst_lookup in Hr'.
    destruct (prev !! i) as [r|] eqn:Hr; [|discriminate]. simpl in Hr'.
    destruct (IH i r Hr) as [Hfalse Htrue].
    rewrite fmap_take, Hkeys in Hr'.
    rewrite fmap_app, elem_of_app. simpl. rewrite list_elem_of_singleton.
    destruct (decide _) as [[Hk Hno]|Hnot]; inversion Hr'; subst r'; simpl.
    + rewrite Hk. split; [|discriminate]. split; [tauto|]. intros _. reflexivity.
    + split; [|exact Htrue]. rewrite Hfalse. split; [tauto|].
      intros [[Hin|Heq] Hno]; [tauto|]. exfalso. apply Hnot. rewrite <- Heq. tauto.
Qed.

(** X22: what [DeleteObjects] reports.  For a list of keys that is not
    empty and a call that the service answers, there is one result for
    each key, in the order of the keys; a result says "not deleted" exactly
    when the response has an error entry for its key and the key does not
    occur earlier in the list (of a key given twice only the first result
    shows the failure); and every other result says "deleted", without an
    error. *)
Theorem DeleteObjects_report :
  forall (deleteObjects : list string -> bool -> result S3opsDelete.deleteOutput)
         (keys : list string) (quiet : bool) (resp : S3opsDelete.deleteOutput),
    keys <> [] -> deleteObjects keys quiet = Ok resp ->
    exists results,
      S3opsDelete.DeleteObjects deleteObjects keys quiet = Ok results /\
      S3opsDelete.Key <$> results = keys /\
      forall i r, results !! i = Some r ->
        (S3opsDelete.Deleted r = false <->
         S3opsDelete.Key r ∈ errorKeys resp /\ S3opsDelete.Key r ∉ take i keys) /\
        (S3opsDelete.Deleted r = true -> S3opsDelete.Error r = None).
Proof.
  intros del keys quiet resp Hne Hresp. unfold S3opsDelete.DeleteObjects.
  destruct keys as [|k keys]; [contradiction|]. simpl (_ =? _)%nat. cbv iota.
  rewrite Hresp. eexists. split; [reflexivity|].
  rewrite markDeleted_id by (apply Forall_fmap, Forall_forall; reflexivity).
  apply markErrors_spec.
Qed.

Lemma DeleteObjects_report_witness :
  let del := fun (_ : list string) (_ : bool) =>
    Ok {| S3opsDelete.respDeleted := [];
          S3opsDelete.respErrors :=
            [{| S3opsDelete.errKey := Some "b"%string;
                S3opsDelete.errCode := Some "AccessDenied"%string;
                S3opsDelete.errMessage := Some "Access Denied"%string |}] |} in
  S3opsDelete.DeleteObjects del ["a"; "b"; "b"]%string false
  = Ok [{| S3opsDelete.Key := "a"; S3opsDelete.Deleted := true;
           S3opsDelete.Error := None |};
        {| S3opsDelete.Key := "b"; S3opsDelete.Deleted := false;
           S3opsDelete.Error := Some (EService "AccessDenied: Access Denied") |};
        {| S3opsDelete.Key := "b"; S3opsDelete.Deleted := true;
           S3opsDelete.Error := None |}] /\
  exists results,
    S3opsDelete.DeleteObjects del ["a"; "b"; "b"]%string false = Ok results /\
    S3opsDelete.Key <$> results = ["a"; "b"; "b"]%string.
Proof.
  intros del. split; [vm_compute; reflexivity|].
  destruct (DeleteObjects_report del ["a"; "b"; "b"]%string false _
              ltac:(discriminate) eq_refl) as (results & Hrun & Hkeys & _).
  eauto.
Defined.

(** X23: [DeleteObjects] goes by the errors of the response alone.  Two
    services whose answers have the same error entries give the same
    results, whatever keys they report as deleted: a key the service names
    neither as deleted nor as failed is reported as deleted.  With no key
    at all the service is not called and there is no result. *)
Theorem DeleteObjects_trusts_silence :
  forall (del del' : list string -> bool -> result S3opsDelete.deleteOutput)
         (keys : list string) (quiet : bool),
    (forall resp, del keys quiet = Ok resp ->
       exists resp', del' keys quiet = Ok resp' /\
                     S3opsDelete.respErrors resp' = S3opsDelete.respErrors resp) ->
    (forall e, del keys quiet = Err e -> del' keys quiet = Err e) ->
    S3opsDelete.DeleteObjects del keys quiet = S3opsDelete.DeleteObjects del' keys quiet /\
    S3opsDelete.DeleteObjects del [] quiet = Ok [].
Proof.
  intros del del' keys quiet Hok Herr. split; [|reflexivity].
  unfold S3opsDelete.DeleteObjects.
  destruct (length keys =? 0)%nat; [reflexivity|].
  destruct (del keys quiet) as [resp|e] eqn:Hdel.
  - destruct (Hok resp eq_refl) as (resp' & -> & Herrs).
    rewrite !markDeleted_id by (apply Forall_fmap, Forall_forall; reflexivity).
    now rewrite Herrs.
  - now rewrite (Herr e eq_refl).
Qed.

Lemma DeleteObjects_trusts_silence_witness :
  let del := fun (_ : list string) (_ : bool) =>
    Ok {| S3opsDelete.respDeleted := []; S3opsDelete.respErrors := [] |} in
  let del' := fun (keys : list string) (_ : bool) =>
    Ok {| S3opsDelete.respDeleted := Some <$> keys; S3opsDelete.respErrors := [] |} in
  S3opsDelete.DeleteObjects del ["a"; "b"]%string true
  = S3opsDelete.DeleteObjects del' ["a"; "b"]%string true /\
  S3opsDelete.DeleteObjects del ["a"; "b"]%string true
  = Ok [{| S3opsDelete.Key := "a"; S3opsDelete.Deleted := true;
           S3opsDelete.Error := None |};
        {| S3opsDelete.Key := "b"; S3opsDelete.Deleted := true;
           S3opsDelete.Error := None |}].
Proof.
  intros del del'. split; [|vm_compute; reflexivity].
  apply (DeleteObjects_trusts_silence del del' ["a"; "b"]%string true).
  - intros resp [= <-]. eexists. split; reflexivity.
  - discriminate.
Defined.

Lemma hasSuffix_slash (p : string) : S3opsDelete.hasSuffix (p ++ "/") "/" = true.
Proof.
  unfold S3opsDelete.hasSuffix. rewrite string_length_app. simpl String.length.
  replace (String.length p + 1 - 1)%nat with (String.length p) by lia.
  rewrite sliceFrom_app. rewrite String.eqb_refl, andb_true_r.
  apply Nat.leb_le. lia.
Qed.

Lemma string_app_nonempty (p : string) : (p ++ "/")%string <> ""%string.
Proof. destruct p; discriminate. Qed.

Lemma withSlash_idem (prefix : string) : withSlash (withSlash prefix) = withSlash prefix.
Proof.
  unfold withSlash.
  destruct (String.eqb_spec prefix "") as [->|Hne]; [reflexivity|].
  destruct (S3opsDelete.hasSuffix prefix "/") eqn:Hs.
  - destruct (String.eqb_spec prefix ""); [contradiction|]. now rewrite Hs.
  - rewrite hasSuffix_slash.
    destruct (String.eqb_spec (prefix ++ "/") "") as [H|_]; [|reflexivity].
    now apply string_app_nonempty in H.
Qed.

(** Both normalisations give the prefix with its [/]. *)
Lemma DeletePrefix_normal (prefix : string) :
  (if negb (String.eqb prefix "") && negb (S3opsDelete.hasSuffix prefix "/")
   then (prefix ++ "/")%string else prefix) = withSlash prefix.
Proof.
  unfold withSlash. destruct (String.eqb prefix ""); [reflexivity|].
  now destruct (S3opsDelete.hasSuffix prefix "/").
Qed.

Lemma ListObjectsAll_normal
    (listObjectsV2 : string -> list (result (list S3opsList.s3Object)))
    (prefix : string) :
  S3opsList.ListObjectsAll listObjectsV2 (withSlash prefix)
  = S3opsList.pagesLoop (listObjectsV2 (withSlash prefix)) [].
Proof.
  unfold S3opsList.ListObjectsAll.
  change (Strings.HasSuffix (withSlash prefix) "/")
    with (S3opsDelete.hasSuffix (withSlash prefix) "/").
  replace (if negb (S3opsDelete.hasSuffix (withSlash prefix) "/")
              && negb (String.eqb (withSlash prefix) "")
           then (withSlash prefix ++ "/")%string else withSlash prefix)
    with (withSlash (withSlash prefix)); [now rewrite withSlash_idem|].
  unfold withSlash at 1.
  destruct (String.eqb (withSlash prefix) ""); [now rewrite andb_false_r|].
  now destruct (S3opsDelete.hasSuffix (withSlash prefix) "/").
Qed.

(** X24: [DeletePrefix] works on the prefix with a [/] at its end.  A
    prefix given without it is treated as the same prefix with it (so that
    [logs] stands for [logs/] and leaves [logs-old/] alone); the listing is
    asked for that prefix only; and the empty prefix is left empty, which
    lists the whole bucket. *)
Theorem DeletePrefix_prefix :
  forall (listObjectsV2 listObjectsV2' : string -> list (result (list S3opsList.s3Object)))
         (deleteObjects : list string -> bool -> result S3opsDelete.deleteOutput)
         (prefix : string),
    S3opsDelete.DeletePrefix listObjectsV2 deleteObjects prefix
    = S3opsDelete.DeletePrefix listObjectsV2 deleteObjects (withSlash prefix) /\
    (listObjectsV2' (withSlash prefix) = listObjectsV2 (withSlash prefix) ->
     S3opsDelete.DeletePrefix listObjectsV2' deleteObjects prefix
     = S3opsDelete.DeletePrefix listObjectsV2 deleteObjects prefix) /\
    withSlash ""%string = ""%string /\
    (prefix <> ""%string -> exists p, withSlash prefix = (p ++ "/")%string).
Proof.
  intros list list' del prefix.
  assert (Hrun : forall l p,
            S3opsDelete.DeletePrefix l del p
            = match S3opsList.pagesLoop (l (withSlash p)) [] with
              | Err e => (0, Some (EWrap "failed to list objects" e))
              | Ok objects =>
                  if (length objects =? 0)%nat then (0, None) else
                  match S3opsDelete.DeleteObjects del (S3opsList.Key <$> objects) true
                  with
                  | Err e => (0, Some e)
                  | Ok results =>
                      (foldl (fun deleted r =>
                                if S3opsDelete.Deleted r then add64 deleted 1 else deleted)
                         0 results, None)
                  end
              end).
  { intros l p. unfold S3opsDelete.DeletePrefix.
    now rewrite DeletePrefix_normal, ListObjectsAll_normal. }
  split; [now rewrite !Hrun, withSlash_idem|].
  split; [intros Heq; now rewrite !Hrun, Heq|].
  split; [reflexivity|].
  intros Hne. unfold withSlash.
  destruct (String.eqb_spec prefix "") as [|_]; [contradiction|].
  destruct (S3opsDelete.hasSuffix prefix "/") eqn:Hs; [|eauto].
  unfold S3opsDelete.hasSuffix in Hs. apply andb_prop in Hs as [Hlen Heq].
  apply Nat.leb_le in Hlen. apply String.eqb_eq in Heq.
  destruct (slice_split prefix (String.length prefix - String.length "/") ltac:(lia))
    as [Hsplit _].
  rewrite Heq in Hsplit. eauto.
Qed.

Lemma countDeleted_spec (results : list S3opsDelete.DeleteResult) (acc : Z) :
  foldl (fun deleted r => if S3opsDelete.Deleted r then add64 deleted 1 else deleted)
    (wrap64 acc) results
  = wrap64 (acc + Z.of_nat (length (filter (fun r => S3opsDelete.Deleted r = true)
                                      results))).
Proof.
  revert acc. induction results as [|r results IH]; intros acc.
  - simpl. now rewrite Z.add_0_r.
  - simpl. rewrite filter_cons. destruct (S3opsDelete.Deleted r) eqn:Hd.
    + rewrite decide_True by reflexivity. unfold add64. rewrite wrap64_add_l, IH.
      f_equal. simpl. lia.
    + rewrite decide_False by discriminate. apply IH.
Qed.



(** ** Content types *)

(** X26: the command's table of content types and the library's agree
    on every path but those whose extension, in lower case, is [.svg] or
    [.ico]: these the command labels [image/svg+xml] and [image/x-icon]
    and the library [application/octet-stream].  Neither function ever
    returns the empty string, so that the command's upload always sets a
    content type when it is asked to guess. *)
Theorem content_type_tables :
  forall (unicodeToLower : string -> string) (path : string),
    let ext := ToLower unicodeToLower (Filepath.Ext path) in
    guessContentTypeFromExt unicodeToLower path <> ""%string /\
    getContentType unicodeToLower path <> ""%string /\
    (ext <> ".svg"%string -> ext <> ".ico"%string ->
     getContentType unicodeToLower path = guessContentTypeFromExt unicodeToLower path) /\
    (ext = ".svg"%string ->
     guessContentTypeFromExt unicodeToLower path = "image/svg+xml"%string /\
     getContentType unicodeToLower path = "application/octet-stream"%string) /\
    (ext = ".ico"%string ->
     guessContentTypeFromExt unicodeToLower path = "image/x-icon"%string /\
     getContentType unicodeToLower path = "application/octet-stream"%string).
Proof.
  intros lower path ext. unfold guessContentTypeFromExt, getContentType. fold ext.
  generalize ext. clear ext. intros ext.
  repeat match goal with
         | |- context [String.eqb ext ?s] =>
             destruct (String.eqb_spec ext s) as [->|?]
         end;
    simpl; repeat split; intros; try discriminate; try congruence.
Qed.

Example content_type_examples :
  let lower := fun s : string => s in
  guessContentTypeFromExt lower "site/Logo.SVG" = "image/svg+xml"%string /\
  getContentType lower "site/Logo.SVG" = "application/octet-stream"%string /\
  guessContentTypeFromExt lower "backup.tar.gz" = "application/gzip"%string /\
  guessContentTypeFromExt lower "dir.d/README" = "application/octet-stream"%string.
Proof. repeat split; vm_compute; reflexivity. Qed.
